(** * deeplx: the HTML-preservation utilities of [src/lib/htmlUtils.ts]

    A shallow embedding of the four exported operations
    ([containsHtmlContent], [preserveHtmlContent], [restoreHtmlContent],
    [sanitizeHtmlContent]) together with the fragment of the ECMAScript
    semantics they rest on: strings as sequences of UTF-16 code units,
    backtracking regular expressions, [RegExp.prototype.test] with its
    [lastIndex], and [String.prototype.replace] with a global pattern. *)

From Stdlib Require Import String Ascii.
From Stdlib Require Import List NArith Arith Bool Lia Decimal DecimalNat.
Import ListNotations.

Local Open Scope N_scope.

(** ** ECMAScript strings *)

Module JS.

(** A string is a sequence of UTF-16 code units. *)
Abbreviation char := N.
Abbreviation jsstring := (list N).

(** ASCII literals of the development ([str "<b>"]). *)
Definition str (s : string) : jsstring :=
  List.map N_of_ascii (list_ascii_of_string s).

Definition in_range (lo hi c : char) : bool := (lo <=? c) && (c <=? hi).

(** The upper case of the code units from U+0180 on that have one which
    is a single code unit of the Basic Multilingual Plane (Unicode 14), as
    ranges (first, last, step, image of the first): the code unit
    [first + i * step], up to [last], has the upper case [image + i * step].
    A code unit in no range, a lone surrogate included, is its own upper
    case or has one of several code units. *)
Definition upper_ranges : list (N * N * N * N) :=
  [(384, 384, 1, 579); (387, 389, 2, 386); (392, 392, 1, 391); (396, 396, 1, 395);
   (402, 402, 1, 401); (405, 405, 1, 502); (409, 409, 1, 408); (410, 410, 1, 573);
   (414, 414, 1, 544); (417, 421, 2, 416); (424, 424, 1, 423); (429, 429, 1, 428);
   (432, 432, 1, 431); (436, 438, 2, 435); (441, 441, 1, 440); (445, 445, 1, 444);
   (447, 447, 1, 503); (453, 453, 1, 452); (454, 454, 1, 452); (456, 456, 1, 455);
   (457, 457, 1, 455); (459, 459, 1, 458); (460, 460, 1, 458); (462, 476, 2, 461);
   (477, 477, 1, 398); (479, 495, 2, 478); (498, 498, 1, 497); (499, 499, 1, 497);
   (501, 501, 1, 500); (505, 543, 2, 504); (547, 563, 2, 546); (572, 572, 1, 571);
   (575, 576, 1, 11390); (578, 578, 1, 577); (583, 591, 2, 582); (592, 592, 1, 11375);
   (593, 593, 1, 11373); (594, 594, 1, 11376); (595, 595, 1, 385); (596, 596, 1, 390);
   (598, 599, 1, 393); (601, 601, 1, 399); (603, 603, 1, 400); (604, 604, 1, 42923);
   (608, 608, 1, 403); (609, 609, 1, 42924); (611, 611, 1, 404); (613, 613, 1, 42893);
   (614, 614, 1, 42922); (616, 616, 1, 407); (617, 617, 1, 406); (618, 618, 1, 42926);
   (619, 619, 1, 11362); (620, 620, 1, 42925); (623, 623, 1, 412);
   (625, 625, 1, 11374); (626, 626, 1, 413); (629, 629, 1, 415); (637, 637, 1, 11364);
   (640, 640, 1, 422); (642, 642, 1, 42949); (643, 643, 1, 425); (647, 647, 1, 42929);
   (648, 648, 1, 430); (649, 649, 1, 580); (650, 651, 1, 433); (652, 652, 1, 581);
   (658, 658, 1, 439); (669, 669, 1, 42930); (670, 670, 1, 42928); (837, 837, 1, 921);
   (881, 883, 2, 880); (887, 887, 1, 886); (891, 893, 1, 1021); (940, 940, 1, 902);
   (941, 943, 1, 904); (945, 961, 1, 913); (962, 962, 1, 931); (963, 971, 1, 931);
   (972, 972, 1, 908); (973, 974, 1, 910); (976, 976, 1, 914); (977, 977, 1, 920);
   (981, 981, 1, 934); (982, 982, 1, 928); (983, 983, 1, 975); (985, 1007, 2, 984);
   (1008, 1008, 1, 922); (1009, 1009, 1, 929); (1010, 1010, 1, 1017);
   (1011, 1011, 1, 895); (1013, 1013, 1, 917); (1016, 1016, 1, 1015);
   (1019, 1019, 1, 1018); (1072, 1103, 1, 1040); (1104, 1119, 1, 1024);
   (1121, 1153, 2, 1120); (1163, 1215, 2, 1162); (1218, 1230, 2, 1217);
   (1231, 1231, 1, 1216); (1233, 1327, 2, 1232); (1377, 1414, 1, 1329);
   (4304, 4346, 1, 7312); (4349, 4351, 1, 7357); (5112, 5117, 1, 5104);
   (7296, 7296, 1, 1042); (7297, 7297, 1, 1044); (7298, 7298, 1, 1054);
   (7299, 7300, 1, 1057); (7301, 7301, 1, 1058); (7302, 7302, 1, 1066);
   (7303, 7303, 1, 1122); (7304, 7304, 1, 42570); (7545, 7545, 1, 42877);
   (7549, 7549, 1, 11363); (7566, 7566, 1, 42950); (7681, 7829, 2, 7680);
   (7835, 7835, 1, 7776); (7841, 7935, 2, 7840); (7936, 7943, 1, 7944);
   (7952, 7957, 1, 7960); (7968, 7975, 1, 7976); (7984, 7991, 1, 7992);
   (8000, 8005, 1, 8008); (8017, 8023, 2, 8025); (8032, 8039, 1, 8040);
   (8048, 8049, 1, 8122); (8050, 8053, 1, 8136); (8054, 8055, 1, 8154);
   (8056, 8057, 1, 8184); (8058, 8059, 1, 8170); (8060, 8061, 1, 8186);
   (8112, 8113, 1, 8120); (8126, 8126, 1, 921); (8144, 8145, 1, 8152);
   (8160, 8161, 1, 8168); (8165, 8165, 1, 8172); (8526, 8526, 1, 8498);
   (8560, 8575, 1, 8544); (8580, 8580, 1, 8579); (9424, 9449, 1, 9398);
   (11312, 11359, 1, 11264); (11361, 11361, 1, 11360); (11365, 11365, 1, 570);
   (11366, 11366, 1, 574); (11368, 11372, 2, 11367); (11379, 11379, 1, 11378);
   (11382, 11382, 1, 11381); (11393, 11491, 2, 11392); (11500, 11502, 2, 11499);
   (11507, 11507, 1, 11506); (11520, 11557, 1, 4256); (11559, 11559, 1, 4295);
   (11565, 11565, 1, 4301); (42561, 42605, 2, 42560); (42625, 42651, 2, 42624);
   (42787, 42799, 2, 42786); (42803, 42863, 2, 42802); (42874, 42876, 2, 42873);
   (42879, 42887, 2, 42878); (42892, 42892, 1, 42891); (42897, 42899, 2, 42896);
   (42900, 42900, 1, 42948); (42903, 42921, 2, 42902); (42933, 42947, 2, 42932);
   (42952, 42954, 2, 42951); (42961, 42961, 1, 42960); (42967, 42969, 2, 42966);
   (42998, 42998, 1, 42997); (43859, 43859, 1, 42931); (43888, 43967, 1, 5024);
   (65345, 65370, 1, 65313)].

Fixpoint upper_from (ranges : list (N * N * N * N)) (c : char) : char :=
  match ranges with
  | [] => c
  | (first, last, step, image) :: ranges' =>
      if (first <=? c) && (c <=? last) && ((c - first) mod step =? 0)
      then image + (c - first)
      else upper_from ranges' c
  end.

Definition upper_high (c : char) : char := upper_from upper_ranges c.

(** [String.prototype.toUpperCase] on a one-unit string, as [Canonicalize]
    uses it: the Unicode upper-case mapping, written out for the blocks
    Basic Latin, Latin-1 Supplement and Latin Extended-A, which hold every
    character of the patterns of htmlUtils.ts, with [None] where the result
    is not a single code unit, and taken from [upper_ranges] from U+0180
    on, where a code unit whose upper case has several code units is
    returned as it is, which is what [Canonicalize] makes of it. *)
Definition toUpperCase1 (c : char) : option char :=
  if in_range 97 122 c then Some (c - 32)                (* a-z *)
  else if c =? 181 then Some 924                         (* micro sign *)
  else if c =? 223 then None                             (* sharp s: "SS" *)
  else if in_range 224 254 c && negb (c =? 247) then Some (c - 32)
  else if c =? 255 then Some 376
  else if in_range 256 303 c then Some (if N.odd c then c - 1 else c)
  else if c =? 305 then Some 73                          (* dotless i *)
  else if in_range 306 311 c then Some (if N.odd c then c - 1 else c)
  else if in_range 313 328 c then Some (if N.even c then c - 1 else c)
  else if c =? 329 then None                             (* 'n: two units *)
  else if in_range 330 375 c then Some (if N.odd c then c - 1 else c)
  else if in_range 377 382 c then Some (if N.even c then c - 1 else c)
  else if c =? 383 then Some 83                          (* long s *)
  else Some (upper_high c).

(** [Canonicalize] of the RegExp semantics, without the [u] flag: under
    the [i] flag two code units match when their canonical forms agree. *)
Definition Canonicalize (c : char) : char :=
  match toUpperCase1 c with
  | None => c
  | Some cu => if (128 <=? c) && (cu <? 128) then c else cu
  end.

Definition ci_eqb (a b : char) : bool := Canonicalize a =? Canonicalize b.

(** *** Character classes *)

Definition is_alpha (c : char) : bool := in_range 97 122 c || in_range 65 90 c.
Definition is_digit (c : char) : bool := in_range 48 57 c.
Definition is_alnum (c : char) : bool := is_alpha c || is_digit c.
Definition is_hex (c : char) : bool :=
  is_digit c || in_range 97 102 c || in_range 65 70 c.
Definition not_gt (c : char) : bool := negb (c =? 62).

(** [\s]: WhiteSpace and LineTerminator code points. *)
Definition is_space (c : char) : bool :=
  in_range 9 13 c || (c =? 32) || (c =? 160) || (c =? 5760)
  || in_range 8192 8202 c || (c =? 8232) || (c =? 8233) || (c =? 8239)
  || (c =? 8287) || (c =? 12288) || (c =? 65279).

(** *** Regular expressions

    The constructs the patterns of htmlUtils.ts use.  Every quantified
    atom there is a character class, so [*] and [+] take a class. *)
Inductive regex : Type :=
| Eps
| Chr (c : char)                 (* a literal character *)
| ChrI (c : char)                (* a literal character under the i flag *)
| Cls (p : char -> bool)         (* a character class *)
| Cat (r1 r2 : regex)
| Alt (r1 r2 : regex)
| Opt (r : regex)                (* r?  greedy *)
| StarC (p : char -> bool)       (* [..]*  greedy *)
| PlusC (p : char -> bool).      (* [..]+  greedy *)

(** The backtracking matcher: every way [r] matches a prefix of [s], as
    pairs (matched text, rest), in the order in which the engine tries
    them.  The head of the list is the match the engine reports. *)
Definition one (ok : char -> bool) (s : jsstring) : list (jsstring * jsstring) :=
  match s with
  | c :: s' => if ok c then [([c], s')] else []
  | [] => []
  end.

Definition push (c : char) (x : jsstring * jsstring) : jsstring * jsstring :=
  (c :: fst x, snd x).

Fixpoint star_run (p : char -> bool) (s : jsstring) : list (jsstring * jsstring) :=
  match s with
  | c :: s' => if p c then List.map (push c) (star_run p s') ++ [([], s)] else [([], s)]
  | [] => [([], [])]
  end.

Fixpoint run (r : regex) (s : jsstring) : list (jsstring * jsstring) :=
  match r with
  | Eps => [([], s)]
  | Chr c => one (N.eqb c) s
  | ChrI c => one (ci_eqb c) s
  | Cls p => one p s
  | Cat r1 r2 =>
      flat_map (fun x => List.map (fun y => (fst x ++ fst y, snd y)) (run r2 (snd x)))
               (run r1 s)
  | Alt r1 r2 => run r1 s ++ run r2 s
  | Opt r1 => run r1 s ++ [([], s)]
  | StarC p => star_run p s
  | PlusC p =>
      match s with
      | c :: s' => if p c then List.map (push c) (star_run p s') else []
      | [] => []
      end
  end.

(** The match at the current position, if any. *)
Definition match_at (r : regex) (s : jsstring) : option (jsstring * jsstring) :=
  hd_error (run r s).

(** Literal text as a pattern under the i flag. *)
Fixpoint lit_i (s : jsstring) : regex :=
  match s with
  | [] => Eps
  | c :: s' => Cat (ChrI c) (lit_i s')
  end.

(** *** [RegExp.prototype.exec] and [test] on a global pattern

    The search starts at [lastIndex] and tries every index up to and
    including the length of the string. *)
Fixpoint search (r : regex) (t : jsstring) : option (jsstring * jsstring) :=
  match match_at r t with
  | Some x => Some x
  | None => match t with
            | [] => None
            | _ :: t' => search r t'
            end
  end.

(** [test_g r s lastIndex] is the result of [r.test(s)] and the new
    [lastIndex]: the end of the match, or 0 after a failure. *)
Definition test_g (r : regex) (s : jsstring) (lastIndex : nat) : bool * nat :=
  if (length s <? lastIndex)%nat then (false, 0%nat)
  else match search r (skipn lastIndex s) with
       | Some (_, rest) => (true, (length s - length rest)%nat)
       | None => (false, 0%nat)
       end.

(** [test] on a pattern without the g flag that starts with [^]: the
    search starts at index 0 and the anchor rules out every other index. *)
Definition test_anchored (r : regex) (s : jsstring) : bool :=
  match match_at r s with Some _ => true | None => false end.

(** *** [String.prototype.replace] with a global pattern

    [replace_from r f str skip pos t st]: [t] is the part of [str] from
    index [pos] on, of which the first [skip] units belong to the match
    found last.  The callback [f] receives the match, its index and the
    whole string, and threads the state [st] its closure mutates.  An
    empty match is replaced and the scan moves on by one unit.  (The
    engine collects all matches before it calls back; no callback of
    htmlUtils.ts touches the string, so calling back along the scan is the
    same.) *)
Section Replace.
Variable St : Type.
Variable r : regex.
Variable f : jsstring -> nat -> jsstring -> St -> jsstring * St.
Variable whole : jsstring.

Fixpoint replace_from (skip pos : nat) (t : jsstring) (st : St) : jsstring * St :=
  match t with
  | [] =>
      match skip, match_at r [] with
      | O, Some (m, _) => f m pos whole st
      | _, _ => ([], st)
      end
  | c :: t' =>
      match skip with
      | S k => replace_from k (S pos) t' st
      | O =>
          match match_at r t with
          | Some (m, _) =>
              let (rep, st1) := f m pos whole st in
              match m with
              | [] => let (out, st2) := replace_from 0 (S pos) t' st1 in
                      (rep ++ c :: out, st2)
              | _ :: m' => let (out, st2) := replace_from (length m') (S pos) t' st1 in
                           (rep ++ out, st2)
              end
          | None => let (out, st2) := replace_from 0 (S pos) t' st in
                    (c :: out, st2)
          end
      end
  end.
End Replace.

Arguments replace_from {St} r f whole skip pos t st.

Definition replace_fn {St} (r : regex)
    (f : jsstring -> nat -> jsstring -> St -> jsstring * St)
    (s : jsstring) (st : St) : jsstring * St :=
  replace_from r f s 0 0 s st.

(** [GetSubstitution] for a pattern without capture groups: in the
    replacement text, [$$] is a dollar sign, [$&] the match, [$`] the text
    before it and [$'] the text after it; any other [$] stands for itself. *)
Fixpoint GetSubstitution (matched before after tmpl : jsstring) : jsstring :=
  match tmpl with
  | [] => []
  | c :: t =>
      if c =? 36 then
        match t with
        | d :: t' =>
            if d =? 36 then 36 :: GetSubstitution matched before after t'
            else if d =? 38 then matched ++ GetSubstitution matched before after t'
            else if d =? 96 then before ++ GetSubstitution matched before after t'
            else if d =? 39 then after ++ GetSubstitution matched before after t'
            else c :: GetSubstitution matched before after t
        | [] => [c]
        end
      else c :: GetSubstitution matched before after t
  end.

(** [s.replace(r, tmpl)] with a global [r] and a replacement string. *)
Definition replace_str (r : regex) (tmpl s : jsstring) : jsstring :=
  fst (replace_fn r
         (fun m pos whole (_ : unit) =>
            (GetSubstitution m (firstn pos whole)
               (skipn (pos + length m) whole) tmpl, tt))
         s tt).

(** [Number.prototype.toString] of a non-negative integer. *)
Fixpoint uint_units (d : uint) : jsstring :=
  match d with
  | Nil => []
  | D0 d => 48 :: uint_units d
  | D1 d => 49 :: uint_units d
  | D2 d => 50 :: uint_units d
  | D3 d => 51 :: uint_units d
  | D4 d => 52 :: uint_units d
  | D5 d => 53 :: uint_units d
  | D6 d => 54 :: uint_units d
  | D7 d => 55 :: uint_units d
  | D8 d => 56 :: uint_units d
  | D9 d => 57 :: uint_units d
  end.

Definition toString (n : nat) : jsstring := uint_units (Nat.to_uint n).

(** [s.padStart(len, fill)] with a one-unit [fill]. *)
Definition padStart (len : nat) (fill : char) (s : jsstring) : jsstring :=
  repeat fill (len - length s) ++ s.

(** A [Map] with string keys, in insertion order: [set] on a key that is
    present keeps its place. *)
Definition Map := list (jsstring * jsstring).

Definition jsstring_eqb (a b : jsstring) : bool :=
  if list_eq_dec N.eq_dec a b then true else false.

Fixpoint Map_set (k v : jsstring) (m : Map) : Map :=
  match m with
  | [] => [(k, v)]
  | (k', v') :: m' => if jsstring_eqb k k' then (k, v) :: m' else (k', v') :: Map_set k v m'
  end.

End JS.

(** ** htmlUtils.ts *)

Module HtmlUtils.
Import JS.

(** [HTML_PATTERNS.TAGS], with the g flag: "<", an optional "/", a letter
    [[a-zA-Z]], letters and digits [[a-zA-Z0-9]*], an optional group of
    white space [\s+] followed by [[^>]*], and ">". *)
Definition TAGS : regex :=
  Cat (Chr 60)
   (Cat (Opt (Chr 47))
    (Cat (Cls is_alpha)
     (Cat (StarC is_alnum)
      (Cat (Opt (Cat (PlusC is_space) (StarC not_gt)))
           (Chr 62))))).

(** [HTML_PATTERNS.ENTITIES], with the g flag: "&", then either a name
    [[a-zA-Z][a-zA-Z0-9]*] or "#" with decimal digits [\d+] or with "x"
    and hexadecimal digits [[0-9a-fA-F]+], and ";". *)
Definition ENTITIES : regex :=
  Cat (Chr 38)
   (Cat (Alt (Cat (Cls is_alpha) (StarC is_alnum))
             (Cat (Chr 35)
                  (Alt (PlusC is_digit)
                       (Cat (Chr 120) (PlusC is_hex)))))
        (Chr 59)).

(** The pattern of the third pass of [preserveHtmlContent]: /:/g *)
Definition COLON : regex := Chr 58.

(** The pattern of the cleanup of [restoreHtmlContent]: the full-width
    colon U+FF1A, with the g flag. *)
Definition FULLWIDTH_COLON : regex := Chr 65306.

(** [PLACEHOLDER_PREFIX] and [PLACEHOLDER_SUFFIX]: U+0126 U+0110 U+0141 X U+0126. *)
Definition PLACEHOLDER_PREFIX : jsstring := [294; 272; 321; 88; 294].
Definition PLACEHOLDER_SUFFIX : jsstring := [294; 272; 321; 88; 294].

(** [interface PreservedContent]. *)
Record PreservedContent : Type := {
  placeholders : Map;
  counter : nat
}.

(** The template literal of [createPlaceholder]: prefix, the counter
    padded to three digits, suffix. *)
Definition placeholder_of (n : nat) : jsstring :=
  PLACEHOLDER_PREFIX ++ padStart 3 48 (toString n) ++ PLACEHOLDER_SUFFIX.

Arguments placeholder_of n : simpl never.

Definition createPlaceholder (content : jsstring) (preserved : PreservedContent)
  : jsstring * PreservedContent :=
  let placeholder := placeholder_of (counter preserved) in
  (placeholder,
   {| placeholders := Map_set placeholder content (placeholders preserved);
      counter := S (counter preserved) |}).

(** The callback of the three passes: [(match) => createPlaceholder(match, preserved)]. *)
Definition mint (m : jsstring) (_ : nat) (_ : jsstring) (preserved : PreservedContent) :=
  createPlaceholder m preserved.

Definition preserveHtmlContent (text : jsstring) : jsstring * PreservedContent :=
  let preserved := {| placeholders := []; counter := 0 |} in
  let (t1, p1) := replace_fn TAGS mint text preserved in
  let (t2, p2) := replace_fn ENTITIES mint t1 p1 in
  replace_fn COLON mint t2 p2.

(** The escaping of the placeholder in [restoreHtmlContent]: a backslash
    before each of the fourteen characters . * + ? ^ $ { } ( ) | [ ] and
    the backslash itself. *)
Definition is_special (c : char) : bool :=
  existsb (N.eqb c) [46; 42; 43; 63; 94; 36; 123; 125; 40; 41; 124; 91; 93; 92].

Definition escapeRegExp (s : jsstring) : jsstring :=
  flat_map (fun c => if is_special c then [92; c] else [c]) s.

(** [new RegExp(source, "gi")] for a source in which every special
    character is escaped: an escaped character and any other character
    stand for themselves, compared under the i flag. *)
Fixpoint RegExp_gi (source : jsstring) : regex :=
  match source with
  | [] => Eps
  | c :: t =>
      if c =? 92 then
        match t with
        | d :: t' => Cat (ChrI d) (RegExp_gi t')
        | [] => Eps
        end
      else Cat (ChrI c) (RegExp_gi t)
  end.

Definition restore_entry (restoredText : jsstring) (e : jsstring * jsstring) : jsstring :=
  replace_str (RegExp_gi (escapeRegExp (fst e))) (snd e) restoredText.

Definition restoreHtmlContent (translatedText : jsstring) (preserved : PreservedContent)
  : jsstring :=
  let restoredText := fold_left restore_entry (placeholders preserved) translatedText in
  replace_str FULLWIDTH_COLON [58] restoredText.

(** The [lastIndex] of the two global patterns [containsHtmlContent]
    calls [test] on: module-level objects, shared by all calls. *)
Record PatternState : Type := {
  TAGS_lastIndex : nat;
  ENTITIES_lastIndex : nat
}.

Definition initial : PatternState := {| TAGS_lastIndex := 0; ENTITIES_lastIndex := 0 |}.

(** [HTML_PATTERNS.TAGS.test(text) || HTML_PATTERNS.ENTITIES.test(text)]:
    the second [test] runs only when the first is false. *)
Definition containsHtmlContent (text : jsstring) (ps : PatternState)
  : bool * PatternState :=
  let (b1, i1) := test_g TAGS text (TAGS_lastIndex ps) in
  if b1 then (true, {| TAGS_lastIndex := i1; ENTITIES_lastIndex := ENTITIES_lastIndex ps |})
  else
    let (b2, i2) := test_g ENTITIES text (ENTITIES_lastIndex ps) in
    (b2, {| TAGS_lastIndex := i1; ENTITIES_lastIndex := i2 |}).

(** [SAFE_TAGS], with the i flag and anchored at the start: "<", an
    optional "/", one of strong|b|em|i|u|code|pre|span|div|p|br|hr, the
    optional attribute group of [TAGS], and ">".  Neither [\s] nor [[^>]]
    holds a cased character, so the i flag leaves the two classes as they
    are. *)
Fixpoint alternatives (n : jsstring) (ns : list jsstring) : regex :=
  match ns with
  | [] => lit_i n
  | n' :: ns' => Alt (lit_i n) (alternatives n' ns')
  end.

Definition SAFE_NAMES : list jsstring :=
  List.map str
    ["strong"; "b"; "em"; "i"; "u"; "code"; "pre"; "span"; "div"; "p"; "br"; "hr"]%string.

Definition SAFE_TAGS : regex :=
  Cat (ChrI 60)
   (Cat (Opt (ChrI 47))
    (Cat (alternatives (str "strong") (tl SAFE_NAMES))
     (Cat (Opt (Cat (PlusC is_space) (StarC not_gt)))
          (ChrI 62)))).

Definition sanitize_tag (m : jsstring) (_ : nat) (_ : jsstring) (u : unit) : jsstring * unit :=
  if test_anchored SAFE_TAGS m then (m, u) else ([], u).

Definition sanitizeHtmlContent (text : jsstring) : jsstring :=
  fst (replace_fn TAGS sanitize_tag text tt).

End HtmlUtils.

(** ** Specification vocabulary *)

Module Spec.
Import JS HtmlUtils.

(** *** The language of a pattern *)

(** The strings a pattern matches as a whole. *)
Inductive Matches : regex -> jsstring -> Prop :=
| M_Eps : Matches Eps []
| M_Chr c : Matches (Chr c) [c]
| M_ChrI p c : Canonicalize p = Canonicalize c -> Matches (ChrI p) [c]
| M_Cls (p : char -> bool) c : p c = true -> Matches (Cls p) [c]
| M_Cat r1 r2 u v : Matches r1 u -> Matches r2 v -> Matches (Cat r1 r2) (u ++ v)
| M_AltL r1 r2 u : Matches r1 u -> Matches (Alt r1 r2) u
| M_AltR r1 r2 u : Matches r2 u -> Matches (Alt r1 r2) u
| M_OptSome r u : Matches r u -> Matches (Opt r) u
| M_OptNone r : Matches (Opt r) []
| M_Star (p : char -> bool) u : forallb p u = true -> Matches (StarC p) u
| M_Plus (p : char -> bool) c u :
    p c = true -> forallb p u = true -> Matches (PlusC p) (c :: u).

(** The pattern matches somewhere in the text. *)
Definition matches_in (r : regex) (text : jsstring) : Prop :=
  exists before m after, text = before ++ m ++ after /\ Matches r m.

(** [key] occurs in [text]. *)
Definition occurs_in (key text : jsstring) : Prop :=
  exists before after, text = before ++ key ++ after.

(** A pattern no two prefixes of one string match: the engine's first
    answer is then the only one. *)
Definition prefix_unique (r : regex) : Prop :=
  forall m1 m2 r1 r2, Matches r m1 -> Matches r m2 -> m1 ++ r1 = m2 ++ r2 -> m1 = m2.

(** Attribute text: nothing, or white space followed by anything but ">". *)
Definition attrs_ok (attrs : jsstring) : bool :=
  match attrs with
  | [] => true
  | w :: rest => is_space w && forallb not_gt rest
  end.

(** The strings [TAGS] matches: "<", "/" or nothing, a name, attribute
    text, and ">". *)
Inductive tag_shape : jsstring -> Prop :=
| tag_shape_intro slash a name attrs :
    slash = [] \/ slash = [47] ->
    is_alpha a = true -> forallb is_alnum name = true -> attrs_ok attrs = true ->
    tag_shape (60 :: slash ++ a :: name ++ attrs ++ [62]).

(** The characters between the "&" and the ";" of an entity. *)
Definition ent_char (c : char) : bool := is_alnum c || (c =? 35).

(** The first characters of the fragments of the three passes. *)
Definition is_open (c : char) : bool := (c =? 60) || (c =? 38) || (c =? 58).

(** *** Global replacement *)

(** A global replacement whose callback looks at the match only, as the
    callbacks of htmlUtils.ts do. *)
Definition scan {St} (r : regex) (g : jsstring -> St -> jsstring * St)
    (t : jsstring) (st : St) : jsstring * St :=
  replace_from r (fun m _ _ => g m) [] 0 0 t st.

(** The matches a global scan comes upon, in the order in which it calls
    back. *)
Definition found (r : regex) (t : jsstring) : list jsstring :=
  snd (scan r (fun m acc => ([], acc ++ [m])) t []).

(** The full-width colon U+FF1A rewritten to the ASCII colon. *)
Definition repair_colon (c : char) : char := if c =? 65306 then 58 else c.

(** No "$" followed by "$", "&", a backquote or a quote: the sequences
    [GetSubstitution] expands. *)
Fixpoint no_dollar_pattern (s : jsstring) : bool :=
  match s with
  | [] => true
  | c :: r =>
      negb ((c =? 36)
            && match r with
               | d :: _ => (d =? 36) || (d =? 38) || (d =? 96) || (d =? 39)
               | [] => false
               end)
      && no_dollar_pattern r
  end.

(** *** Placeholders and records *)

(** The ordinal of a placeholder: at least three decimal digits. *)
Definition ordinal (n : nat) : jsstring := padStart 3 48 (toString n).

(** [k] leading zeros. *)
Fixpoint zeros (k : nat) (d : uint) : uint :=
  match k with
  | O => d
  | S k' => D0 (zeros k' d)
  end.

(** The characters placeholders are made of, and the two spellings of
    their first letter. *)
Definition is_token_char (c : char) : bool :=
  (c =? 294) || (c =? 272) || (c =? 321) || (c =? 88) || is_digit c.

Definition is_H (c : char) : bool := (c =? 294) || (c =? 295).

(** Equal up to letter case. *)
Definition same_folded (a b : jsstring) : bool :=
  jsstring_eqb (List.map Canonicalize a) (List.map Canonicalize b).

(** The placeholder of ordinal 0 in small letters. *)
Definition small_placeholder_0 : jsstring :=
  [295; 273; 322; 120; 295; 48; 48; 48; 295; 273; 322; 120; 295].

(** The entries [createPlaceholder] adds for the matches [ms], the counter
    being at [start], and the record that holds them from 0 on. *)
Fixpoint entries (start : nat) (ms : list jsstring) : Map :=
  match ms with
  | [] => []
  | m :: ms' => (placeholder_of start, m) :: entries (S start) ms'
  end.

Definition record_of (ms : list jsstring) : PreservedContent :=
  {| placeholders := entries 0 ms; counter := length ms |}.

Definition empty_record : PreservedContent := {| placeholders := []; counter := 0 |}.

(** *** The passes of the encoder *)

(** The three passes of [preserveHtmlContent], one after the other. *)
Definition after_tags (text : jsstring) : jsstring * PreservedContent :=
  scan TAGS createPlaceholder text empty_record.

Definition after_entities (text : jsstring) : jsstring * PreservedContent :=
  scan ENTITIES createPlaceholder (fst (after_tags text)) (snd (after_tags text)).

Definition after_colons (text : jsstring) : jsstring * PreservedContent :=
  scan COLON createPlaceholder (fst (after_entities text)) (snd (after_entities text)).

(** The fragments of a text in the order of discovery: the tag matches of
    the text, the entity matches of the text after the first pass, the
    colons of the text after the second. *)
Definition fragments (text : jsstring) : list jsstring :=
  found TAGS text ++ found ENTITIES (fst (after_tags text))
  ++ found COLON (fst (after_entities text)).

(** [Replaced F K t o]: [o] is [t] with some fragments, each in [F],
    replaced by a placeholder; [K] holds of the text that starts at each
    unit kept. *)
Inductive Replaced (F K : jsstring -> Prop) : jsstring -> jsstring -> Prop :=
| Replaced_nil : Replaced F K [] []
| Replaced_keep c t o :
    K (c :: t) -> Replaced F K t o -> Replaced F K (c :: t) (c :: o)
| Replaced_mint m n t o :
    F m -> Replaced F K t o -> Replaced F K (m ++ t) (placeholder_of n ++ o).

(** A pattern whose matches start with a character no placeholder holds. *)
Definition starts_plain (r : regex) : Prop :=
  forall m, Matches r m -> exists c m', m = c :: m' /\ is_token_char c = false.

(** A match in the text after the pass is a match in the text before. *)
Definition head_reflects (r : regex) : Prop :=
  forall F K t o m rest,
    Replaced F K t o -> Matches r m -> o = m ++ rest ->
    exists m' rest', t = m' ++ rest' /\ Matches r m'.

(** *** The sanitizer *)

(** The name of a tag: the letters and digits after "<" or "</". *)
Fixpoint take_while (p : char -> bool) (s : jsstring) : jsstring :=
  match s with
  | c :: s' => if p c then c :: take_while p s' else []
  | [] => []
  end.

Definition tag_name (m : jsstring) : jsstring :=
  match m with
  | _ :: c :: rest => if c =? 47 then take_while is_alnum rest
                      else take_while is_alnum (c :: rest)
  | _ => []
  end.

(** The safe-tag allow-list, compared without regard to letter case. *)
Definition on_allow_list (name : jsstring) : bool :=
  existsb (fun n => same_folded n name) SAFE_NAMES.

(** The callback of [sanitizeHtmlContent], which looks at the match only. *)
Definition keep_safe (m : jsstring) (u : unit) : jsstring * unit :=
  if test_anchored SAFE_TAGS m then (m, u) else ([], u).

(** *** Self-closing tags

    [opens_selfclosing t]: the text [t] after a "<" goes on as a
    self-closing tag with no attribute and no white space before the
    slash: a letter, letters and digits, "/>".  [may_open_tag t]: it goes
    on as a tag match could, with a letter or with "/" and a letter.
    [only_selfclosing text]: every "<" of the text after which a tag match
    could go on opens such a self-closing tag. *)
Fixpoint drop_while (p : char -> bool) (s : jsstring) : jsstring :=
  match s with
  | c :: s' => if p c then drop_while p s' else s
  | [] => []
  end.

Definition opens_selfclosing (t : jsstring) : bool :=
  match t with
  | a :: t' => is_alpha a
               && match drop_while is_alnum t' with
                  | x :: y :: _ => (x =? 47) && (y =? 62)
                  | _ => false
                  end
  | [] => false
  end.

Definition may_open_tag (t : jsstring) : bool :=
  match t with
  | x :: t' => is_alpha x
               || ((x =? 47) && match t' with y :: _ => is_alpha y | [] => false end)
  | [] => false
  end.

Fixpoint only_selfclosing (text : jsstring) : bool :=
  match text with
  | [] => true
  | c :: t => (negb (c =? 60) || opens_selfclosing t || negb (may_open_tag t))
              && only_selfclosing t
  end.

(** *** Texts with placeholders in them

    A text seen as single characters and placeholders; a placeholder
    carries its ordinal, the fragment it stands for and the way it is
    spelled in the text. *)
Inductive item : Type :=
| Plain (c : char)
| Tok (k : nat) (content spelling : jsstring).

(** The text as it is, the text with the fragments back, and the latter
    after the repair of the full-width colons outside the fragments. *)
Definition render (items : list item) : jsstring :=
  flat_map (fun it => match it with Plain c => [c] | Tok _ _ v => v end) items.

Definition original (items : list item) : jsstring :=
  flat_map (fun it => match it with Plain c => [c] | Tok _ c _ => c end) items.

Definition restored (items : list item) : jsstring :=
  flat_map (fun it => match it with Plain c => [repair_colon c] | Tok _ c _ => c end)
           items.

(** The placeholders of ordinal [j] replaced by their fragments. *)
Definition restore_tok (j : nat) (items : list item) : list item :=
  flat_map (fun it => match it with
                      | Tok k c _ => if Nat.eqb k j then List.map Plain c else [it]
                      | Plain _ => [it]
                      end) items.

(** No placeholder at all; every placeholder spelled as minted. *)
Definition all_plain (items : list item) : Prop :=
  forall it, In it items -> exists c, it = Plain c.

Definition exact (items : list item) : Prop :=
  forall k c v, In (Tok k c v) items -> v = placeholder_of k.

(** *** Texts the decoder handles whatever the order of its entries

    Three or more digits that stand directly between two placeholders
    read, with the closing delimiter of the first and the opening
    delimiter of the second, as a placeholder of their own. *)
Fixpoint digits_then_tok (n : nat) (items : list item) : bool :=
  match items with
  | Plain c :: r => is_digit c && digits_then_tok (S n) r
  | Tok _ _ _ :: _ => (3 <=? n)%nat
  | [] => false
  end.

Fixpoint no_bridge (items : list item) : bool :=
  match items with
  | [] => true
  | Tok _ _ _ :: r => negb (digits_then_tok 0 r) && no_bridge r
  | Plain _ :: r => no_bridge r
  end.

(** Neither spelling of the first letter of a placeholder; no full-width
    colon. *)
Definition clean (s : jsstring) : bool := forallb (fun c => negb (is_H c)) s.
Definition no_fullwidth (s : jsstring) : bool := forallb (fun c => negb (c =? 65306)) s.

(** A text all of whose fragments come back as they are. *)
Definition fragments_ok (text : jsstring) : bool :=
  clean text && no_fullwidth text && no_dollar_pattern text.

(** A fragment that comes back as it is, and an item the decoder handles. *)
Definition content_ok (c : jsstring) : bool :=
  clean c && no_fullwidth c && no_dollar_pattern c
  && match c with x :: _ => is_open x | [] => false end.

Definition item_wf (it : item) : bool :=
  match it with
  | Plain c => negb (is_H c)
  | Tok k c v => same_folded v (placeholder_of k) && content_ok c
  end.

Definition wf (X : list item) : Prop := forallb item_wf X = true.

(** An item of a transformed text, for a given record: a character other
    than the first letter of a placeholder, or some spelling of a
    placeholder of the record together with the fragment stored for it. *)
Definition stands_for (rec : PreservedContent) (it : item) : bool :=
  match it with
  | Plain c => negb (is_H c)
  | Tok k c v =>
      same_folded v (placeholder_of k)
      && existsb (fun e => jsstring_eqb (fst e) (placeholder_of k)
                           && jsstring_eqb (snd e) c)
                 (placeholders rec)
  end.

(** What the decoder relies on in a case-folded text: the first U+0126 is
    followed by U+0110, and no three digits stand directly before one. *)
Definition first_H_then_D (F : jsstring) : Prop :=
  forall u y, F = u ++ 294 :: y -> ~ In 294 u -> exists y', y = 272 :: y'.

Definition no_digit_bridge (F : jsstring) : Prop :=
  forall D y, F = D ++ 294 :: y -> forallb is_digit D = true -> (length D < 3)%nat.

(** *** Token collisions

    [token_at d s]: the pattern [restoreHtmlContent] builds for the token
    of ordinal [d] matches at the start of [s].  [quiet d X]: in the text
    [X] that pattern matches at no position but the start of a token of
    ordinal [d] (the scan takes such a token as a whole and goes on after
    it).  [restored_below d X]: the text when the decoder comes to entry
    [d], the tokens of the entries before it replaced by their fragments.
    [collision_free n X]: for each of the [n] entries of the record, the
    text is quiet when the decoder comes to the entry: the decoder finds a
    token only where one stands. *)
Definition token_at (d : nat) (s : jsstring) : bool :=
  match match_at (RegExp_gi (escapeRegExp (placeholder_of d))) s with
  | Some _ => true
  | None => false
  end.

Fixpoint quiet_in (d : nat) (v rest : jsstring) : bool :=
  match v with
  | [] => true
  | _ :: v' => negb (token_at d (v ++ rest)) && quiet_in d v' rest
  end.

Fixpoint quiet (d : nat) (X : list item) : bool :=
  match X with
  | [] => true
  | Plain c :: r => negb (token_at d (c :: render r)) && quiet d r
  | Tok k _ v :: r => (Nat.eqb k d || quiet_in d v (render r)) && quiet d r
  end.

Definition restored_below (d : nat) (X : list item) : list item :=
  fold_left (fun Y j => restore_tok j Y) (seq 0 d) X.

Definition collision_free (n : nat) (X : list item) : bool :=
  forallb (fun d => quiet d (restored_below d X)) (seq 0 n).

(** An item of a translated text, for a given record: any character, or
    some spelling of a token of the record together with the fragment
    stored for it, which holds no "$" sequence. *)
Definition reads_as (rec : PreservedContent) (it : item) : bool :=
  match it with
  | Plain _ => true
  | Tok k c v =>
      same_folded v (placeholder_of k)
      && existsb (fun e => jsstring_eqb (fst e) (placeholder_of k)
                           && jsstring_eqb (snd e) c)
                 (placeholders rec)
      && no_dollar_pattern c
  end.

(** The encoded text read against the original: a character the two
    share, or a token of the record where the original has its fragment.
    [strip p s] is [s] without its prefix [p]. *)
Fixpoint strip (p s : jsstring) : option jsstring :=
  match p with
  | [] => Some s
  | a :: p' => match s with
               | b :: s' => if a =? b then strip p' s' else None
               | [] => None
               end
  end.

Fixpoint find_token (m : Map) (k : nat) (s t : jsstring)
  : option (item * jsstring * jsstring) :=
  match m with
  | [] => None
  | (key, c) :: m' =>
      match strip key s, strip c t with
      | Some s', Some t' => Some (Tok k c key, s', t')
      | _, _ => find_token m' (S k) s t
      end
  end.

Fixpoint read (m : Map) (fuel : nat) (s t : jsstring) : option (list item) :=
  match fuel with
  | O => None
  | S fuel' =>
      match s, t with
      | [], [] => Some []
      | x :: s', y :: t' =>
          if x =? y then option_map (cons (Plain x)) (read m fuel' s' t')
          else match find_token m 0 s t with
               | Some (it, s2, t2) => option_map (cons it) (read m fuel' s2 t2)
               | None => None
               end
      | _, _ => None
      end
  end.

Definition reading (text : jsstring) : option (list item) :=
  let (processedText, preserved) := preserveHtmlContent text in
  read (placeholders preserved) (S (length processedText)) processedText text.

Definition template_free (it : item) : bool :=
  match it with
  | Plain _ => true
  | Tok _ c _ => no_dollar_pattern c
  end.

(** The texts that come back from [preserveHtmlContent] followed by
    [restoreHtmlContent], but for their full-width colons: no "$" sequence
    in a fragment, no token collision. *)
Definition round_trip_ok (text : jsstring) : bool :=
  match reading text with
  | Some X =>
      forallb template_free X
      && collision_free (counter (snd (preserveHtmlContent text))) X
  | None => false
  end.

(** What the code does with a text: it comes back, or not. *)
Definition comes_back (text : jsstring) : bool :=
  jsstring_eqb (restoreHtmlContent (fst (preserveHtmlContent text))
                                   (snd (preserveHtmlContent text)))
               text.

(** The callback [replace] makes of the replacement text [cd], and the
    tokens an item list holds, for the entries from [s] on: spelled in some
    letter case, with the fragment of their entry, which holds no "$"
    sequence. *)
Definition template (cd m : jsstring) (pos : nat) (whole : jsstring) (_ : unit)
  : jsstring * unit :=
  (GetSubstitution m (firstn pos whole) (skipn (pos + length m) whole) cd, tt).

Definition tokens_from (L : list jsstring) (s : nat) (X : list item) : Prop :=
  forall k c v,
    In (Tok k c v) X ->
    (s <= k)%nat /\ nth_error L (k - s) = Some c
    /\ same_folded v (placeholder_of k) = true /\ no_dollar_pattern c = true.

(** *** Further vocabulary *)

(** A text with nothing to protect: no tag, no entity, no colon. *)
Definition no_fragment (text : jsstring) : Prop :=
  ~ matches_in TAGS text /\ ~ matches_in ENTITIES text /\ ~ In 58 text.

(** [a] is [b] with some code units left out. *)
Inductive subsequence : jsstring -> jsstring -> Prop :=
| subsequence_nil : subsequence [] []
| subsequence_keep c a b : subsequence a b -> subsequence (c :: a) (c :: b)
| subsequence_drop c a b : subsequence a b -> subsequence a (c :: b).

(** The small letter of each of the four letters of a token; a digit has
    none.  [spells p c]: [c] is [p] or its small letter. *)
Definition small_letter (c : char) : char :=
  if c =? 294 then 295
  else if c =? 272 then 273
  else if c =? 321 then 322
  else if c =? 88 then 120
  else c.

Definition spells (p c : char) : bool := (c =? p) || (c =? small_letter p).

(** *** Examples *)

(** The end-to-end example of the specification. *)
Definition example : jsstring := str "<strong>A</strong>: <code>B</code>".

End Spec.

(** ** The matcher against the language of a pattern *)

Module Engine.
Import JS Spec.

#[local] Hint Constructors Matches : core.

Lemma one_spec ok s m rest :
  In (m, rest) (one ok s) <-> exists c, ok c = true /\ m = [c] /\ s = c :: rest.
Proof.
  unfold one. destruct s as [|c s'].
  - split; [intros [] | intros (c & _ & _ & H); discriminate].
  - destruct (ok c) eqn:E; simpl.
    + split.
      * intros [H|[]]. inversion H; subst. eauto.
      * intros (c' & Hc & -> & H). inversion H; subst. now left.
    + split; [intros [] | intros (c' & Hc & -> & H)].
      inversion H; subst. congruence.
Qed.

Lemma star_run_spec p s m rest :
  In (m, rest) (star_run p s) <-> forallb p m = true /\ s = m ++ rest.
Proof.
  revert m rest. induction s as [|c s IH]; intros m rest; simpl.
  - split.
    + intros [H|[]]. inversion H; subst. auto.
    + intros [_ H]. symmetry in H. apply app_eq_nil in H as [-> ->]. now left.
  - destruct (p c) eqn:E.
    + rewrite in_app_iff, in_map_iff. split.
      * intros [((m', r') & Hx & Hin) | [H|[]]].
        -- unfold push in Hx. simpl in Hx. inversion Hx; subst.
           apply IH in Hin as [Hm ->]. simpl. rewrite E, Hm. auto.
        -- inversion H; subst. auto.
      * intros [Hm Hs]. destruct m as [|c' m'].
        -- right. left. simpl in Hs. now subst.
        -- left. simpl in Hs. inversion Hs; subst. simpl in Hm.
           apply andb_true_iff in Hm as [_ Hm].
           exists (m', rest). split; [reflexivity|]. apply IH. auto.
    + split.
      * intros [H|[]]. inversion H; subst. auto.
      * intros [Hm Hs]. destruct m as [|c' m'].
        -- simpl in Hs. subst. now left.
        -- simpl in Hs. inversion Hs; subst. simpl in Hm. rewrite E in Hm. discriminate.
Qed.

(** The matcher enumerates exactly the prefixes in the language. *)
Theorem run_spec r : forall s m rest,
  In (m, rest) (run r s) <-> Matches r m /\ s = m ++ rest.
Proof.
  induction r; intros s m rest; simpl.
  - split.
    + intros [H|[]]. inversion H; subst. auto.
    + intros [H ->]. inversion H; subst. now left.
  - rewrite one_spec. split.
    + intros (c' & Hc & -> & ->). apply N.eqb_eq in Hc. subst. auto.
    + intros [H ->]. inversion H; subst. exists c. rewrite N.eqb_refl. auto.
  - rewrite one_spec. split.
    + intros (c' & Hc & -> & ->). apply N.eqb_eq in Hc. auto.
    + intros [H ->]. inversion H; subst.
      match goal with Hc : Canonicalize _ = Canonicalize ?x |- _ =>
        exists x; unfold ci_eqb; split; [now apply N.eqb_eq | auto] end.
  - rewrite one_spec. split.
    + intros (c' & Hc & -> & ->). auto.
    + intros [H ->]. inversion H; subst. eauto.
  - rewrite in_flat_map. split.
    + intros ((u, s1) & H1 & H2). apply in_map_iff in H2 as ((v, s2) & Hx & H2).
      simpl in *. inversion Hx; subst.
      apply IHr1 in H1 as [M1 ->]. apply IHr2 in H2 as [M2 ->].
      split; [auto|]. now rewrite app_assoc.
    + intros [H ->]. inversion H; subst.
      exists (u, v ++ rest). split.
      * apply IHr1. split; [auto|]. now rewrite app_assoc.
      * apply in_map_iff. exists (v, rest). split; [reflexivity|].
        apply IHr2. auto.
  - rewrite in_app_iff, IHr1, IHr2. split.
    + intros [[M E]|[M E]]; auto.
    + intros [H E]. inversion H; subst; auto.
  - rewrite in_app_iff, IHr. split.
    + intros [[M E]|[H|[]]]; [auto|]. inversion H; subst. auto.
    + intros [H E]. inversion H; subst; auto. right. now left.
  - rewrite star_run_spec. split.
    + intros [H E]. auto.
    + intros [H E]. inversion H; subst. auto.
  - destruct s as [|c s'].
    + split; [intros []|]. intros [H E]. inversion H; subst. discriminate.
    + destruct (p c) eqn:Ec.
      * rewrite in_map_iff. split.
        -- intros ((m', r') & Hx & Hin). unfold push in Hx. simpl in Hx.
           inversion Hx; subst. apply star_run_spec in Hin as [Hm ->]. auto.
        -- intros [H E]. inversion H; subst. simpl in E. inversion E; subst.
           exists (u, rest). split; [reflexivity|]. apply star_run_spec. auto.
      * split; [intros []|]. intros [H E]. inversion H; subst.
        simpl in E. inversion E; subst. congruence.
Qed.

Lemma match_at_Some r s m rest :
  match_at r s = Some (m, rest) -> Matches r m /\ s = m ++ rest.
Proof.
  unfold match_at. intros H. apply run_spec.
  destruct (run r s); simpl in H; [discriminate|]. inversion H. now left.
Qed.

Lemma match_at_None r s :
  match_at r s = None <-> (forall m rest, s = m ++ rest -> ~ Matches r m).
Proof.
  unfold match_at. split.
  - intros H m rest E M.
    assert (Hin : In (m, rest) (run r s)) by (apply run_spec; auto).
    destruct (run r s); [destruct Hin | discriminate].
  - intros H. destruct (run r s) as [|[m rest] l] eqn:E; [reflexivity|].
    exfalso. assert (Hin : In (m, rest) (run r s)) by (rewrite E; now left).
    apply run_spec in Hin as [M Es]. eapply H; eauto.
Qed.

Lemma match_at_unique r s m rest :
  prefix_unique r -> Matches r m -> s = m ++ rest -> match_at r s = Some (m, rest).
Proof.
  intros U M E. destruct (match_at r s) as [[m' rest']|] eqn:H.
  - apply match_at_Some in H as [M' E']. subst s.
    assert (m' = m) by (eapply U; eauto). subst m'.
    apply app_inv_head in E'. now subst.
  - exfalso. eapply match_at_None; eauto.
Qed.

Lemma search_Some r t m rest :
  search r t = Some (m, rest) ->
  exists before, t = before ++ m ++ rest /\ Matches r m.
Proof.
  induction t as [|c t IH]; simpl.
  - destruct (match_at r []) as [x|] eqn:E; [|discriminate].
    intros H. inversion H; subst. apply match_at_Some in E as [M E].
    exists []. auto.
  - destruct (match_at r (c :: t)) as [x|] eqn:E.
    + intros H. inversion H; subst. apply match_at_Some in E as [M E].
      exists []. auto.
    + intros H. apply IH in H as (b & -> & M). exists (c :: b). auto.
Qed.

Lemma search_None r t :
  search r t = None <-> ~ matches_in r t.
Proof.
  induction t as [|c t IH]; simpl.
  - destruct (match_at r []) as [x|] eqn:E.
    + split; [discriminate|]. intros H. exfalso. apply H.
      destruct x as [m rest]. apply match_at_Some in E as [M E].
      exists [], m, rest. auto.
    + split; [|reflexivity]. intros _ (b & m & a & E' & M).
      symmetry in E'. apply app_eq_nil in E' as [-> E'].
      eapply match_at_None; eauto.
  - destruct (match_at r (c :: t)) as [x|] eqn:E.
    + split; [discriminate|]. intros H. exfalso. apply H.
      destruct x as [m rest]. apply match_at_Some in E as [M E].
      exists [], m, rest. auto.
    + rewrite IH. split.
      * intros H (b & m & a & E' & M). destruct b as [|c' b].
        -- simpl in E'. exact (proj1 (match_at_None r (c :: t)) E m a E' M).
        -- simpl in E'. inversion E'; subst. apply H. exists b, m, a. auto.
      * intros H (b & m & a & E' & M). apply H. exists (c :: b), m, a.
        split; [now rewrite E'|auto].
Qed.

(** *** The global replacement as a scan *)

Section Scan.
Variable St : Type.
Variable r : regex.

Lemma replace_from_ext (f f' : jsstring -> nat -> jsstring -> St -> jsstring * St) whole :
    (forall m pos st, f m pos whole st = f' m pos whole st) ->
    forall t skip pos st,
      replace_from r f whole skip pos t st = replace_from r f' whole skip pos t st.
Proof.
    intros Hf. induction t as [|c t IH]; intros skip pos st; simpl.
    - destruct skip; [|reflexivity]. destruct (match_at r []) as [[m ?]|]; auto.
    - destruct skip as [|k]; [|apply IH].
      destruct (match_at r (c :: t)) as [[m ?]|].
      + rewrite Hf. destruct (f' m pos whole st) as [rep st1].
        destruct m; now rewrite IH.
      + now rewrite IH.
Qed.

Variable g : jsstring -> St -> jsstring * St.

Lemma replace_from_any whole whole' : forall t skip pos pos' st,
    replace_from r (fun m _ _ => g m) whole skip pos t st
    = replace_from r (fun m _ _ => g m) whole' skip pos' t st.
Proof.
    induction t as [|c t IH]; intros skip pos pos' st; simpl.
    - reflexivity.
    - destruct skip as [|k]; [|apply IH].
      destruct (match_at r (c :: t)) as [[m ?]|].
      + destruct (g m st) as [rep st1].
        destruct m; now rewrite (IH _ (S pos) (S pos')).
      + now rewrite (IH _ (S pos) (S pos')).
Qed.

Lemma replace_from_indep whole t skip pos st :
    replace_from r (fun m _ _ => g m) whole skip pos t st
    = replace_from r (fun m _ _ => g m) [] skip 0 t st.
Proof. apply replace_from_any. Qed.

Lemma replace_fn_scan s st : replace_fn r (fun m _ _ => g m) s st = scan r g s st.
Proof. unfold replace_fn, scan. apply replace_from_indep. Qed.

Lemma replace_from_skip : forall m' rest st,
    replace_from r (fun m _ _ => g m) [] (length m') 0 (m' ++ rest) st = scan r g rest st.
Proof.
    induction m' as [|c m' IH]; intros rest st; simpl.
    - reflexivity.
    - rewrite replace_from_indep. apply IH.
Qed.

Hypothesis never_empty : ~ Matches r [].

Lemma scan_nil st : scan r g [] st = ([], st).
Proof.
    unfold scan. simpl. destruct (match_at r []) as [[m rest]|] eqn:E; [|reflexivity].
    apply match_at_Some in E as [M E]. symmetry in E.
    apply app_eq_nil in E as [-> _]. contradiction.
Qed.

Lemma scan_miss c t st :
    match_at r (c :: t) = None ->
    scan r g (c :: t) st = (c :: fst (scan r g t st), snd (scan r g t st)).
Proof.
    intros E. unfold scan. simpl. rewrite E. rewrite replace_from_indep.
    now destruct (replace_from r (fun m _ _ => g m) [] 0 0 t st).
Qed.

Lemma scan_hit t m rest st :
    match_at r t = Some (m, rest) ->
    scan r g t st = (fst (g m st) ++ fst (scan r g rest (snd (g m st))),
                 snd (scan r g rest (snd (g m st)))).
Proof.
    intros E. pose proof (match_at_Some _ _ _ _ E) as [M Et].
    destruct m as [|c m']; [contradiction|].
    subst t. change ((c :: m') ++ rest) with (c :: m' ++ rest) in *.
    unfold scan at 1. cbn [replace_from]. rewrite E.
    destruct (g (c :: m') st) as [rep st1]. simpl.
    rewrite replace_from_indep, replace_from_skip.
    now destruct (scan r g rest st1).
Qed.

  (** A stretch of text the pattern matches nowhere in is passed over. *)
Lemma scan_pass_over v : forall x st,
  (forall v1 v2, v = v1 ++ v2 -> v2 <> [] -> match_at r (v2 ++ x) = None) ->
  scan r g (v ++ x) st = (v ++ fst (scan r g x st), snd (scan r g x st)).
Proof.
  induction v as [|c v IH]; intros x st H.
  - simpl. now destruct (scan r g x st).
  - simpl. rewrite scan_miss.
    + rewrite IH; [reflexivity|]. intros v1 v2 E Hn.
      apply (H (c :: v1) v2); [now rewrite E|assumption].
    + apply (H [] (c :: v)); [reflexivity|discriminate].
Qed.

(** Induction along the scan: a unit passed over, or a match replaced. *)
Lemma scan_ind (P : jsstring -> Prop) :
    P [] ->
    (forall c t, match_at r (c :: t) = None -> P t -> P (c :: t)) ->
    (forall m rest, match_at r (m ++ rest) = Some (m, rest) -> m <> [] ->
                    P rest -> P (m ++ rest)) ->
    forall t, P t.
Proof.
    intros Hnil Hmiss Hhit t.
    remember (length t) as n eqn:Hn. revert t Hn.
    induction n as [n IH] using lt_wf_ind. intros t Hn.
    destruct t as [|c t]; [exact Hnil|].
    destruct (match_at r (c :: t)) as [[m rest]|] eqn:E.
    - pose proof (match_at_Some _ _ _ _ E) as [M Et].
      rewrite Et. rewrite Et in E. apply Hhit; auto.
      + intros ->. contradiction.
      + apply (IH (length rest)); [|reflexivity].
        subst n. rewrite Et, length_app.
        destruct m; [contradiction|simpl; lia].
    - apply Hmiss; auto. apply (IH (length t)); [|reflexivity]. subst n. simpl. lia.
Qed.
End Scan.

End Engine.

(** ** The patterns of htmlUtils.ts *)

Module Patterns.
Import JS HtmlUtils Spec Engine.

#[local] Hint Constructors Matches : core.

(** Character classes as arithmetic facts. *)
Ltac classes :=
  unfold ent_char, is_alnum, is_hex, is_alpha, is_digit, is_space, not_gt, in_range in *;
  repeat progress
    (rewrite ?andb_true_iff, ?orb_true_iff, ?negb_true_iff, ?andb_false_iff,
       ?orb_false_iff, ?negb_false_iff, ?N.leb_le, ?N.eqb_eq, ?N.eqb_neq, ?N.leb_gt,
       ?N.ltb_lt, ?N.ltb_ge in *);
  try lia.

Lemma jsstring_eqb_eq a b : jsstring_eqb a b = true <-> a = b.
Proof.
  unfold jsstring_eqb. destruct (list_eq_dec N.eq_dec a b); split; auto; discriminate.
Qed.

Lemma alnum_not_gt c : is_alnum c = true -> not_gt c = true.
Proof. intros H. classes. Qed.

Lemma space_not_gt c : is_space c = true -> not_gt c = true.
Proof. intros H. classes. Qed.

Lemma space_not_alnum c : is_space c = true -> is_alnum c = false.
Proof.
  intros H. destruct (is_alnum c) eqn:E; [|reflexivity]. exfalso. classes.
Qed.

Lemma forallb_impl (p q : char -> bool) l :
  (forall c, p c = true -> q c = true) -> forallb p l = true -> forallb q l = true.
Proof.
  intros Hpq. rewrite !forallb_forall. auto.
Qed.

(** The first occurrence of a terminator splits a string in one way. *)
Lemma terminated_unique (x : char) : forall b1 b2 r1 r2,
  forallb (fun c => negb (c =? x)) b1 = true ->
  forallb (fun c => negb (c =? x)) b2 = true ->
  b1 ++ x :: r1 = b2 ++ x :: r2 -> b1 = b2 /\ r1 = r2.
Proof.
  induction b1 as [|c b1 IH]; intros [|c2 b2] r1 r2 H1 H2 E; simpl in *.
  - inversion E. auto.
  - inversion E; subst. rewrite N.eqb_refl in H2. discriminate.
  - inversion E; subst. rewrite N.eqb_refl in H1. discriminate.
  - inversion E; subst.
    apply andb_true_iff in H1 as [_ H1]. apply andb_true_iff in H2 as [_ H2].
    destruct (IH _ _ _ H1 H2 H3) as [-> ->]. auto.
Qed.

(** A maximal run of a class is determined by the string. *)
Lemma run_unique (p : char -> bool) : forall u1 u2 r1 r2,
  forallb p u1 = true -> forallb p u2 = true ->
  (forall c r, r1 = c :: r -> p c = false) ->
  (forall c r, r2 = c :: r -> p c = false) ->
  u1 ++ r1 = u2 ++ r2 -> u1 = u2 /\ r1 = r2.
Proof.
  induction u1 as [|c u1 IH]; intros [|c2 u2] r1 r2 H1 H2 N1 N2 E; simpl in *.
  - auto.
  - subst r1. apply andb_true_iff in H2 as [H2 _].
    rewrite (N1 _ _ eq_refl) in H2. discriminate.
  - subst r2. apply andb_true_iff in H1 as [H1 _].
    rewrite (N2 _ _ eq_refl) in H1. discriminate.
  - inversion E; subst.
    apply andb_true_iff in H1 as [_ H1]. apply andb_true_iff in H2 as [_ H2].
    destruct (IH _ _ _ H1 H2 N1 N2 H3) as [-> ->]. auto.
Qed.

(** *** Tags *)

Lemma TAGS_shape m : Matches TAGS m <-> tag_shape m.
Proof.
  unfold TAGS. split.
  - intros H.
    repeat match goal with
    | H : Matches (Cat _ _) _ |- _ => inversion H; subst; clear H
    | H : Matches (Chr _) _ |- _ => inversion H; subst; clear H
    | H : Matches (Cls _) _ |- _ => inversion H; subst; clear H
    | H : Matches (StarC _) _ |- _ => inversion H; subst; clear H
    | H : Matches (PlusC _) _ |- _ => inversion H; subst; clear H
    end.
    match goal with H : Matches (Opt (Chr 47)) ?u |- _ =>
      assert (Hs : u = [] \/ u = [47])
        by (inversion H; subst; [match goal with H' : Matches (Chr _) _ |- _ =>
              inversion H'; subst; auto end | auto]); clear H end.
    match goal with H : Matches (Opt _) ?u |- _ =>
      assert (Ha : attrs_ok u = true); [|clear H] end.
    { match goal with H : Matches (Opt _) _ |- _ =>
        inversion H; subst; [|reflexivity] end.
      repeat match goal with
      | H : Matches (Cat _ _) _ |- _ => inversion H; subst; clear H
      | H : Matches (StarC _) _ |- _ => inversion H; subst; clear H
      | H : Matches (PlusC _) _ |- _ => inversion H; subst; clear H
      end.
      simpl. apply andb_true_iff. split; [assumption|].
      rewrite forallb_app. apply andb_true_iff. split; [|assumption].
      eapply forallb_impl; [apply space_not_gt|assumption]. }
    match goal with |- tag_shape ([60] ++ ?u ++ [?c] ++ ?n ++ ?a ++ [62]) =>
      apply (tag_shape_intro u c n a); auto end.
  - intros [slash a name attrs Hs Ha Hn Hat].
    change (60 :: slash ++ a :: name ++ attrs ++ [62])
      with ([60] ++ slash ++ [a] ++ name ++ attrs ++ [62]).
    repeat apply M_Cat; auto.
    + destruct Hs as [-> | ->]; auto.
    + destruct attrs as [|w rest]; [auto|].
      simpl in Hat. apply andb_true_iff in Hat as [Hw Hr].
      apply M_OptSome. change (w :: rest) with ([w] ++ rest). auto.
Qed.

Lemma tag_body m :
  tag_shape m ->
  exists body, m = 60 :: body ++ [62] /\ forallb not_gt body = true /\ body <> [].
Proof.
  intros [slash a name attrs Hs Ha Hn Hat].
  exists (slash ++ a :: name ++ attrs). split; [|split].
  - now rewrite <- !app_assoc; simpl; rewrite <- !app_assoc.
  - rewrite forallb_app. simpl. rewrite forallb_app.
    assert (forallb not_gt slash = true) by (destruct Hs as [-> | ->]; reflexivity).
    assert (not_gt a = true) by classes.
    assert (forallb not_gt name = true)
      by (eapply forallb_impl; [apply alnum_not_gt|assumption]).
    assert (forallb not_gt attrs = true).
    { destruct attrs as [|w rest]; [reflexivity|]. simpl in *.
      apply andb_true_iff in Hat as [Hw Hr]. rewrite (space_not_gt _ Hw). exact Hr. }
    repeat (apply andb_true_iff; split); assumption.
  - destruct slash; discriminate.
Qed.

Lemma TAGS_never_empty : ~ Matches TAGS [].
Proof. intros H. apply TAGS_shape in H. inversion H. Qed.

Lemma TAGS_prefix_unique : prefix_unique TAGS.
Proof.
  intros m1 m2 r1 r2 M1 M2 E.
  apply TAGS_shape, tag_body in M1 as (b1 & -> & N1 & _).
  apply TAGS_shape, tag_body in M2 as (b2 & -> & N2 & _).
  simpl in E. inversion E as [E']. rewrite <- !app_assoc in E'. simpl in E'.
  destruct (terminated_unique 62 b1 b2 r1 r2 N1 N2 E') as [-> _]. reflexivity.
Qed.

(** *** Entities *)

Lemma ENTITIES_body m :
  Matches ENTITIES m ->
  exists body, m = 38 :: body ++ [59] /\ forallb ent_char body = true /\ body <> [].
Proof.
  unfold ENTITIES. intros H.
  repeat match goal with
  | H : Matches (Cat _ _) _ |- _ => inversion H; subst; clear H
  | H : Matches (Alt _ _) _ |- _ => inversion H; subst; clear H
  | H : Matches (Chr _) _ |- _ => inversion H; subst; clear H
  | H : Matches (Cls _) _ |- _ => inversion H; subst; clear H
  | H : Matches (StarC _) _ |- _ => inversion H; subst; clear H
  | H : Matches (PlusC _) _ |- _ => inversion H; subst; clear H
  end;
  match goal with |- exists body, [38] ++ ?b ++ [59] = _ /\ _ => exists b end;
  (split; [reflexivity|split; [|simpl; discriminate]]); simpl;
  repeat (apply andb_true_iff; split);
  try (classes; fail);
  (eapply forallb_impl; [|eassumption]; intros ? ?; classes).
Qed.

Lemma ENTITIES_never_empty : ~ Matches ENTITIES [].
Proof. intros H. apply ENTITIES_body in H as (b & E & _). discriminate. Qed.

Lemma ENTITIES_prefix_unique : prefix_unique ENTITIES.
Proof.
  intros m1 m2 r1 r2 M1 M2 E.
  apply ENTITIES_body in M1 as (b1 & -> & N1 & _).
  apply ENTITIES_body in M2 as (b2 & -> & N2 & _).
  simpl in E. inversion E as [E']. rewrite <- !app_assoc in E'. simpl in E'.
  assert (T : forall c, ent_char c = true -> negb (c =? 59) = true)
    by (intros c Hc; classes).
  destruct (terminated_unique 59 b1 b2 r1 r2
              (forallb_impl _ _ _ T N1) (forallb_impl _ _ _ T N2) E') as [-> _].
  reflexivity.
Qed.

(** *** Single characters *)

Lemma Chr_never_empty c : ~ Matches (Chr c) [].
Proof. intros H. inversion H. Qed.

Lemma Chr_prefix_unique c : prefix_unique (Chr c).
Proof. intros m1 m2 r1 r2 M1 M2 _. inversion M1; inversion M2; subst. reflexivity. Qed.

Lemma match_at_Chr c s :
  match_at (Chr c) s =
  match s with
  | x :: s' => if c =? x then Some ([x], s') else None
  | [] => None
  end.
Proof. destruct s as [|x s']; [reflexivity|]. unfold match_at. simpl. now destruct (c =? x). Qed.

(** *** Literal text under the i flag *)

Lemma lit_i_shape p : forall m,
  Matches (lit_i p) m <-> List.map Canonicalize p = List.map Canonicalize m.
Proof.
  induction p as [|c p IH]; intros m; simpl.
  - split.
    + intros H. now inversion H.
    + intros H. destruct m; [constructor|discriminate].
  - split.
    + intros H. inversion H; subst.
      match goal with H1 : Matches (ChrI _) _ |- _ => inversion H1; subst end.
      simpl. f_equal; [assumption|]. now apply IH.
    + intros H. destruct m as [|x m]; [discriminate|]. simpl in H. inversion H.
      change (x :: m) with ([x] ++ m). constructor; [now constructor|]. now apply IH.
Qed.

Lemma lit_i_length p m : Matches (lit_i p) m -> length m = length p.
Proof.
  intros H. apply lit_i_shape in H. apply (f_equal (@length _)) in H.
  now rewrite !length_map in H.
Qed.

Lemma lit_i_prefix_unique p : prefix_unique (lit_i p).
Proof.
  intros m1 m2 r1 r2 M1 M2 E.
  apply lit_i_length in M1, M2.
  apply (f_equal (firstn (length p))) in E.
  rewrite <- M1 in E at 1. rewrite <- M2 in E.
  now rewrite !firstn_app, !Nat.sub_diag, !firstn_all, !firstn_O, !app_nil_r in E.
Qed.

(** Escaping makes the pattern of [restoreHtmlContent] the placeholder
    itself, read under the i flag. *)
Lemma RegExp_gi_escape p : RegExp_gi (escapeRegExp p) = lit_i p.
Proof.
  induction p as [|c p IH]; [reflexivity|].
  unfold escapeRegExp in *. simpl. destruct (is_special c) eqn:E; simpl.
  - now rewrite IH.
  - destruct (c =? 92) eqn:E92.
    + apply N.eqb_eq in E92. subst c. discriminate.
    + now rewrite IH.
Qed.

(** *** Case folding *)

(** From U+0180 on the upper case stays there, and below there is none
    but those of [toUpperCase1]. *)
Lemma upper_from_spec ranges :
  forallb (fun r => match r with
                    | (first, _, _, image) => (384 <=? first) && (384 <=? image)
                    end) ranges = true ->
  forall c, (c < 384 -> upper_from ranges c = c) /\ (384 <= c -> 384 <= upper_from ranges c).
Proof.
  induction ranges as [|[[[first last] step] image] ranges IH]; intros H c.
  - simpl. split; auto.
  - cbn [forallb] in H. apply andb_true_iff in H as [H0 H].
    apply andb_true_iff in H0 as [Hf Hi]. apply N.leb_le in Hf, Hi.
    destruct (IH H c) as [IH1 IH2]. cbn [upper_from].
    destruct ((first <=? c) && (c <=? last) && ((c - first) mod step =? 0)) eqn:E.
    + apply andb_true_iff in E as [E _]. apply andb_true_iff in E as [E _].
      apply N.leb_le in E. split; lia.
    + split; assumption.
Qed.

Lemma upper_high_spec c :
  (c < 384 -> upper_high c = c) /\ (384 <= c -> 384 <= upper_high c).
Proof. apply upper_from_spec. vm_compute. reflexivity. Qed.

Ltac canon :=
  unfold Canonicalize, toUpperCase1, in_range;
  repeat match goal with
  | |- context [upper_high ?c] =>
      let Hl := fresh "Hlow" in
      let Hh := fresh "Hhigh" in
      let u := fresh "u" in
      destruct (upper_high_spec c) as [Hl Hh];
      set (u := upper_high c) in *; clearbody u
  end;
  repeat match goal with
  | |- context [if ?b then _ else _] => destruct b eqn:?
  | |- context [match (if ?b then _ else _) with _ => _ end] => destruct b eqn:?
  end;
  classes.

Lemma Canonicalize_ascii c :
  c < 128 -> Canonicalize c = if in_range 97 122 c then c - 32 else c.
Proof. intros H. canon. Qed.

Lemma Canonicalize_below c : Canonicalize c < 128 -> c < 128.
Proof.
  canon;
  repeat match goal with
  | |- context [N.odd ?c] => destruct (N.odd c)
  | |- context [N.even ?c] => destruct (N.even c)
  end; lia.
Qed.

Lemma Canonicalize_digit c : is_digit c = true -> Canonicalize c = c.
Proof. intros H. rewrite Canonicalize_ascii by classes. unfold in_range.
  destruct ((97 <=? c) && (c <=? 122)) eqn:E; [classes|reflexivity]. Qed.

Lemma Canonicalize_to_digit x d :
  is_digit d = true -> Canonicalize x = d -> x = d.
Proof.
  intros Hd E. assert (Hx : x < 128) by (apply Canonicalize_below; rewrite E; classes).
  rewrite Canonicalize_ascii in E by assumption. unfold in_range in E.
  destruct ((97 <=? x) && (x <=? 122)) eqn:E'; classes.
Qed.

Lemma Canonicalize_H c : Canonicalize c = 294 <-> is_H c = true.
Proof.
  unfold is_H. split.
  - intros H. revert H. canon;
    repeat match goal with
    | |- context [N.odd ?c] => destruct (N.odd c) eqn:?
    | |- context [N.even ?c] => destruct (N.even c) eqn:?
    end; intros; try lia.
    all: try (assert (c = 294 \/ c = 295) by lia; lia).
  - intros H. classes. destruct H as [-> | ->]; reflexivity.
Qed.

(** *** Placeholders *)

Lemma placeholder_of_eq n :
  placeholder_of n = [294; 272; 321; 88; 294] ++ ordinal n ++ [294; 272; 321; 88; 294].
Proof. reflexivity. Qed.

Lemma uint_units_zeros k d : uint_units (zeros k d) = repeat 48 k ++ uint_units d.
Proof. induction k as [|k IH]; simpl; [reflexivity|now rewrite IH]. Qed.

Lemma uint_units_inj : forall d d', uint_units d = uint_units d' -> d = d'.
Proof.
  induction d; destruct d'; simpl; intros H; try discriminate; try reflexivity;
    inversion H; f_equal; auto.
Qed.

Lemma uint_units_digits d : forallb is_digit (uint_units d) = true.
Proof. induction d; simpl; auto. Qed.

Lemma of_uint_acc_zeros k d : Nat.of_uint (zeros k d) = Nat.of_uint d.
Proof. induction k as [|k IH]; simpl; [reflexivity|exact IH]. Qed.

Lemma ordinal_zeros n :
  ordinal n = uint_units (zeros (3 - length (toString n)) (Nat.to_uint n)).
Proof. unfold ordinal, padStart, toString. now rewrite uint_units_zeros. Qed.

Lemma ordinal_inj n n' : ordinal n = ordinal n' -> n = n'.
Proof.
  rewrite !ordinal_zeros. intros H. apply uint_units_inj in H.
  apply (f_equal Nat.of_uint) in H.
  now rewrite !of_uint_acc_zeros, !DecimalNat.Unsigned.of_to in H.
Qed.

Lemma ordinal_digits n : forallb is_digit (ordinal n) = true.
Proof. rewrite ordinal_zeros. apply uint_units_digits. Qed.

Lemma ordinal_length n : (3 <= length (ordinal n))%nat.
Proof.
  unfold ordinal, padStart. rewrite length_app, repeat_length. lia.
Qed.

Lemma placeholder_of_inj n n' : placeholder_of n = placeholder_of n' -> n = n'.
Proof.
  rewrite !placeholder_of_eq. intros H. apply app_inv_head in H.
  apply ordinal_inj.
  assert (T : forall c, is_digit c = true -> negb (c =? 294) = true)
    by (intros c Hc; classes).
  simpl in H.
  destruct (terminated_unique 294 (ordinal n) (ordinal n') _ _
              (forallb_impl _ _ _ T (ordinal_digits n))
              (forallb_impl _ _ _ T (ordinal_digits n')) H) as [E _].
  exact E.
Qed.

Lemma placeholder_canonical n :
  List.map Canonicalize (placeholder_of n) = placeholder_of n.
Proof.
  rewrite placeholder_of_eq, !map_app. f_equal. f_equal.
  pose proof (ordinal_digits n) as H.
  induction (ordinal n) as [|c l IH]; [reflexivity|].
  simpl in *. apply andb_true_iff in H as [Hc Hl].
  now rewrite Canonicalize_digit, IH.
Qed.

End Patterns.

(** ** The operations on texts they leave alone *)

Module Passthrough.
Import JS HtmlUtils Spec Engine Patterns.

Lemma matches_in_cons r c t : matches_in r t -> matches_in r (c :: t).
Proof.
  intros (b & m & a & -> & M). exists (c :: b), m, a. auto.
Qed.

Lemma matches_in_head r m rest : Matches r m -> matches_in r (m ++ rest).
Proof. intros M. exists [], m, rest. auto. Qed.

Lemma no_match_at r t : ~ matches_in r t -> match_at r t = None.
Proof.
  intros H. destruct (match_at r t) as [[m rest]|] eqn:E; [|reflexivity].
  exfalso. apply H. apply match_at_Some in E as [M ->]. now apply matches_in_head.
Qed.

(** A scan over a text the pattern matches nowhere copies the text and
    never calls back. *)
Lemma scan_no_match St r (g : jsstring -> St -> jsstring * St) :
  ~ Matches r [] ->
  forall t st, ~ matches_in r t -> scan r g t st = (t, st).
Proof.
  intros Hne. induction t as [|c t IH]; intros st H.
  - now apply scan_nil.
  - rewrite scan_miss by now apply no_match_at.
    rewrite IH; [reflexivity|]. intros H'. apply H. now apply matches_in_cons.
Qed.

Lemma matches_in_Chr c t : matches_in (Chr c) t <-> In c t.
Proof.
  split.
  - intros (b & m & a & -> & M). inversion M; subst.
    apply in_or_app. right. now left.
  - intros H. apply in_split in H as (b & a & ->). exists b, [c], a.
    split; [reflexivity|constructor].
Qed.

Lemma replace_str_const r tmpl s :
  (forall m b a, GetSubstitution m b a tmpl = tmpl) ->
  replace_str r tmpl s = fst (scan r (fun _ (u : unit) => (tmpl, u)) s tt).
Proof.
  intros H. unfold replace_str, replace_fn, scan. f_equal.
  rewrite replace_from_ext with (f' := fun _ _ _ (u : unit) => (tmpl, u)).
  - apply replace_from_any.
  - intros m pos []. now rewrite H.
Qed.

Lemma repair_all s : replace_str FULLWIDTH_COLON [58] s = List.map repair_colon s.
Proof.
  rewrite replace_str_const by reflexivity.
  induction s as [|c s IH].
  - rewrite scan_nil; [reflexivity|apply Chr_never_empty].
  - destruct (match_at FULLWIDTH_COLON (c :: s)) as [[m rest]|] eqn:E.
    + rewrite (scan_hit _ _ _ (Chr_never_empty 65306) _ _ _ _ E). simpl.
      unfold FULLWIDTH_COLON in E. rewrite match_at_Chr in E.
      unfold repair_colon at 1. rewrite N.eqb_sym.
      destruct (65306 =? c); [|discriminate]. inversion E; subst.
      now rewrite <- IH.
    + rewrite scan_miss by assumption. simpl.
      unfold FULLWIDTH_COLON in E. rewrite match_at_Chr in E.
      unfold repair_colon at 1. rewrite N.eqb_sym.
      destruct (65306 =? c); [discriminate|]. now rewrite <- IH.
Qed.

Lemma repair_none s : ~ In 65306 s -> List.map repair_colon s = s.
Proof.
  induction s as [|c s IH]; intros H; [reflexivity|].
  simpl. rewrite IH by (intros H'; apply H; now right).
  unfold repair_colon. destruct (c =? 65306) eqn:E; [|reflexivity].
  apply N.eqb_eq in E. subst. exfalso. apply H. now left.
Qed.

Lemma preserve_no_fragment text :
  ~ matches_in TAGS text -> ~ matches_in ENTITIES text -> ~ In 58 text ->
  preserveHtmlContent text = (text, {| placeholders := []; counter := 0 |}).
Proof.
  intros HT HE HC. unfold preserveHtmlContent, mint.
  rewrite !replace_fn_scan.
  rewrite (scan_no_match _ _ _ TAGS_never_empty) by assumption.
  rewrite replace_fn_scan.
  rewrite (scan_no_match _ _ _ ENTITIES_never_empty) by assumption.
  rewrite replace_fn_scan.
  rewrite (scan_no_match _ _ _ (Chr_never_empty 58)); [reflexivity|].
  now rewrite matches_in_Chr.
Qed.

End Passthrough.

(** ** The detector *)

Module Detector.
Import JS HtmlUtils Spec Engine Patterns Passthrough.

Lemma matches_in_skipn r i t : matches_in r (skipn i t) -> matches_in r t.
Proof.
  intros (b & m & a & E & M). exists (firstn i t ++ b), m, a.
  split; [|assumption]. rewrite <- app_assoc, <- E. symmetry. apply firstn_skipn.
Qed.

Lemma test_g_from_start r t :
  fst (test_g r t 0) = true <-> matches_in r t.
Proof.
  unfold test_g. simpl. destruct (search r t) as [[m rest]|] eqn:E; simpl.
  - split; [intros _|reflexivity]. apply search_Some in E as (b & -> & M).
    exists b, m, rest. auto.
  - split; [discriminate|]. intros H. now apply search_None in E.
Qed.

Lemma test_g_no_match r t i : ~ matches_in r t -> test_g r t i = (false, 0%nat).
Proof.
  intros H. unfold test_g. destruct (length t <? i)%nat; [reflexivity|].
  destruct (search r (skipn i t)) as [[m rest]|] eqn:E; [|reflexivity].
  exfalso. apply H. apply (matches_in_skipn _ i).
  apply search_Some in E as (b & -> & M). exists b, m, rest. auto.
Qed.

(** With both [lastIndex] at 0 the detector answers the question it is
    meant to answer. *)
Lemma containsHtmlContent_initial text :
  fst (containsHtmlContent text initial) = true
  <-> matches_in TAGS text \/ matches_in ENTITIES text.
Proof.
  unfold containsHtmlContent, initial; cbn [TAGS_lastIndex ENTITIES_lastIndex].
  pose proof (test_g_from_start TAGS text) as HT.
  pose proof (test_g_from_start ENTITIES text) as HE.
  destruct (test_g TAGS text 0) as [b1 i1], (test_g ENTITIES text 0) as [b2 i2].
  simpl in *. destruct b1; simpl.
  - split; [intros _; left; now apply HT|reflexivity].
  - rewrite HE. split; [auto|]. intros [H|H]; [|assumption].
    apply HT in H. discriminate.
Qed.

(** Whatever the two [lastIndex] hold, a text neither pattern matches is
    reported as such, and both are left at 0. *)
Lemma containsHtmlContent_no_match text ps :
  ~ matches_in TAGS text -> ~ matches_in ENTITIES text ->
  containsHtmlContent text ps = (false, initial).
Proof.
  intros HT HE. unfold containsHtmlContent.
  now rewrite (test_g_no_match _ _ _ HT), (test_g_no_match _ _ _ HE).
Qed.

End Detector.

(** ** Self-closing tags without white space *)

Module SelfClosingTags.
Import JS HtmlUtils Spec Engine Patterns Passthrough Detector.

Lemma matches_in_uncons r c t :
  matches_in r (c :: t) ->
  (exists m rest, c :: t = m ++ rest /\ Matches r m) \/ matches_in r t.
Proof.
  intros (b & m & a & E & M). destruct b as [|c' b].
  - left. exists m, a. auto.
  - right. simpl in E. inversion E; subst. exists b, m, a. auto.
Qed.

Lemma tag_starts_lt m rest c t : tag_shape m -> c :: t = m ++ rest -> c = 60.
Proof. intros [slash a name attrs _ _ _ _] E. simpl in E. now inversion E. Qed.

Lemma matches_in_TAGS_skip u t :
  ~ In 60 u -> matches_in TAGS (u ++ t) -> matches_in TAGS t.
Proof.
  induction u as [|c u IH]; intros Hn H; [exact H|].
  simpl in H. apply matches_in_uncons in H as [(m & rest & E & M)|H].
  - exfalso. apply Hn. left.
    apply TAGS_shape in M. eapply tag_starts_lt; eauto.
  - apply IH; [|exact H]. intros Hin. apply Hn. now right.
Qed.

Lemma alnum_not_lt u : forallb is_alnum u = true -> ~ In 60 u.
Proof.
  rewrite forallb_forall. intros H Hin. apply H in Hin. classes.
Qed.

(** "<name/>" is not the start of a tag match. *)
Lemma selfclosing_no_tag a name t m rest :
  is_alpha a = true -> forallb is_alnum name = true ->
  tag_shape m -> 60 :: a :: name ++ 47 :: 62 :: t = m ++ rest -> False.
Proof.
  intros Ha Hn [slash a' name' attrs Hs Ha' Hn' Hat] E.
  simpl in E. inversion E as [E']. clear E.
  destruct Hs as [-> | ->]; simpl in E'.
  - inversion E' as [[Ea E'']]. subst a'. rewrite <- !app_assoc in E''.
    destruct (run_unique is_alnum name name' (47 :: 62 :: t) (attrs ++ [62] ++ rest))
      as [_ E3]; auto.
    + intros c r Hc. inversion Hc; subst. reflexivity.
    + intros c r Hc. destruct attrs as [|w attrs'].
      * simpl in Hc. inversion Hc; subst. reflexivity.
      * simpl in Hc, Hat. inversion Hc; subst.
        apply andb_true_iff in Hat as [Hw _]. now apply space_not_alnum.
    + destruct attrs as [|w attrs']; simpl in E3, Hat.
      * inversion E3.
      * inversion E3; subst. apply andb_true_iff in Hat as [Hw _]. classes.
  - inversion E'; subst. classes.
Qed.

Lemma sanitize_scan text : sanitizeHtmlContent text = fst (scan TAGS keep_safe text tt).
Proof.
  exact (f_equal fst (replace_fn_scan unit TAGS keep_safe text tt)).
Qed.

Lemma preserve_scan text :
  preserveHtmlContent text =
  let preserved := {| placeholders := []; counter := 0 |} in
  let (t1, p1) := scan TAGS createPlaceholder text preserved in
  let (t2, p2) := scan ENTITIES createPlaceholder t1 p1 in
  scan COLON createPlaceholder t2 p2.
Proof.
  unfold preserveHtmlContent.
  change mint with (fun m (_ : nat) (_ : jsstring) => createPlaceholder m).
  now rewrite !replace_fn_scan.
Qed.

(** *** Texts whose tags are self-closing *)

Lemma take_drop_while (p : char -> bool) s :
  s = take_while p s ++ drop_while p s /\ forallb p (take_while p s) = true.
Proof.
  induction s as [|c s [IH1 IH2]]; [split; reflexivity|].
  simpl. destruct (p c) eqn:E; simpl.
  - rewrite E, IH2. split; [now rewrite <- IH1|reflexivity].
  - split; reflexivity.
Qed.

Lemma only_selfclosing_suffix u : forall s,
  only_selfclosing (u ++ s) = true -> only_selfclosing s = true.
Proof.
  induction u as [|c u IH]; intros s H; [exact H|].
  simpl in H. apply andb_true_iff in H as [_ H]. now apply IH.
Qed.

Lemma opens_selfclosing_shape t :
  opens_selfclosing t = true ->
  exists a run z,
    t = a :: run ++ 47 :: 62 :: z /\ is_alpha a = true /\ forallb is_alnum run = true.
Proof.
  destruct t as [|a t']; [discriminate|]. unfold opens_selfclosing.
  intros H. apply andb_true_iff in H as [Ha H].
  destruct (take_drop_while is_alnum t') as [E R].
  destruct (drop_while is_alnum t') as [|x [|y z]]; try discriminate.
  apply andb_true_iff in H as [Ex Ey]. apply N.eqb_eq in Ex, Ey. subst x y.
  exists a, (take_while is_alnum t'), z. rewrite <- E. auto.
Qed.

Lemma selfclosing_opens a name rest :
  is_alpha a = true -> forallb is_alnum name = true ->
  opens_selfclosing (a :: name ++ 47 :: 62 :: rest) = true.
Proof.
  intros Ha Hn. unfold opens_selfclosing. rewrite Ha.
  assert (D : drop_while is_alnum (name ++ 47 :: 62 :: rest) = 47 :: 62 :: rest).
  { induction name as [|c name IH]; [reflexivity|].
    simpl in Hn. apply andb_true_iff in Hn as [Hc Hn]. simpl. rewrite Hc. now apply IH. }
  rewrite D. reflexivity.
Qed.

Lemma only_selfclosing_no_tag text :
  only_selfclosing text = true -> ~ matches_in TAGS text.
Proof.
  intros H (b & m & a & E & M). subst text.
  apply only_selfclosing_suffix in H.
  pose proof M as Mt. apply TAGS_shape in Mt.
  destruct Mt as [slash a0 nm attrs Hs Ha Hn Hat].
  change ((60 :: slash ++ a0 :: nm ++ attrs ++ [62]) ++ a)
    with (60 :: (slash ++ a0 :: nm ++ attrs ++ [62]) ++ a) in H.
  remember ((slash ++ a0 :: nm ++ attrs ++ [62]) ++ a) as t eqn:Et.
  cbn [only_selfclosing] in H. apply andb_true_iff in H as [H _].
  change (60 =? 60) with true in H. cbn [negb orb] in H.
  apply orb_true_iff in H as [H|H].
  - apply opens_selfclosing_shape in H as (x & run & z & E & Hx & Hr).
    apply (selfclosing_no_tag x run z (60 :: slash ++ a0 :: nm ++ attrs ++ [62]) a Hx Hr).
    + now constructor.
    + cbn [app]. f_equal. now rewrite <- E, Et.
  - apply negb_true_iff in H. subst t.
    destruct Hs as [-> | ->].
    + change (([] ++ a0 :: nm ++ attrs ++ [62]) ++ a)
        with (a0 :: (nm ++ attrs ++ [62]) ++ a) in H.
      cbn [may_open_tag] in H. now rewrite Ha in H.
    + change (([47] ++ a0 :: nm ++ attrs ++ [62]) ++ a)
        with (47 :: a0 :: (nm ++ attrs ++ [62]) ++ a) in H.
      cbn [may_open_tag] in H. change (47 =? 47) with true in H. rewrite Ha in H.
      now rewrite orb_true_r in H.
Qed.

Lemma selfclosing_only a name :
  is_alpha a = true -> forallb is_alnum name = true ->
  only_selfclosing (60 :: a :: name ++ [47; 62]) = true.
Proof.
  intros Ha Hn.
  assert (G : forall s, ~ In 60 s -> only_selfclosing s = true).
  { induction s as [|c s IH]; intros Hs; [reflexivity|]. cbn [only_selfclosing].
    destruct (c =? 60) eqn:E.
    - apply N.eqb_eq in E. subst c. exfalso. apply Hs. now left.
    - cbn [negb orb andb]. apply IH. intros Hin. apply Hs. now right. }
  pose proof (selfclosing_opens a name [] Ha Hn) as Ho.
  assert (Hs : only_selfclosing (a :: name ++ [47; 62]) = true).
  { apply G. change (a :: name ++ [47; 62]) with ((a :: name) ++ [47; 62]).
    intros Hin. apply in_app_or in Hin as [Hin|Hin].
    - revert Hin. apply alnum_not_lt. simpl. rewrite Hn. unfold is_alnum. now rewrite Ha.
    - simpl in Hin. intuition discriminate. }
  remember (a :: name ++ [47; 62]) as t. cbn [only_selfclosing].
  rewrite Ho, Hs. reflexivity.
Qed.

End SelfClosingTags.

(** ** The encoder *)

Module Encoder.
Import JS HtmlUtils Spec Engine Patterns Passthrough Detector SelfClosingTags.

Lemma placeholder_chars n : forallb is_token_char (placeholder_of n) = true.
Proof.
  rewrite placeholder_of_eq. rewrite !forallb_app.
  assert (H : forallb is_token_char (ordinal n) = true).
  { eapply forallb_impl; [|apply ordinal_digits]. intros c Hc.
    unfold is_token_char. apply orb_true_iff. now right. }
  rewrite H. reflexivity.
Qed.

Lemma placeholder_head n : exists tl, placeholder_of n = 294 :: tl.
Proof. rewrite placeholder_of_eq. simpl. eauto. Qed.

Lemma placeholder_not_nil n : placeholder_of n <> [].
Proof. destruct (placeholder_head n) as [tl ->]. discriminate. Qed.

(** *** What a pass leaves of its pattern *)

Lemma scan_Replaced r (Hne : ~ Matches r []) : forall t st,
  Replaced (Matches r) (fun s => match_at r s = None) t
           (fst (scan r createPlaceholder t st)).
Proof.
  intros t. induction t as [| c t Hc IH | m rest Hm Hn IH] using (scan_ind r Hne);
    intros st.
  - rewrite scan_nil by assumption. constructor.
  - rewrite scan_miss by assumption. simpl. constructor; auto.
  - rewrite (scan_hit _ _ _ Hne _ _ _ _ Hm). simpl.
    constructor; [|apply IH]. now apply match_at_Some in Hm.
Qed.

Lemma Replaced_head F K t c o :
  Replaced F K t (c :: o) -> c <> 294 ->
  exists t', t = c :: t' /\ Replaced F K t' o.
Proof.
  intros H Hc. remember (c :: o) as co eqn:Eco.
  destruct H as [| c' t' o' HK H' | m n t' o' HF H'].
  - discriminate.
  - inversion Eco; subst. eauto.
  - destruct (placeholder_head n) as [tl E]. rewrite E in Eco.
    simpl in Eco. inversion Eco. congruence.
Qed.

Lemma Replaced_prefix F K u : forall t o,
  Replaced F K t (u ++ o) -> ~ In 294 u ->
  exists t', t = u ++ t' /\ Replaced F K t' o.
Proof.
  induction u as [|c u IH]; intros t o H Hu.
  - exists t. auto.
  - simpl in H. apply Replaced_head in H as (t1 & -> & H).
    + assert (Hu' : ~ In 294 u) by (intros Hin; apply Hu; now right).
      destruct (IH _ _ H Hu') as (t' & -> & H'). exists t'. auto.
    + intros ->. apply Hu. now left.
Qed.

Lemma Replaced_mem F K x t o :
  Replaced F K t o -> is_token_char x = false -> In x o -> In x t.
Proof.
  intros H Hx. induction H; intros Hin.
  - exact Hin.
  - destruct Hin as [->|Hin]; [now left|right; auto].
  - apply in_or_app. apply in_app_or in Hin as [Hin|Hin]; [|right; auto].
    exfalso. pose proof (placeholder_chars n) as Hc.
    rewrite forallb_forall in Hc. apply Hc in Hin. congruence.
Qed.

Lemma matches_in_skip r u t :
  starts_plain r -> forallb is_token_char u = true ->
  matches_in r (u ++ t) -> matches_in r t.
Proof.
  intros Hr. induction u as [|c u IH]; intros Hu H; [exact H|].
  simpl in Hu. apply andb_true_iff in Hu as [Hc Hu].
  simpl in H. apply matches_in_uncons in H as [(m & rest & E & M)|H]; [|auto].
  exfalso. apply Hr in M as (c' & m' & -> & Hc'). simpl in E. inversion E; subst.
  congruence.
Qed.

Lemma matches_in_app_r r u t : matches_in r t -> matches_in r (u ++ t).
Proof.
  intros (b & m & a & -> & M). exists (u ++ b), m, a. now rewrite app_assoc.
Qed.

Lemma starts_plain_not_nil r : starts_plain r -> ~ Matches r [].
Proof. intros H M. apply H in M as (c & m' & E & _). discriminate. Qed.

Lemma Replaced_reflects r F K t o :
  starts_plain r -> head_reflects r ->
  Replaced F K t o -> matches_in r o -> matches_in r t.
Proof.
  intros Hs Hh H. induction H; intros Hin.
  - exact Hin.
  - apply matches_in_uncons in Hin as [(m & rest & E & M)|Hin].
    + destruct (Hh F K (c :: t) (c :: o) m rest) as (m' & rest' & E' & M'); auto.
      * now constructor.
      * rewrite E'. now apply matches_in_head.
    + apply matches_in_cons. auto.
  - apply matches_in_app_r. apply IHReplaced.
    eapply matches_in_skip; eauto. apply placeholder_chars.
Qed.

Lemma Replaced_own r F t o :
  starts_plain r -> head_reflects r ->
  Replaced F (fun s => match_at r s = None) t o -> ~ matches_in r o.
Proof.
  intros Hs Hh H. induction H; intros Hin.
  - destruct Hin as (b & m & a & E & M). symmetry in E.
    apply app_eq_nil in E as [_ E]. apply app_eq_nil in E as [-> _].
    now apply (starts_plain_not_nil r Hs).
  - apply matches_in_uncons in Hin as [(m & rest & E & M)|Hin]; [|auto].
    destruct (Hh F (fun s => match_at r s = None) (c :: t) (c :: o) m rest)
      as (m' & rest' & E' & M'); auto.
    + now constructor.
    + exact (proj1 (match_at_None r (c :: t)) H m' rest' E' M').
  - apply IHReplaced. eapply matches_in_skip; eauto. apply placeholder_chars.
Qed.

(** A pattern whose matches hold no U+0126 sees the same match before and
    after a pass. *)
Lemma plain_reflects r :
  (forall m, Matches r m -> ~ In 294 m) -> head_reflects r.
Proof.
  intros Hr F K t o m rest H M ->.
  apply Replaced_prefix in H as (t' & -> & _); [eauto|auto].
Qed.

Lemma first_occurrence (x : char) s :
  In x s -> exists u v, s = u ++ x :: v /\ forallb (fun c => negb (c =? x)) u = true.
Proof.
  induction s as [|c s IH]; intros H; [destruct H|].
  destruct (c =? x) eqn:E.
  - apply N.eqb_eq in E. subst. exists [], s. auto.
  - destruct H as [->|H]; [rewrite N.eqb_refl in E; discriminate|].
    destruct (IH H) as (u & v & -> & Hu). exists (c :: u), v.
    split; [reflexivity|]. simpl. now rewrite E.
Qed.

Lemma TAGS_starts_plain : starts_plain TAGS.
Proof.
  intros m M. apply TAGS_shape, tag_body in M as (b & -> & _). eauto.
Qed.

Lemma ENTITIES_starts_plain : starts_plain ENTITIES.
Proof.
  intros m M. apply ENTITIES_body in M as (b & -> & _). eauto.
Qed.

Lemma COLON_starts_plain : starts_plain COLON.
Proof. intros m M. inversion M; subst. eauto. Qed.

Lemma ENTITIES_no_H m : Matches ENTITIES m -> ~ In 294 m.
Proof.
  intros M. apply ENTITIES_body in M as (b & -> & Hb & _).
  intros [H|H]; [discriminate|]. apply in_app_or in H as [H|[H|[]]]; [|discriminate].
  rewrite forallb_forall in Hb. apply Hb in H. classes.
Qed.

Lemma COLON_no_H m : Matches COLON m -> ~ In 294 m.
Proof. intros M. inversion M; subst. simpl. intuition discriminate. Qed.

Ltac list_norm := repeat progress (simpl; rewrite <- ?app_assoc); simpl.

Lemma TAGS_head_reflects : head_reflects TAGS.
Proof.
  intros F K t o m rest H M ->. apply TAGS_shape in M.
  destruct M as [slash a name attrs Hs Ha Hn Hat].
  assert (E : (60 :: slash ++ a :: name ++ attrs ++ [62]) ++ rest
              = (60 :: slash ++ a :: name) ++ attrs ++ 62 :: rest)
    by (list_norm; reflexivity).
  rewrite E in H. clear E.
  apply Replaced_prefix in H as (t1 & -> & H).
  - destruct attrs as [|w attrs'].
    + simpl in H. apply Replaced_head in H as (t2 & -> & _); [|discriminate].
      exists (60 :: slash ++ a :: name ++ [] ++ [62]), t2. split.
      * list_norm. reflexivity.
      * apply TAGS_shape. now constructor.
    + simpl in H, Hat. apply andb_true_iff in Hat as [Hw Hr].
      apply Replaced_head in H as (t2 & -> & H); [|intros ->; discriminate].
      assert (Hin : In 62 t2).
      { eapply Replaced_mem; [exact H|reflexivity|].
        apply in_or_app. right. now left. }
      apply first_occurrence in Hin as (u & v & -> & Hu).
      exists (60 :: slash ++ a :: name ++ (w :: u) ++ [62]), v. split.
      * list_norm. reflexivity.
      * apply TAGS_shape. constructor; auto. simpl. now rewrite Hw.
  - intros [Hin|Hin]; [discriminate|].
    apply in_app_or in Hin as [Hin|[Hin|Hin]].
    + destruct Hs as [-> | ->]; simpl in Hin; intuition discriminate.
    + subst. discriminate.
    + rewrite forallb_forall in Hn. apply Hn in Hin. discriminate.
Qed.

Lemma preserve_passes text : preserveHtmlContent text = after_colons text.
Proof.
  rewrite preserve_scan. unfold after_colons, after_entities, after_tags, empty_record.
  destruct (scan TAGS createPlaceholder text _) as [t1 p1]. simpl.
  destruct (scan ENTITIES createPlaceholder t1 p1) as [t2 p2]. reflexivity.
Qed.

(** No pass leaves a match of its own pattern, and no later pass brings
    one back. *)
Lemma preserve_no_leak text :
  ~ matches_in TAGS (fst (preserveHtmlContent text))
  /\ ~ matches_in ENTITIES (fst (preserveHtmlContent text))
  /\ ~ In 58 (fst (preserveHtmlContent text)).
Proof.
  rewrite preserve_passes.
  pose proof (scan_Replaced TAGS TAGS_never_empty text empty_record) as H1.
  pose proof (scan_Replaced ENTITIES ENTITIES_never_empty
                (fst (after_tags text)) (snd (after_tags text))) as H2.
  pose proof (scan_Replaced COLON (Chr_never_empty 58)
                (fst (after_entities text)) (snd (after_entities text))) as H3.
  fold (after_tags text) in H1. fold (after_entities text) in H2.
  fold (after_colons text) in H3.
  split; [|split].
  - intros H.
    apply (Replaced_reflects TAGS _ _ _ _ TAGS_starts_plain TAGS_head_reflects H3) in H.
    apply (Replaced_reflects TAGS _ _ _ _ TAGS_starts_plain TAGS_head_reflects H2) in H.
    exact (Replaced_own TAGS _ _ _ TAGS_starts_plain TAGS_head_reflects H1 H).
  - intros H.
    apply (Replaced_reflects ENTITIES _ _ _ _ ENTITIES_starts_plain
             (plain_reflects _ ENTITIES_no_H) H3) in H.
    exact (Replaced_own ENTITIES _ _ _ ENTITIES_starts_plain
             (plain_reflects _ ENTITIES_no_H) H2 H).
  - intros H. apply matches_in_Chr in H.
    exact (Replaced_own COLON _ _ _ COLON_starts_plain
             (plain_reflects _ COLON_no_H) H3 H).
Qed.

(** *** The record *)

Lemma Map_set_fresh k v : forall m,
  ~ In k (List.map fst m) -> Map_set k v m = m ++ [(k, v)].
Proof.
  induction m as [|[k' v'] m IH]; intros H; simpl; [reflexivity|].
  unfold jsstring_eqb. destruct (list_eq_dec N.eq_dec k k') as [->|Hne].
  - exfalso. apply H. now left.
  - rewrite IH; [reflexivity|]. intros Hin. apply H. now right.
Qed.

Lemma entries_app ms1 : forall start ms2,
  entries start (ms1 ++ ms2) = entries start ms1 ++ entries (start + length ms1) ms2.
Proof.
  induction ms1 as [|m ms1 IH]; intros start ms2; simpl.
  - now rewrite Nat.add_0_r.
  - rewrite IH. now rewrite Nat.add_succ_r.
Qed.

Lemma entries_keys ms : forall start,
  List.map fst (entries start ms) = List.map placeholder_of (seq start (length ms)).
Proof.
  induction ms as [|m ms IH]; intros start; simpl; [reflexivity|]. now rewrite IH.
Qed.

Lemma placeholders_NoDup l : NoDup l -> NoDup (List.map placeholder_of l).
Proof.
  induction 1 as [|k l Hk Hl IH]; simpl; constructor; [|exact IH].
  rewrite in_map_iff. intros (k' & E & Hin).
  apply placeholder_of_inj in E. now subst.
Qed.

Lemma entries_keys_NoDup start ms : NoDup (List.map fst (entries start ms)).
Proof. rewrite entries_keys. apply placeholders_NoDup, seq_NoDup. Qed.

Lemma createPlaceholder_record m ms :
  createPlaceholder m (record_of ms) = (placeholder_of (length ms), record_of (ms ++ [m])).
Proof.
  unfold createPlaceholder, record_of. simpl. f_equal. f_equal.
  - rewrite Map_set_fresh.
    + rewrite entries_app. reflexivity.
    + rewrite entries_keys, in_map_iff. intros (k & E & Hk).
      apply placeholder_of_inj in E. apply in_seq in Hk. lia.
  - rewrite length_app. simpl. lia.
Qed.

Lemma found_acc r (Hne : ~ Matches r []) : forall t acc,
  snd (scan r (fun m acc => ([], acc ++ [m])) t acc) = acc ++ found r t.
Proof.
  unfold found.
  intros t. induction t as [| c t Hc IH | m rest Hm Hn IH] using (scan_ind r Hne);
    intros acc.
  - rewrite !scan_nil by assumption. simpl. now rewrite app_nil_r.
  - rewrite !scan_miss by assumption. simpl. apply IH.
  - rewrite !(scan_hit _ _ _ Hne _ _ _ _ Hm). simpl.
    rewrite IH, (IH [m]). now rewrite <- app_assoc.
Qed.

Lemma found_nil r : ~ Matches r [] -> found r [] = [].
Proof. intros Hne. unfold found. now rewrite scan_nil. Qed.

Lemma found_miss r c t : match_at r (c :: t) = None -> found r (c :: t) = found r t.
Proof. intros H. unfold found. now rewrite scan_miss. Qed.

Lemma found_hit r (Hne : ~ Matches r []) m rest :
  match_at r (m ++ rest) = Some (m, rest) -> found r (m ++ rest) = m :: found r rest.
Proof.
  intros H. unfold found at 1. rewrite (scan_hit _ _ _ Hne _ _ _ _ H). simpl.
  now rewrite found_acc.
Qed.

Lemma found_Matches r (Hne : ~ Matches r []) t : Forall (Matches r) (found r t).
Proof.
  induction t as [| c t Hc IH | m rest Hm Hn IH] using (scan_ind r Hne).
  - rewrite found_nil by assumption. constructor.
  - now rewrite found_miss.
  - rewrite found_hit by assumption. constructor; [|exact IH].
    now apply match_at_Some in Hm.
Qed.

(** A pass appends one entry per match, in the order of the scan. *)
Lemma scan_record r (Hne : ~ Matches r []) : forall t ms,
  snd (scan r createPlaceholder t (record_of ms)) = record_of (ms ++ found r t).
Proof.
  intros t. induction t as [| c t Hc IH | m rest Hm Hn IH] using (scan_ind r Hne);
    intros ms.
  - rewrite scan_nil, found_nil by assumption. now rewrite app_nil_r.
  - rewrite scan_miss, found_miss by assumption. simpl. apply IH.
  - rewrite (scan_hit _ _ _ Hne _ _ _ _ Hm), found_hit by assumption.
    rewrite createPlaceholder_record. simpl. rewrite IH. now rewrite <- app_assoc.
Qed.

Lemma occurs_in_cons key c t : occurs_in key t -> occurs_in key (c :: t).
Proof. intros (b & a & ->). exists (c :: b), a. reflexivity. Qed.

Lemma occurs_in_app key u t : occurs_in key t -> occurs_in key (u ++ t).
Proof. intros (b & a & ->). exists (u ++ b), a. now rewrite app_assoc. Qed.

(** Every placeholder a pass mints is in the text the pass returns. *)
Lemma scan_minted r (Hne : ~ Matches r []) : forall t ms k,
  (length ms <= k < length ms + length (found r t))%nat ->
  occurs_in (placeholder_of k) (fst (scan r createPlaceholder t (record_of ms))).
Proof.
  intros t. induction t as [| c t Hc IH | m rest Hm Hn IH] using (scan_ind r Hne);
    intros ms k Hk.
  - rewrite found_nil in Hk by assumption. simpl in Hk. lia.
  - rewrite found_miss in Hk by assumption. rewrite scan_miss by assumption. simpl.
    apply occurs_in_cons. now apply IH.
  - rewrite found_hit in Hk by assumption. simpl in Hk.
    rewrite (scan_hit _ _ _ Hne _ _ _ _ Hm). rewrite createPlaceholder_record.
    cbn [fst snd].
    destruct (Nat.eq_dec k (length ms)) as [->|Hne'].
    + eexists [], _. reflexivity.
    + apply occurs_in_app. apply IH. rewrite length_app. simpl. lia.
Qed.

(** A later pass whose matches hold no U+0126 and start with a character
    no placeholder holds keeps the placeholders that are there. *)
Lemma Replaced_token_prefix F K u :
  (forall m, F m -> exists c m', m = c :: m' /\ is_token_char c = false) ->
  forallb is_token_char u = true ->
  forall t o, Replaced F K (u ++ t) o -> exists o', o = u ++ o' /\ Replaced F K t o'.
Proof.
  intros HF. induction u as [|x u IH]; intros Hu t o H.
  - exists o. auto.
  - simpl in Hu. apply andb_true_iff in Hu as [Hx Hu].
    simpl in H. remember (x :: u ++ t) as s eqn:Es.
    destruct H as [| c t' o' HK H' | m n t' o' Hm H'].
    + discriminate.
    + inversion Es; subst. destruct (IH Hu _ _ H') as (o2 & -> & H2).
      exists o2. auto.
    + exfalso. apply HF in Hm as (c & m' & -> & Hc). simpl in Es.
      inversion Es; subst. congruence.
Qed.

Lemma Replaced_keeps_token F K k :
  (forall m, F m -> exists c m', m = c :: m' /\ is_token_char c = false) ->
  (forall m, F m -> ~ In 294 m) ->
  forall t o, Replaced F K t o ->
  occurs_in (placeholder_of k) t -> occurs_in (placeholder_of k) o.
Proof.
  intros HF HH t o H. induction H as [| c t o HK H IH | m n t o Hm H IH];
    intros (b & a & E).
  - symmetry in E. apply app_eq_nil in E as [_ E]. apply app_eq_nil in E as [E _].
    now apply placeholder_not_nil in E.
  - destruct b as [|c' b].
    + rewrite app_nil_l in E.
      assert (H' : Replaced F K (placeholder_of k ++ a) (c :: o))
        by (rewrite <- E; now constructor).
      apply (Replaced_token_prefix F K _ HF (placeholder_chars k)) in H'
        as (o' & -> & _).
      eexists [], _. reflexivity.
    + rewrite <- app_comm_cons in E. inversion E; subst. apply occurs_in_cons.
      apply IH. exists b, a. reflexivity.
  - apply occurs_in_app. apply IH.
    apply app_eq_app in E as (l & [[E1 E2] | [E1 E2]]).
    + destruct l as [|x l].
      * rewrite app_nil_l in E2. exists [], a. now rewrite app_nil_l.
      * exfalso. apply (HH m Hm). rewrite E1. apply in_or_app. right.
        destruct (placeholder_head k) as [tl Ek]. rewrite Ek in E2.
        rewrite <- !app_comm_cons in E2. inversion E2. now left.
    + exists l, a. exact E2.
Qed.

Lemma after_tags_record text : snd (after_tags text) = record_of (found TAGS text).
Proof. exact (scan_record TAGS TAGS_never_empty text []). Qed.

Lemma after_entities_record text :
  snd (after_entities text)
  = record_of (found TAGS text ++ found ENTITIES (fst (after_tags text))).
Proof.
  unfold after_entities. rewrite after_tags_record.
  apply (scan_record ENTITIES ENTITIES_never_empty).
Qed.

Lemma after_colons_record text :
  snd (after_colons text)
  = record_of (found TAGS text ++ found ENTITIES (fst (after_tags text))
               ++ found COLON (fst (after_entities text))).
Proof.
  unfold after_colons. rewrite after_entities_record.
  rewrite (scan_record COLON (Chr_never_empty 58)). now rewrite <- app_assoc.
Qed.

Lemma after_colons_occurs text k :
  (k < counter (snd (after_colons text)))%nat ->
  occurs_in (placeholder_of k) (fst (after_colons text)).
Proof.
  rewrite after_colons_record. cbn [counter record_of]. rewrite !length_app.
  intros Hk.
  pose proof (scan_Replaced ENTITIES ENTITIES_never_empty
                (fst (after_tags text)) (snd (after_tags text))) as H2.
  pose proof (scan_Replaced COLON (Chr_never_empty 58)
                (fst (after_entities text)) (snd (after_entities text))) as H3.
  fold (after_entities text) in H2. fold (after_colons text) in H3.
  assert (K2 := Replaced_keeps_token _ _ k ENTITIES_starts_plain ENTITIES_no_H _ _ H2).
  assert (K3 := Replaced_keeps_token _ _ k COLON_starts_plain COLON_no_H _ _ H3).
  destruct (Nat.lt_ge_cases k (length (found TAGS text))) as [H|H].
  - apply K3, K2. apply (scan_minted TAGS TAGS_never_empty text []). simpl. lia.
  - destruct (Nat.lt_ge_cases k (length (found TAGS text)
                + length (found ENTITIES (fst (after_tags text))))) as [H'|H'].
    + apply K3. unfold after_entities. rewrite after_tags_record.
      apply (scan_minted ENTITIES ENTITIES_never_empty). lia.
    + unfold after_colons. rewrite after_entities_record.
      apply (scan_minted COLON (Chr_never_empty 58)). rewrite length_app. lia.
Qed.

Lemma entries_key_index key ms :
  In key (List.map fst (entries 0 ms)) ->
  exists k, (k < length ms)%nat /\ key = placeholder_of k.
Proof.
  rewrite entries_keys, in_map_iff. intros (k & <- & Hk). apply in_seq in Hk.
  exists k. split; [lia|reflexivity].
Qed.

End Encoder.

(** ** The encoded text as characters and placeholders *)

Module Items.
Import JS HtmlUtils Spec Engine Patterns Passthrough Detector SelfClosingTags Encoder.

Lemma render_app a b : render (a ++ b) = render a ++ render b.
Proof. apply flat_map_app. Qed.

Lemma original_app a b : original (a ++ b) = original a ++ original b.
Proof. apply flat_map_app. Qed.

Lemma render_plain m : render (List.map Plain m) = m.
Proof. induction m as [|c m IH]; simpl; [reflexivity|]. now f_equal. Qed.

Lemma original_plain m : original (List.map Plain m) = m.
Proof. induction m as [|c m IH]; simpl; [reflexivity|]. now f_equal. Qed.

Lemma exact_tail it items : exact (it :: items) -> exact items.
Proof. intros H k c v Hin. apply (H k c v). now right. Qed.

(** No match of a pattern that starts with a plain character begins
    inside a placeholder. *)
Lemma no_match_in_token r n x :
  starts_plain r ->
  forall v1 v2, placeholder_of n = v1 ++ v2 -> v2 <> [] -> match_at r (v2 ++ x) = None.
Proof.
  intros Hs v1 v2 E Hn. apply match_at_None. intros m rest E' M.
  apply Hs in M as (c & m' & -> & Hc).
  destruct v2 as [|c2 v2]; [congruence|]. simpl in E'. inversion E'; subst c2.
  pose proof (placeholder_chars n) as Hp. rewrite E, forallb_app in Hp.
  apply andb_true_iff in Hp as [_ Hp]. simpl in Hp.
  apply andb_true_iff in Hp as [Hp _]. congruence.
Qed.

(** A match that holds no U+0126 lies among the plain characters. *)
Lemma plain_split m : forall items x,
  exact items -> render items = m ++ x -> ~ In 294 m ->
  exists items2, items = List.map Plain m ++ items2 /\ exact items2.
Proof.
  induction m as [|a m IH]; intros items x He E Hn.
  - exists items. auto.
  - destruct items as [|[c|k c v] rest]; simpl in E.
    + discriminate.
    + inversion E; subst.
      destruct (IH rest x) as (items2 & -> & He2); auto.
      * eapply exact_tail; eauto.
      * intros Hin. apply Hn. now right.
      * exists items2. auto.
    + exfalso. rewrite (He k c v) in E by now left.
      destruct (placeholder_head k) as [tl Ek]. rewrite Ek in E.
      simpl in E. inversion E. apply Hn. now left.
Qed.

Section Pass.
Variable r : regex.
Hypothesis never_empty : ~ Matches r [].
Hypothesis plain_start : starts_plain r.
Variable Q : list item -> Prop.
Hypothesis Q_exact : forall items, Q items -> exact items.
Hypothesis Q_tail : forall it items, Q (it :: items) -> Q items.
Hypothesis Q_split : forall items m x,
  Q items -> match_at r (render items) = Some (m, x) ->
  exists items2, items = List.map Plain m ++ items2 /\ Q items2.

(** A pass turns the matches among the plain characters into placeholders
    and leaves the rest as it is. *)
Lemma pass_items : forall n items, (length items <= n)%nat -> forall ms,
  Q items ->
  exists items',
    fst (scan r createPlaceholder (render items) (record_of ms)) = render items'
    /\ original items' = original items
    /\ exact items'
    /\ forall k c v,
         In (Tok k c v) items' ->
         In (Tok k c v) items \/ nth_error (ms ++ found r (render items)) k = Some c.
Proof.
  induction n as [|n IH]; intros items Hlen ms HQ.
  - destruct items; [|simpl in Hlen; lia].
    exists []. simpl. rewrite scan_nil by assumption. repeat split; auto.
    all: intros k c v [].
  - destruct items as [|[c|k c v] rest].
    + exists []. simpl. rewrite scan_nil by assumption. repeat split; auto.
      all: intros k c v [].
    + destruct (match_at r (render (Plain c :: rest))) as [[m x]|] eqn:E.
      * destruct (Q_split _ _ _ HQ E) as (items2 & Eitems & HQ2).
        pose proof (match_at_Some _ _ _ _ E) as [M Er].
        assert (Hm : m <> []) by (intros ->; contradiction).
        assert (Ex : x = render items2).
        { rewrite Eitems, render_app, render_plain in Er.
          now apply app_inv_head in Er. }
        subst x.
        destruct (IH items2) with (ms := ms ++ [m]) as (items2' & Hr & Ho & He & Ht); auto.
        { apply (f_equal (@length _)) in Eitems.
          rewrite length_app, length_map in Eitems. simpl in Eitems, Hlen.
          destruct m; [congruence|simpl in Eitems; lia]. }
        exists (Tok (length ms) m (placeholder_of (length ms)) :: items2').
        rewrite Er in E.
        rewrite Er, (scan_hit _ _ _ never_empty _ _ _ _ E), createPlaceholder_record.
        rewrite found_hit by assumption. cbn [fst snd].
        repeat split.
        -- simpl. now rewrite Hr.
        -- rewrite Eitems, original_app, original_plain, <- Ho. reflexivity.
        -- intros k' c' v' [H|H]; [now inversion H|eauto].
        -- intros k' c' v' [H|H].
           ++ inversion H; subst. right.
              rewrite nth_error_app2 by lia. now rewrite Nat.sub_diag.
           ++ apply Ht in H as [H|H].
              ** left. rewrite Eitems. apply in_or_app. now right.
              ** right. now rewrite <- app_assoc in H.
      * destruct (IH rest) with (ms := ms) as (rest' & Hr & Ho & He & Ht).
        { simpl in Hlen. lia. }
        { eapply Q_tail; eauto. }
        exists (Plain c :: rest'). simpl in E |- *.
        rewrite scan_miss, found_miss by assumption. cbn [fst].
        repeat split.
        -- now rewrite Hr.
        -- now rewrite Ho.
        -- intros k' c' v' [H|H]; [discriminate|eauto].
        -- intros k' c' v' [H|H]; [discriminate|].
           apply Ht in H as [H|H]; [left; now right|now right].
    + destruct (IH rest) with (ms := ms) as (rest' & Hr & Ho & He & Ht).
      { simpl in Hlen. lia. }
      { eapply Q_tail; eauto. }
      assert (Ev : v = placeholder_of k) by (apply (Q_exact _ HQ k c v); now left).
      subst v. exists (Tok k c (placeholder_of k) :: rest').
      assert (Hskip : forall v1 v2, placeholder_of k = v1 ++ v2 -> v2 <> [] ->
                match_at r (v2 ++ render rest) = None)
        by (now apply no_match_in_token).
      cbn [render flat_map]. fold (render rest).
      rewrite (scan_pass_over _ r createPlaceholder _ _ _ Hskip).
      unfold found. rewrite (scan_pass_over _ r _ _ _ _ Hskip). fold (found r (render rest)).
      cbn [fst snd]. repeat split.
      * simpl. now rewrite Hr.
      * simpl. now rewrite Ho.
      * intros k' c' v' [H|H]; [now inversion H|eauto].
      * intros k' c' v' [H|H]; [left; now left|].
        apply Ht in H as [H|H]; [left; now right|now right].
Qed.
End Pass.

Lemma all_plain_map items : all_plain items -> items = List.map Plain (render items).
Proof.
  induction items as [|it items IH]; intros H; [reflexivity|].
  destruct (H it (or_introl eq_refl)) as [c ->]. simpl. f_equal.
  apply IH. intros it' Hin. apply H. now right.
Qed.

Lemma all_plain_of_map m : all_plain (List.map Plain m).
Proof. intros it Hin. apply in_map_iff in Hin as (c & <- & _). eauto. Qed.

Lemma all_plain_split r items m x :
  all_plain items -> match_at r (render items) = Some (m, x) ->
  exists items2, items = List.map Plain m ++ items2 /\ all_plain items2.
Proof.
  intros H E. apply match_at_Some in E as [_ E].
  exists (List.map Plain x). split; [|apply all_plain_of_map].
  rewrite <- map_app, <- E. now apply all_plain_map.
Qed.

Lemma exact_split r (Hr : forall m, Matches r m -> ~ In 294 m) items m x :
  exact items -> match_at r (render items) = Some (m, x) ->
  exists items2, items = List.map Plain m ++ items2 /\ exact items2.
Proof.
  intros He E. apply match_at_Some in E as [M E].
  eapply plain_split; eauto.
Qed.

Lemma nth_error_extend (A B : list jsstring) k c :
  nth_error A k = Some c -> nth_error (A ++ B) k = Some c.
Proof.
  intros H. rewrite nth_error_app1; [exact H|].
  apply nth_error_Some. congruence.
Qed.

(** The text [preserveHtmlContent] returns, item by item: the fragments of
    the record are where their placeholders are. *)
Lemma encode_items text :
  exists items,
    fst (preserveHtmlContent text) = render items
    /\ original items = text
    /\ exact items
    /\ forall k c v,
         In (Tok k c v) items ->
         nth_error (found TAGS text ++ found ENTITIES (fst (after_tags text))
                    ++ found COLON (fst (after_entities text))) k = Some c.
Proof.
  rewrite preserve_passes.
  destruct (pass_items TAGS TAGS_never_empty TAGS_starts_plain all_plain
              (fun items H k c v Hin => match H _ Hin with
                                        | ex_intro _ _ E => ltac:(discriminate)
                                        end)
              (fun it items H it' Hin => H it' (or_intror Hin))
              (all_plain_split TAGS)
              (length (List.map Plain text)) (List.map Plain text) (le_n _) []
              (all_plain_of_map text))
    as (items1 & Hr1 & Ho1 & He1 & Ht1).
  rewrite render_plain, original_plain in *. fold (after_tags text) in Hr1.
  destruct (pass_items ENTITIES ENTITIES_never_empty ENTITIES_starts_plain exact
              (fun items H => H) exact_tail (exact_split ENTITIES ENTITIES_no_H)
              (length items1) items1 (le_n _) (found TAGS text) He1)
    as (items2 & Hr2 & Ho2 & He2 & Ht2).
  rewrite <- Hr1, <- after_tags_record in Hr2. fold (after_entities text) in Hr2.
  rewrite <- Hr1 in Ht2.
  destruct (pass_items COLON (Chr_never_empty 58) COLON_starts_plain exact
              (fun items H => H) exact_tail (exact_split COLON COLON_no_H)
              (length items2) items2 (le_n _)
              (found TAGS text ++ found ENTITIES (fst (after_tags text))) He2)
    as (items3 & Hr3 & Ho3 & He3 & Ht3).
  rewrite <- Hr2, <- after_entities_record in Hr3. fold (after_colons text) in Hr3.
  rewrite <- Hr2 in Ht3.
  exists items3. repeat split; auto.
  - congruence.
  - intros k c v Hin. apply Ht3 in Hin as [Hin|Hin].
    + rewrite app_assoc. apply nth_error_extend.
      apply Ht2 in Hin as [Hin|Hin]; [|exact Hin].
      apply nth_error_extend.
      apply Ht1 in Hin as [Hin|Hin]; [|exact Hin].
      apply in_map_iff in Hin as (x & Hx & _). discriminate.
    + now rewrite <- app_assoc in Hin.
Qed.

End Items.

(** ** The decoder *)

Module Decoder.
Import JS HtmlUtils Spec Engine Patterns Passthrough Detector SelfClosingTags Encoder Items.

(** *** Replacement text *)

Lemma GetSubstitution_plain m b a : forall tmpl,
  no_dollar_pattern tmpl = true -> GetSubstitution m b a tmpl = tmpl.
Proof.
  induction tmpl as [|c t IH]; intros H; [reflexivity|].
  simpl in H. apply andb_true_iff in H as [Hc Ht]. specialize (IH Ht).
  simpl. destruct (c =? 36) eqn:Ec; [|now rewrite IH].
  destruct t as [|d t']; [reflexivity|].
  simpl in Hc. apply negb_true_iff in Hc.
  apply orb_false_iff in Hc as [Hc H4]. apply orb_false_iff in Hc as [Hc H3].
  apply orb_false_iff in Hc as [H1 H2]. rewrite H1, H2, H3, H4. now rewrite IH.
Qed.

Lemma no_dollar_suffix a : forall b,
  no_dollar_pattern (a ++ b) = true -> no_dollar_pattern b = true.
Proof.
  induction a as [|c a IH]; intros b H; [exact H|].
  simpl in H. apply andb_true_iff in H as [_ H]. now apply IH.
Qed.

Lemma no_dollar_prefix a : forall b,
  no_dollar_pattern (a ++ b) = true -> no_dollar_pattern a = true.
Proof.
  induction a as [|c a IH]; intros b H; [reflexivity|].
  simpl in H. apply andb_true_iff in H as [Hc H].
  simpl. rewrite (IH _ H), andb_true_r.
  destruct (c =? 36); [|reflexivity]. simpl in *.
  destruct a as [|d a']; [reflexivity|exact Hc].
Qed.

Lemma no_dollar_infix a c b :
  no_dollar_pattern (a ++ c ++ b) = true -> no_dollar_pattern c = true.
Proof. intros H. apply no_dollar_suffix in H. now apply no_dollar_prefix in H. Qed.

(** *** Case-folded texts *)

Lemma lit_i_placeholder_not_nil j : ~ Matches (lit_i (placeholder_of j)) [].
Proof.
  intros M. apply lit_i_length in M. symmetry in M.
  apply length_zero_iff_nil in M. now apply placeholder_not_nil in M.
Qed.

(** A placeholder starts a text that starts with one only if it is the
    same placeholder. *)
Lemma placeholder_prefix k j F X :
  placeholder_of k ++ F = placeholder_of j ++ X -> k = j.
Proof.
  rewrite !placeholder_of_eq, <- !app_assoc. intros H. apply app_inv_head in H.
  assert (T : forall c, is_digit c = true -> negb (c =? 294) = true)
    by (intros c Hc; classes).
  simpl in H.
  destruct (terminated_unique 294 (ordinal k) (ordinal j) _ _
              (forallb_impl _ _ _ T (ordinal_digits k))
              (forallb_impl _ _ _ T (ordinal_digits j)) H) as [E _].
  now apply ordinal_inj.
Qed.

Lemma ordinal_head n : exists d D, ordinal n = d :: D /\ is_digit d = true.
Proof.
  pose proof (ordinal_length n) as Hl. pose proof (ordinal_digits n) as Hd.
  destruct (ordinal n) as [|d D]; [simpl in Hl; lia|].
  simpl in Hd. apply andb_true_iff in Hd as [Hd _]. eauto.
Qed.

(** No placeholder of another ordinal starts anywhere inside a
    placeholder, whatever follows it in a text of the right kind. *)
Lemma folded_no_match j k f1 f2 F X :
  placeholder_of k = f1 ++ f2 -> f2 <> [] -> k <> j ->
  first_H_then_D F -> no_digit_bridge F ->
  f2 ++ F = placeholder_of j ++ X -> False.
Proof.
  intros Ek Hf2 Hkj HA HB E.
  destruct (ordinal_head j) as (dj & Dj & Edj & Hdj).
  destruct (ordinal_head k) as (dk & Dk & Edk & Hdk).
  destruct f1 as [|x1 f1].
  { rewrite app_nil_l in Ek. subst f2. now apply placeholder_prefix in E. }
  rewrite placeholder_of_eq in Ek, E.
  destruct f1 as [|x2 f1]; [simpl in Ek; inversion Ek; subst; discriminate|].
  destruct f1 as [|x3 f1]; [simpl in Ek; inversion Ek; subst; discriminate|].
  destruct f1 as [|x4 f1]; [simpl in Ek; inversion Ek; subst; discriminate|].
  destruct f1 as [|x5 f1].
  { simpl in Ek. inversion Ek; subst f2. rewrite Edk in E. simpl in E.
    inversion E; subst. discriminate. }
  simpl in Ek. inversion Ek as [[E1 E2 E3 E4 E5 Ek']]. clear Ek.
  symmetry in Ek'. apply app_eq_app in Ek' as (l & [[Ea Eb] | [Ea Eb]]).
  - (* the split point lies in the closing delimiter *)
    destruct l as [|y1 l]; [rewrite app_nil_l in Eb; subst f2|].
    + simpl in E. inversion E as [E']. rewrite <- app_assoc in E'.
      assert (Hlen := HB (ordinal j) _ E' (ordinal_digits j)).
      pose proof (ordinal_length j). lia.
    + destruct l as [|y2 l]; [simpl in Eb; inversion Eb; subst; discriminate|].
      destruct l as [|y3 l]; [simpl in Eb; inversion Eb; subst; discriminate|].
      destruct l as [|y4 l]; [simpl in Eb; inversion Eb; subst; discriminate|].
      destruct l as [|y5 l].
      * simpl in Eb. inversion Eb; subst f2. simpl in E. inversion E as [E'].
        rewrite Edj in E'.
        destruct (HA [272; 321; 88] (dj :: Dj ++ [294; 272; 321; 88; 294] ++ X))
          as (y' & Ey).
        -- rewrite E'. simpl. now rewrite <- app_assoc.
        -- simpl. intuition discriminate.
        -- inversion Ey; subst. discriminate.
      * simpl in Eb. injection Eb as _ _ _ _ _ Eb'.
        symmetry in Eb'. apply app_eq_nil in Eb' as [_ ->]. congruence.
  - (* the split point lies in the ordinal or at its end *)
    destruct l as [|d l].
    + rewrite app_nil_l in Eb. subst f2. simpl in E. inversion E as [E'].
      rewrite <- app_assoc in E'.
      assert (Hlen := HB (ordinal j) _ E' (ordinal_digits j)).
      pose proof (ordinal_length j). lia.
    + subst f2. simpl in E. inversion E; subst d.
      pose proof (ordinal_digits k) as Hd. rewrite Ea, forallb_app in Hd.
      apply andb_true_iff in Hd as [_ Hd]. discriminate.
Qed.

(** *** Well-formed texts *)

Lemma wf_cons it X : wf (it :: X) <-> item_wf it = true /\ wf X.
Proof. unfold wf. simpl. apply andb_true_iff. Qed.

Lemma same_folded_placeholder v k :
  same_folded v (placeholder_of k) = true ->
  List.map Canonicalize v = placeholder_of k.
Proof.
  unfold same_folded, jsstring_eqb.
  destruct (list_eq_dec N.eq_dec _ _) as [E|]; [|discriminate].
  intros _. now rewrite E, placeholder_canonical.
Qed.

Lemma wf_Tok k c v X :
  wf (Tok k c v :: X) ->
  List.map Canonicalize v = placeholder_of k /\ content_ok c = true /\ wf X.
Proof.
  intros H. apply wf_cons in H as [H HX]. simpl in H.
  apply andb_true_iff in H as [Hv Hc]. auto using same_folded_placeholder.
Qed.

Lemma wf_Plain c X : wf (Plain c :: X) -> Canonicalize c <> 294 /\ wf X.
Proof.
  intros H. apply wf_cons in H as [H HX]. simpl in H. split; [|exact HX].
  intros E. apply Canonicalize_H in E. rewrite E in H. discriminate.
Qed.

Lemma folded_first_H X : wf X -> first_H_then_D (List.map Canonicalize (render X)).
Proof.
  induction X as [|[c|k c v] X IH]; intros H u y E Hu.
  - destruct u; discriminate.
  - apply wf_Plain in H as [Hc HX]. simpl in E.
    destruct u as [|x u]; simpl in E; inversion E; [congruence|].
    apply (IH HX u y); [assumption|]. intros Hin. apply Hu. now right.
  - apply wf_Tok in H as (Hv & _ & _). simpl in E. rewrite map_app, Hv in E.
    destruct (placeholder_head k) as [tl Ek].
    rewrite placeholder_of_eq in E. simpl in E.
    destruct u as [|x u]; simpl in E; inversion E; [eauto|].
    subst x. exfalso. apply Hu. now left.
Qed.

Lemma folded_bridge X : forall n D y,
  wf X -> List.map Canonicalize (render X) = D ++ 294 :: y ->
  forallb is_digit D = true -> (3 <= n + length D)%nat ->
  digits_then_tok n X = true.
Proof.
  induction X as [|[c|k c v] X IH]; intros n D y H E HD Hn.
  - destruct D; discriminate.
  - apply wf_Plain in H as [Hc HX]. simpl in E.
    destruct D as [|d D]; simpl in E; inversion E; [congruence|].
    simpl in HD. apply andb_true_iff in HD as [Hd HD].
    assert (c = d) by (now apply Canonicalize_to_digit). subst c.
    simpl. rewrite Hd. simpl. apply (IH (S n) D y); auto. simpl in Hn. lia.
  - apply wf_Tok in H as (Hv & _ & _). simpl in E. rewrite map_app, Hv in E.
    rewrite placeholder_of_eq in E. simpl in E.
    destruct D as [|d D]; simpl in E; inversion E.
    + cbn [digits_then_tok]. apply Nat.leb_le. simpl in Hn. lia.
    + subst d. simpl in HD. discriminate.
Qed.

Lemma folded_no_bridge X :
  wf X -> digits_then_tok 0 X = false ->
  no_digit_bridge (List.map Canonicalize (render X)).
Proof.
  intros H Hb D y E HD.
  destruct (Nat.lt_ge_cases (length D) 3) as [Hl|Hl]; [exact Hl|].
  rewrite (folded_bridge X 0 D y) in Hb; auto. discriminate.
Qed.

(** *** One entry of the record *)

Lemma no_match_at_plain j c x :
  Canonicalize c <> 294 -> match_at (lit_i (placeholder_of j)) (c :: x) = None.
Proof.
  intros Hc. apply match_at_None. intros m rest E M.
  apply lit_i_shape in M. rewrite placeholder_canonical in M.
  destruct (placeholder_head j) as [tl Ej]. rewrite Ej in M.
  destruct m as [|c' m]; [discriminate|]. simpl in E, M.
  inversion E; subst c'. inversion M. congruence.
Qed.

Lemma no_match_inside j k c v X :
  wf (Tok k c v :: X) -> k <> j -> digits_then_tok 0 X = false ->
  forall v1 v2, v = v1 ++ v2 -> v2 <> [] ->
  match_at (lit_i (placeholder_of j)) (v2 ++ render X) = None.
Proof.
  intros H Hkj Hb v1 v2 Ev Hv2. apply wf_Tok in H as (Hv & _ & HX).
  apply match_at_None. intros m rest E M.
  apply lit_i_shape in M. rewrite placeholder_canonical in M.
  apply (f_equal (List.map Canonicalize)) in E. rewrite !map_app, <- M in E.
  rewrite Ev, map_app in Hv.
  apply (folded_no_match j k (List.map Canonicalize v1) (List.map Canonicalize v2)
           (List.map Canonicalize (render X)) (List.map Canonicalize rest)); auto.
  - destruct v2; [congruence|discriminate].
  - now apply folded_first_H.
  - now apply folded_no_bridge.
Qed.

Lemma match_at_token j v x :
  List.map Canonicalize v = placeholder_of j ->
  match_at (lit_i (placeholder_of j)) (v ++ x) = Some (v, x).
Proof.
  intros Hv. apply match_at_unique; [apply lit_i_prefix_unique| |reflexivity].
  apply lit_i_shape. now rewrite placeholder_canonical.
Qed.

Lemma no_bridge_tail it X : no_bridge (it :: X) = true -> no_bridge X = true.
Proof.
  destruct it; simpl; [auto|]. intros H. now apply andb_true_iff in H as [_ H].
Qed.

(** Restoring one entry replaces the placeholders of its ordinal, however
    spelled, and nothing else. *)
Lemma restore_step j cj : forall X,
  wf X -> no_bridge X = true ->
  (forall c v, In (Tok j c v) X -> c = cj) ->
  scan (lit_i (placeholder_of j)) (fun _ (u : unit) => (cj, u)) (render X) tt
  = (render (restore_tok j X), tt).
Proof.
  induction X as [|[c|k c v] X IH]; intros H Hb Hc.
  - simpl. apply scan_nil. apply lit_i_placeholder_not_nil.
  - pose proof (wf_Plain _ _ H) as [Hp HX].
    change (render (Plain c :: X)) with (c :: render X).
    change (restore_tok j (Plain c :: X)) with (Plain c :: restore_tok j X).
    rewrite scan_miss by now apply no_match_at_plain.
    rewrite IH; [reflexivity|assumption| |].
    + now apply no_bridge_tail in Hb.
    + intros c' v' Hin. apply (Hc c' v'). now right.
  - pose proof (wf_Tok _ _ _ _ H) as (Hv & Hok & HX).
    assert (Hb' : no_bridge X = true) by now apply no_bridge_tail in Hb.
    assert (Hc' : forall c' v', In (Tok j c' v') X -> c' = cj)
      by (intros c' v' Hin; apply (Hc c' v'); now right).
    change (render (Tok k c v :: X)) with (v ++ render X).
    change (restore_tok j (Tok k c v :: X))
      with ((if Nat.eqb k j then List.map Plain c else [Tok k c v]) ++ restore_tok j X).
    destruct (Nat.eqb_spec k j) as [->|Hkj].
    + rewrite (scan_hit _ _ _ (lit_i_placeholder_not_nil j) _ _ _ _
                 (match_at_token j v (render X) Hv)).
      cbn [fst snd]. rewrite IH by auto. cbn [fst snd].
      rewrite render_app, render_plain. rewrite (Hc c v) by now left. reflexivity.
    + rewrite scan_pass_over.
      * rewrite IH by auto. reflexivity.
      * apply (no_match_inside j k c v X); auto.
        simpl in Hb. apply andb_true_iff in Hb as [Hb _].
        now apply negb_true_iff in Hb.
Qed.

Lemma restore_entry_step j cj X :
  wf X -> no_bridge X = true -> no_dollar_pattern cj = true ->
  (forall c v, In (Tok j c v) X -> c = cj) ->
  restore_entry (render X) (placeholder_of j, cj) = render (restore_tok j X).
Proof.
  intros H Hb Hd Hc. unfold restore_entry. cbn [fst snd].
  rewrite RegExp_gi_escape, replace_str_const.
  - now rewrite restore_step.
  - intros m b a. now apply GetSubstitution_plain.
Qed.

(** *** What restoring one entry keeps *)

Lemma content_ok_parts c :
  content_ok c = true ->
  clean c = true /\ no_fullwidth c = true /\ no_dollar_pattern c = true
  /\ exists x c', c = x :: c' /\ is_open x = true.
Proof.
  unfold content_ok. intros H.
  apply andb_true_iff in H as [H H4]. apply andb_true_iff in H as [H H3].
  apply andb_true_iff in H as [H1 H2]. repeat split; auto.
  destruct c as [|x c']; [discriminate|eauto].
Qed.

Lemma wf_app X Y : wf (X ++ Y) <-> wf X /\ wf Y.
Proof. unfold wf. rewrite forallb_app. apply andb_true_iff. Qed.

Lemma wf_plain c : clean c = true -> wf (List.map Plain c).
Proof.
  unfold wf, clean. induction c as [|x c IH]; simpl; [reflexivity|].
  intros H. apply andb_true_iff in H as [Hx Hc]. now rewrite Hx, IH.
Qed.

Lemma wf_restore j X : wf X -> wf (restore_tok j X).
Proof.
  induction X as [|[c|k c v] X IH]; intros H; [exact H| |].
  - apply wf_cons in H as [Hc HX].
    change (restore_tok j (Plain c :: X)) with (Plain c :: restore_tok j X).
    apply wf_cons. auto.
  - pose proof (wf_Tok _ _ _ _ H) as (_ & Hok & HX).
    change (restore_tok j (Tok k c v :: X))
      with ((if Nat.eqb k j then List.map Plain c else [Tok k c v]) ++ restore_tok j X).
    apply wf_app. split; [|auto].
    destruct (Nat.eqb k j).
    + apply wf_plain. now apply content_ok_parts in Hok.
    + apply wf_cons in H as [H _]. apply wf_cons. split; [exact H|reflexivity].
Qed.

Lemma open_not_digit x : is_open x = true -> is_digit x = false.
Proof.
  intros H. destruct (is_digit x) eqn:E; [|reflexivity]. exfalso.
  unfold is_open in H. classes.
Qed.

Lemma digits_then_tok_restore j X : forall n,
  wf X -> digits_then_tok n (restore_tok j X) = true -> digits_then_tok n X = true.
Proof.
  induction X as [|[c|k c v] X IH]; intros n H Hd; [exact Hd| |].
  - apply wf_cons in H as [_ HX].
    change (restore_tok j (Plain c :: X)) with (Plain c :: restore_tok j X) in Hd.
    cbn [digits_then_tok] in *. apply andb_true_iff in Hd as [Hc Hd].
    rewrite Hc. simpl. now apply IH.
  - pose proof (wf_Tok _ _ _ _ H) as (_ & Hok & HX).
    change (restore_tok j (Tok k c v :: X))
      with ((if Nat.eqb k j then List.map Plain c else [Tok k c v]) ++ restore_tok j X)
      in Hd.
    destruct (Nat.eqb k j).
    + apply content_ok_parts in Hok as (_ & _ & _ & x & c' & -> & Hx).
      simpl in Hd. rewrite (open_not_digit _ Hx) in Hd. discriminate.
    + exact Hd.
Qed.

Lemma no_bridge_plain c : forall X, no_bridge (List.map Plain c ++ X) = no_bridge X.
Proof. induction c as [|x c IH]; intros X; simpl; auto. Qed.

Lemma no_bridge_restore j X :
  wf X -> no_bridge X = true -> no_bridge (restore_tok j X) = true.
Proof.
  induction X as [|[c|k c v] X IH]; intros H Hb; [exact Hb| |].
  - apply wf_cons in H as [_ HX]. simpl in *. auto.
  - pose proof (wf_Tok _ _ _ _ H) as (_ & Hok & HX).
    change (restore_tok j (Tok k c v :: X))
      with ((if Nat.eqb k j then List.map Plain c else [Tok k c v]) ++ restore_tok j X).
    simpl in Hb. apply andb_true_iff in Hb as [Hd Hb].
    destruct (Nat.eqb k j).
    + rewrite no_bridge_plain. auto.
    + simpl. rewrite (IH HX Hb), andb_true_r.
      apply negb_true_iff in Hd. apply negb_true_iff.
      destruct (digits_then_tok 0 (restore_tok j X)) eqn:E; [|reflexivity].
      apply digits_then_tok_restore in E; [congruence|exact HX].
Qed.

Lemma original_restore j X : original (restore_tok j X) = original X.
Proof.
  induction X as [|[c|k c v] X IH]; [reflexivity| |].
  - change (restore_tok j (Plain c :: X)) with (Plain c :: restore_tok j X).
    simpl. now rewrite IH.
  - change (restore_tok j (Tok k c v :: X))
      with ((if Nat.eqb k j then List.map Plain c else [Tok k c v]) ++ restore_tok j X).
    rewrite original_app, IH. destruct (Nat.eqb k j); simpl.
    + now rewrite original_plain.
    + now rewrite app_nil_r.
Qed.

Lemma In_restore j k c v X :
  In (Tok k c v) (restore_tok j X) -> In (Tok k c v) X /\ k <> j.
Proof.
  induction X as [|[c0|k0 c0 v0] X IH]; intros H; [destruct H| |].
  - change (restore_tok j (Plain c0 :: X)) with (Plain c0 :: restore_tok j X) in H.
    destruct H as [H|H]; [discriminate|]. apply IH in H as [H Hk]. split; [now right|auto].
  - change (restore_tok j (Tok k0 c0 v0 :: X))
      with ((if Nat.eqb k0 j then List.map Plain c0 else [Tok k0 c0 v0])
            ++ restore_tok j X) in H.
    apply in_app_or in H as [H|H].
    + destruct (Nat.eqb_spec k0 j) as [->|Hne].
      * apply in_map_iff in H as (x & Hx & _). discriminate.
      * destruct H as [H|[]]. inversion H; subst. split; [now left|auto].
    + apply IH in H as [H Hk]. split; [now right|auto].
Qed.

Lemma no_tok_render X :
  (forall k c v, ~ In (Tok k c v) X) -> render X = original X.
Proof.
  induction X as [|[c|k c v] X IH]; intros H; [reflexivity| |].
  - simpl. f_equal. apply IH. intros k c' v Hin. apply (H k c' v). now right.
  - exfalso. apply (H k c v). now left.
Qed.

(** *** All the entries, in the order of the record *)

Lemma restore_all : forall L s X,
  wf X -> no_bridge X = true ->
  Forall (fun c => no_dollar_pattern c = true) L ->
  (forall k c v, In (Tok k c v) X -> (s <= k)%nat /\ nth_error L (k - s) = Some c) ->
  fold_left restore_entry (entries s L) (render X) = original X.
Proof.
  induction L as [|c0 L IH]; intros s X H Hb HL Ht.
  - simpl. apply no_tok_render. intros k c v Hin.
    apply Ht in Hin as [_ Hin]. now destruct (k - s)%nat.
  - cbn [entries fold_left]. inversion HL as [|? ? Hc0 HL']; subst.
    rewrite restore_entry_step; auto.
    + rewrite IH; auto using wf_restore, no_bridge_restore, original_restore.
      intros k c v Hin. apply In_restore in Hin as [Hin Hk].
      apply Ht in Hin as [Hs Hn]. split; [lia|].
      replace (k - s)%nat with (S (k - S s)) in Hn by lia. exact Hn.
    + intros c v Hin. apply Ht in Hin as [_ Hn].
      rewrite Nat.sub_diag in Hn. simpl in Hn. congruence.
Qed.

Lemma repair_restored X :
  wf X -> List.map repair_colon (original X) = restored X.
Proof.
  induction X as [|[c|k c v] X IH]; intros H; [reflexivity| |].
  - apply wf_cons in H as [_ HX]. simpl. now rewrite IH.
  - pose proof (wf_Tok _ _ _ _ H) as (_ & Hok & HX).
    simpl. rewrite map_app, IH by assumption. f_equal.
    apply content_ok_parts in Hok as (_ & Hf & _).
    clear -Hf. induction c as [|x c IH]; [reflexivity|].
    simpl in *. apply andb_true_iff in Hf as [Hx Hc]. rewrite IH by assumption.
    unfold repair_colon. apply negb_true_iff in Hx. now rewrite Hx.
Qed.

(** [restoreHtmlContent] on a well-formed text: every placeholder of the
    record gives way to its fragment, and every full-width colon that is
    left becomes a colon. *)
Lemma restore_items L X :
  wf X -> no_bridge X = true ->
  Forall (fun c => no_dollar_pattern c = true) L ->
  (forall k c v, In (Tok k c v) X -> nth_error L k = Some c) ->
  restoreHtmlContent (render X) (record_of L) = restored X.
Proof.
  intros H Hb HL Ht. unfold restoreHtmlContent. cbn [placeholders record_of].
  rewrite restore_all; auto.
  - rewrite repair_all. now apply repair_restored.
  - intros k c v Hin. split; [lia|]. rewrite Nat.sub_0_r. eauto.
Qed.

(** *** The fragments of a text *)

Lemma found_occurs r (Hne : ~ Matches r []) t :
  Forall (fun m => occurs_in m t) (found r t).
Proof.
  induction t as [| c t Hc IH | m rest Hm Hn IH] using (scan_ind r Hne).
  - rewrite found_nil by assumption. constructor.
  - rewrite found_miss by assumption. eapply Forall_impl; [|exact IH].
    intros m. apply occurs_in_cons.
  - rewrite found_hit by assumption. constructor.
    + exists [], rest. reflexivity.
    + eapply Forall_impl; [|exact IH]. intros m'. apply occurs_in_app.
Qed.

Lemma fragments_ok_parts text :
  fragments_ok text = true ->
  clean text = true /\ no_fullwidth text = true /\ no_dollar_pattern text = true.
Proof.
  unfold fragments_ok. intros H.
  apply andb_true_iff in H as [H H3]. apply andb_true_iff in H as [H1 H2]. auto.
Qed.

Lemma forallb_infix (p : char -> bool) a c b :
  forallb p (a ++ c ++ b) = true -> forallb p c = true.
Proof.
  rewrite !forallb_app. intros H.
  apply andb_true_iff in H as [_ H]. now apply andb_true_iff in H as [H _].
Qed.

Lemma tag_content_ok text m :
  fragments_ok text = true -> occurs_in m text -> Matches TAGS m -> content_ok m = true.
Proof.
  intros H (b & a & ->) M. apply fragments_ok_parts in H as (H1 & H2 & H3).
  apply TAGS_shape, tag_body in M as (body & -> & _).
  unfold content_ok, clean, no_fullwidth in *.
  rewrite (forallb_infix _ _ _ _ H1), (forallb_infix _ _ _ _ H2).
  now rewrite (no_dollar_infix _ _ _ H3).
Qed.

Lemma no_dollar_of_no_36 m :
  forallb (fun c => negb (c =? 36)) m = true -> no_dollar_pattern m = true.
Proof.
  induction m as [|c m IH]; [reflexivity|]. simpl. intros H.
  apply andb_true_iff in H as [Hc Hm]. apply negb_true_iff in Hc.
  rewrite Hc. simpl. auto.
Qed.

Lemma entity_content_ok m : Matches ENTITIES m -> content_ok m = true.
Proof.
  intros M. apply ENTITIES_body in M as (body & -> & Hb & _).
  assert (P : forall p : char -> bool,
            p 38 = true -> p 59 = true ->
            (forall c, ent_char c = true -> p c = true) ->
            forallb p (38 :: body ++ [59]) = true).
  { intros p H38 H59 Hp. simpl. rewrite H38, forallb_app. simpl.
    rewrite H59, (forallb_impl _ _ _ Hp Hb). reflexivity. }
  unfold content_ok, clean, no_fullwidth.
  rewrite no_dollar_of_no_36.
  - rewrite !P; try reflexivity; intros c Hc; unfold is_H; classes.
  - apply P; try reflexivity. intros c Hc. classes.
Qed.

Lemma colon_content_ok m : Matches COLON m -> content_ok m = true.
Proof. intros M. inversion M. reflexivity. Qed.

Lemma preserve_record text : snd (preserveHtmlContent text) = record_of (fragments text).
Proof. rewrite preserve_passes. apply after_colons_record. Qed.

Lemma fragments_content_ok text :
  fragments_ok text = true -> Forall (fun c => content_ok c = true) (fragments text).
Proof.
  intros H. unfold fragments. apply Forall_app. split; [|apply Forall_app; split].
  - pose proof (found_occurs TAGS TAGS_never_empty text) as Ho.
    pose proof (found_Matches TAGS TAGS_never_empty text) as Hm.
    rewrite Forall_forall in *. intros m Hin. eapply tag_content_ok; eauto.
  - eapply Forall_impl; [|apply (found_Matches ENTITIES ENTITIES_never_empty)].
    apply entity_content_ok.
  - eapply Forall_impl; [|apply (found_Matches COLON (Chr_never_empty 58))].
    apply colon_content_ok.
Qed.

Lemma entries_lookup k c : forall L s,
  In (placeholder_of k, c) (entries s L) ->
  (s <= k)%nat /\ nth_error L (k - s) = Some c.
Proof.
  induction L as [|m L IH]; intros s H; [destruct H|].
  destruct H as [H|H].
  - apply pair_equal_spec in H as [Ek Ec]. apply placeholder_of_inj in Ek. subst.
    rewrite Nat.sub_diag. auto.
  - apply IH in H as [Hs Hn]. split; [lia|].
    replace (k - s)%nat with (S (k - S s)) by lia. exact Hn.
Qed.

(** *** Texts made of placeholders of a record *)

Lemma stands_for_lookup text it :
  stands_for (snd (preserveHtmlContent text)) it = true ->
  match it with
  | Plain c => is_H c = false
  | Tok k c v => same_folded v (placeholder_of k) = true
                 /\ nth_error (fragments text) k = Some c
  end.
Proof.
  rewrite preserve_record. destruct it as [c|k c v]; simpl.
  - apply negb_true_iff.
  - intros H. apply andb_true_iff in H as [Hv H]. split; [exact Hv|].
    apply existsb_exists in H as ([key val] & Hin & H). simpl in H.
    apply andb_true_iff in H as [H1 H2].
    apply jsstring_eqb_eq in H1, H2. subst.
    apply entries_lookup in Hin as [_ Hin]. now rewrite Nat.sub_0_r in Hin.
Qed.

Lemma stands_for_wf text X :
  fragments_ok text = true ->
  forallb (stands_for (snd (preserveHtmlContent text))) X = true ->
  wf X /\ forall k c v, In (Tok k c v) X -> nth_error (fragments text) k = Some c.
Proof.
  intros Hok. pose proof (fragments_content_ok text Hok) as HL.
  rewrite Forall_forall in HL.
  induction X as [|it X IH]; intros H; [split; [reflexivity|intros k c v []]|].
  simpl in H. apply andb_true_iff in H as [Hit HX].
  destruct (IH HX) as [Hwf Ht]. apply stands_for_lookup in Hit. split.
  - apply wf_cons. split; [|exact Hwf]. destruct it as [c|k c v]; simpl.
    + now rewrite Hit.
    + destruct Hit as [Hv Hn]. rewrite Hv. simpl.
      apply HL. eapply nth_error_In; eauto.
  - intros k c v [->|Hin]; [now destruct Hit|eauto].
Qed.

(** *** The text [preserveHtmlContent] returns *)

Lemma same_folded_refl v : same_folded v v = true.
Proof. unfold same_folded. now apply jsstring_eqb_eq. Qed.

(** Decoding a text in which the placeholders of the record stand in any
    spelling. *)
Lemma restore_spelled text X :
  fragments_ok text = true ->
  forallb (stands_for (snd (preserveHtmlContent text))) X = true ->
  no_bridge X = true ->
  restoreHtmlContent (render X) (snd (preserveHtmlContent text)) = restored X.
Proof.
  intros Hok HX Hb. destruct (stands_for_wf text X Hok HX) as [Hwf Ht].
  rewrite preserve_record. apply restore_items; auto.
  eapply Forall_impl; [|exact (fragments_content_ok text Hok)].
  intros c Hc. now apply content_ok_parts in Hc.
Qed.

(** *** Texts that do not come back

    A placeholder already in the text; a "$" sequence in a tag, which
    [String.prototype.replace] expands; and digits between two fragments
    that read as the ordinal of a placeholder between the closing
    delimiter of one placeholder and the opening delimiter of the next. *)

Example placeholder_in_text_does_not_come_back :
  let text := placeholder_of 0 ++ str ":" in
  restoreHtmlContent (fst (preserveHtmlContent text)) (snd (preserveHtmlContent text))
  = str "::".
Proof. reflexivity. Qed.

Example dollar_sequence_does_not_come_back :
  let text := str "<a title='$&'>" in
  restoreHtmlContent (fst (preserveHtmlContent text)) (snd (preserveHtmlContent text))
  = str "<a title='" ++ placeholder_of 0 ++ str "'>".
Proof. reflexivity. Qed.

Example digits_between_fragments_do_not_come_back :
  let text := str ":000<b>" in
  fst (preserveHtmlContent text) = placeholder_of 1 ++ str "000" ++ placeholder_of 0
  /\ restoreHtmlContent (fst (preserveHtmlContent text)) (snd (preserveHtmlContent text))
     = [294; 272; 321; 88; 294] ++ str "001<b>000" ++ [294; 272; 321; 88; 294].
Proof. split; reflexivity. Qed.

End Decoder.

(** ** The sanitizer *)

Module Sanitizer.
Import JS HtmlUtils Spec Engine Patterns Passthrough Detector SelfClosingTags.

#[local] Hint Constructors Matches : core.

Lemma alternatives_shape ns : forall n u,
  Matches (alternatives n ns) u <-> exists n', In n' (n :: ns) /\ Matches (lit_i n') u.
Proof.
  induction ns as [|n2 ns IH]; intros n u; simpl.
  - split.
    + intros H. exists n. auto.
    + intros (n' & [->|[]] & H). exact H.
  - split.
    + intros H. inversion H; subst.
      * exists n. auto.
      * match goal with H' : Matches (alternatives _ _) _ |- _ =>
          apply IH in H' as (n' & Hin & M) end.
        exists n'. split; [now right|exact M].
    + intros (n' & [->|Hin] & M); [auto|].
      apply M_AltR. apply IH. exists n'. auto.
Qed.

Lemma safe_name_matches u :
  Matches (alternatives (str "strong") (tl SAFE_NAMES)) u <-> on_allow_list u = true.
Proof.
  rewrite alternatives_shape. unfold on_allow_list. rewrite existsb_exists.
  change (str "strong" :: tl SAFE_NAMES) with SAFE_NAMES.
  split; intros (n & Hin & H); exists n; (split; [exact Hin|]).
  - apply lit_i_shape in H. now apply jsstring_eqb_eq.
  - apply lit_i_shape. now apply jsstring_eqb_eq.
Qed.

Lemma Canonicalize_fixed x c :
  c < 65 -> Canonicalize c = Canonicalize x -> x = c.
Proof.
  intros Hc E.
  assert (Hc' : Canonicalize c = c)
    by (rewrite Canonicalize_ascii by lia; unfold in_range;
        destruct ((97 <=? c) && (c <=? 122)) eqn:E'; [classes|reflexivity]).
  assert (x < 128) by (apply Canonicalize_below; rewrite <- E, Hc'; lia).
  rewrite Hc', Canonicalize_ascii in E by assumption. unfold in_range in E.
  destruct ((97 <=? x) && (x <=? 122)) eqn:E'; classes.
Qed.

Lemma folded_letter x l :
  in_range 97 122 l = true -> Canonicalize l = Canonicalize x -> is_alpha x = true.
Proof.
  intros Hl E.
  assert (El : Canonicalize l = l - 32)
    by (rewrite Canonicalize_ascii by classes; now rewrite Hl).
  assert (x < 128) by (apply Canonicalize_below; rewrite <- E, El; classes).
  rewrite El, Canonicalize_ascii in E by assumption. unfold in_range in E.
  destruct ((97 <=? x) && (x <=? 122)) eqn:E'; classes.
Qed.

Lemma safe_names_lower : forall n, In n SAFE_NAMES -> forallb (in_range 97 122) n = true.
Proof.
  apply forallb_forall. reflexivity.
Qed.

Lemma allow_listed_alpha u : on_allow_list u = true -> forallb is_alpha u = true /\ u <> [].
Proof.
  unfold on_allow_list. rewrite existsb_exists. intros (n & Hin & H).
  apply jsstring_eqb_eq in H. pose proof (safe_names_lower n Hin) as Hl.
  assert (Hne : n <> []).
  { intros ->. revert Hin. unfold SAFE_NAMES. simpl. intuition discriminate. }
  clear Hin. split.
  - revert u H. induction n as [|l n IH]; intros [|x u] H; simpl in *; try discriminate; auto.
    inversion H. apply andb_true_iff in Hl as [Hl Hn].
    rewrite (folded_letter x l Hl) by assumption. simpl.
    destruct n as [|l2 n]; [destruct u; [reflexivity|discriminate]|].
    apply IH; auto. discriminate.
  - intros ->. destruct n; [congruence|discriminate].
Qed.

Lemma take_while_run p u r :
  forallb p u = true -> (forall c r', r = c :: r' -> p c = false) ->
  take_while p (u ++ r) = u.
Proof.
  intros Hu Hr. induction u as [|c u IH]; simpl.
  - destruct r as [|c r']; [reflexivity|]. simpl. now rewrite (Hr c r' eq_refl).
  - simpl in Hu. apply andb_true_iff in Hu as [Hc Hu]. rewrite Hc. now rewrite IH.
Qed.

Lemma attrs_then_gt_not_alnum attrs tail c r :
  attrs_ok attrs = true -> attrs ++ 62 :: tail = c :: r -> is_alnum c = false.
Proof.
  intros Hat E. destruct attrs as [|w attrs']; simpl in *; inversion E; subst.
  - reflexivity.
  - apply andb_true_iff in Hat as [Hw _]. now apply space_not_alnum.
Qed.

Lemma tag_name_shape slash a name attrs :
  slash = [] \/ slash = [47] ->
  is_alpha a = true -> forallb is_alnum name = true -> attrs_ok attrs = true ->
  tag_name (60 :: slash ++ a :: name ++ attrs ++ [62]) = a :: name.
Proof.
  intros Hs Ha Hn Hat.
  assert (T : take_while is_alnum ((a :: name) ++ attrs ++ [62]) = a :: name).
  { apply take_while_run.
    - simpl. rewrite Hn. unfold is_alnum. now rewrite Ha.
    - intros c r' E. eapply attrs_then_gt_not_alnum; eauto. }
  destruct Hs as [-> | ->]; unfold tag_name.
  - rewrite app_nil_l. destruct (a =? 47) eqn:E; [classes|]. exact T.
  - change ([47] ++ a :: name ++ attrs ++ [62]) with (47 :: (a :: name) ++ attrs ++ [62]).
    change (47 =? 47) with true. exact T.
Qed.

Lemma five_parts A B u :
  Matches (Cat (ChrI 60) (Cat (Opt (ChrI 47)) (Cat A (Cat B (ChrI 62))))) u ->
  exists c0 sl nm at_ c,
    u = c0 :: sl ++ nm ++ at_ ++ [c]
    /\ Canonicalize 60 = Canonicalize c0
    /\ (sl = [] \/ exists z, sl = [z] /\ Canonicalize 47 = Canonicalize z)
    /\ Matches A nm /\ Matches B at_ /\ Canonicalize 62 = Canonicalize c.
Proof.
  intros H.
  repeat match goal with
  | H : Matches (Cat _ _) _ |- _ => inversion H; subst; clear H
  | H : Matches (ChrI _) _ |- _ => inversion H; subst; clear H
  end.
  match goal with
  | H1 : Matches (Opt (ChrI 47)) ?sl, H2 : Matches A ?nm, H3 : Matches B ?at_,
    H4 : Canonicalize 60 = Canonicalize ?c0, H5 : Canonicalize 62 = Canonicalize ?c |- _ =>
      exists c0, sl, nm, at_, c; repeat split; auto;
      inversion H1; subst; [right|now left];
      match goal with H' : Matches (ChrI 47) _ |- _ => inversion H'; subst end;
      eexists; eauto
  end.
Qed.

Lemma attrs_shape u :
  Matches (Opt (Cat (PlusC is_space) (StarC not_gt))) u <-> attrs_ok u = true.
Proof.
  split.
  - intros H. inversion H; subst; [|reflexivity].
    repeat match goal with
    | H : Matches (Cat _ _) _ |- _ => inversion H; subst; clear H
    | H : Matches (StarC _) _ |- _ => inversion H; subst; clear H
    | H : Matches (PlusC _) _ |- _ => inversion H; subst; clear H
    end.
    simpl. apply andb_true_iff. split; [assumption|].
    rewrite forallb_app. apply andb_true_iff. split; [|assumption].
    eapply forallb_impl; [apply space_not_gt|assumption].
  - intros H. destruct u as [|w rest]; [auto|].
    simpl in H. apply andb_true_iff in H as [Hw Hr].
    apply M_OptSome. change (w :: rest) with ([w] ++ rest). auto.
Qed.

(** [SAFE_TAGS] accepts a tag match exactly when its name is listed. *)
Lemma SAFE_TAGS_allow_list m :
  tag_shape m -> test_anchored SAFE_TAGS m = on_allow_list (tag_name m).
Proof.
  intros [slash a name attrs Hs Ha Hn Hat].
  rewrite tag_name_shape by assumption.
  unfold test_anchored.
  destruct (on_allow_list (a :: name)) eqn:Hallow.
  - destruct (match_at SAFE_TAGS (60 :: slash ++ a :: name ++ attrs ++ [62])) eqn:E;
      [reflexivity|]. exfalso.
    apply (proj1 (match_at_None _ _) E (60 :: slash ++ a :: name ++ attrs ++ [62]) []);
      [now rewrite app_nil_r|].
    change (60 :: slash ++ a :: name ++ attrs ++ [62])
      with ([60] ++ slash ++ (a :: name) ++ attrs ++ [62]).
    unfold SAFE_TAGS. repeat apply M_Cat; auto.
    + destruct Hs as [-> | ->]; auto.
    + now apply safe_name_matches.
    + now apply attrs_shape.
  - destruct (match_at SAFE_TAGS (60 :: slash ++ a :: name ++ attrs ++ [62]))
      as [[u rest]|] eqn:E; [|reflexivity]. exfalso.
    apply match_at_Some in E as [M E]. unfold SAFE_TAGS in M.
    apply five_parts in M as (c0 & sl & nm & at_ & c & -> & H60 & Hsl & Hnm & Hat' & H62).
    apply safe_name_matches in Hnm. apply attrs_shape in Hat'.
    destruct (allow_listed_alpha _ Hnm) as [Halpha Hne].
    assert (c = 62) by (apply Canonicalize_fixed; [lia|assumption]). subst c.
    assert (c0 = 60) by (apply Canonicalize_fixed; [lia|assumption]). subst c0.
    assert (Hsl' : sl = [] \/ sl = [47]).
    { destruct Hsl as [->|(z & -> & Hz)]; [now left|right].
      f_equal. apply Canonicalize_fixed; [lia|assumption]. }
    clear Hsl H60 H62.
    simpl in E. inversion E as [E']. clear E. rewrite <- !app_assoc in E'.
    assert (Hnm' : forallb is_alnum nm = true).
    { eapply forallb_impl; [|exact Halpha]. intros x Hx. unfold is_alnum. now rewrite Hx. }
    assert (E2 : (a :: name) ++ attrs ++ [62] = nm ++ at_ ++ [62] ++ rest).
    { destruct Hs as [-> | ->], Hsl' as [-> | ->]; simpl in E'.
      - exact E'.
      - inversion E'; subst. classes.
      - destruct nm as [|x nm']; [congruence|]. simpl in E'. inversion E'; subst.
        simpl in Halpha. discriminate.
      - now inversion E'. }
    destruct (run_unique is_alnum (a :: name) nm (attrs ++ [62]) (at_ ++ [62] ++ rest))
      as [E3 _]; auto.
    + simpl. rewrite Hn. unfold is_alnum. now rewrite Ha.
    + intros x r Hx. exact (attrs_then_gt_not_alnum attrs [] x r Hat Hx).
    + intros x r Hx. exact (attrs_then_gt_not_alnum at_ rest x r Hat' Hx).
    + subst nm. congruence.
Qed.

End Sanitizer.

(** ** Further lemmas *)

Module Further.
Import JS HtmlUtils Spec Engine Patterns Passthrough Detector SelfClosingTags Encoder
  Items Decoder Sanitizer.

(** *** The detector in any pattern state *)

Lemma test_g_true r t i : fst (test_g r t i) = true -> matches_in r t.
Proof.
  unfold test_g. destruct (length t <? i)%nat; [discriminate|].
  destruct (search r (skipn i t)) as [[m rest]|] eqn:E; [|discriminate].
  intros _. apply search_Some in E as (b & E & M).
  apply (matches_in_skipn r i). exists b, m, rest. auto.
Qed.

Lemma test_g_false r t i : fst (test_g r t i) = false -> snd (test_g r t i) = 0%nat.
Proof.
  unfold test_g. destruct (length t <? i)%nat; [reflexivity|].
  destruct (search r (skipn i t)) as [[m rest]|]; [discriminate|reflexivity].
Qed.

Lemma containsHtmlContent_true text ps :
  fst (containsHtmlContent text ps) = true ->
  matches_in TAGS text \/ matches_in ENTITIES text.
Proof.
  unfold containsHtmlContent.
  destruct (test_g TAGS text (TAGS_lastIndex ps)) as [b1 i1] eqn:E1.
  destruct b1.
  - intros _. left. apply (test_g_true TAGS text (TAGS_lastIndex ps)). now rewrite E1.
  - destruct (test_g ENTITIES text (ENTITIES_lastIndex ps)) as [b2 i2] eqn:E2.
    cbn [fst]. intros ->. right.
    apply (test_g_true ENTITIES text (ENTITIES_lastIndex ps)). now rewrite E2.
Qed.

Lemma containsHtmlContent_false text ps :
  fst (containsHtmlContent text ps) = false ->
  snd (containsHtmlContent text ps) = initial.
Proof.
  unfold containsHtmlContent.
  destruct (test_g TAGS text (TAGS_lastIndex ps)) as [b1 i1] eqn:E1.
  destruct b1; [discriminate|].
  destruct (test_g ENTITIES text (ENTITIES_lastIndex ps)) as [b2 i2] eqn:E2.
  cbn [fst snd]. intros ->.
  pose proof (test_g_false TAGS text (TAGS_lastIndex ps)) as H1.
  pose proof (test_g_false ENTITIES text (ENTITIES_lastIndex ps)) as H2.
  rewrite E1 in H1. rewrite E2 in H2. cbn [fst snd] in *.
  now rewrite H1, H2.
Qed.

(** *** What the encoder stores and what it leaves *)

Lemma matches_in_nil r : ~ Matches r [] -> ~ matches_in r [].
Proof.
  intros Hne (b & m & a & E & M). symmetry in E.
  apply app_eq_nil in E as [_ E]. apply app_eq_nil in E as [-> _]. contradiction.
Qed.

(** A scan that comes upon no match ran over a text that holds none. *)
Lemma found_none r (Hne : ~ Matches r []) t : found r t = [] -> ~ matches_in r t.
Proof.
  induction t as [| c t Hc IH | m rest Hm Hn IH] using (scan_ind r Hne).
  - intros _. now apply matches_in_nil.
  - rewrite found_miss by assumption. intros H Hin.
    apply matches_in_uncons in Hin as [(m & rest & E & M)|Hin].
    + rewrite match_at_None in Hc. exact (Hc m rest E M).
    + exact (IH H Hin).
  - rewrite found_hit by assumption. discriminate.
Qed.

Lemma entries_nil s L : entries s L = [] -> L = [].
Proof. destruct L; [reflexivity|discriminate]. Qed.

Lemma fragments_none text : fragments text = [] -> no_fragment text.
Proof.
  unfold fragments. intros H.
  apply app_eq_nil in H as [Ht H]. apply app_eq_nil in H as [He Hc].
  pose proof (found_none TAGS TAGS_never_empty text Ht) as NT.
  assert (E1 : fst (after_tags text) = text).
  { unfold after_tags. now rewrite (scan_no_match _ _ _ TAGS_never_empty). }
  rewrite E1 in He.
  pose proof (found_none ENTITIES ENTITIES_never_empty text He) as NE.
  assert (E2 : fst (after_entities text) = text).
  { unfold after_entities. rewrite E1.
    now rewrite (scan_no_match _ _ _ ENTITIES_never_empty). }
  rewrite E2 in Hc.
  pose proof (found_none COLON (Chr_never_empty 58) text Hc) as NC.
  repeat split; auto. now rewrite <- matches_in_Chr.
Qed.

Lemma entries_nth c : forall L s k,
  nth_error L k = Some c -> In (placeholder_of (s + k), c) (entries s L).
Proof.
  induction L as [|m L IH]; intros s [|k] H; simpl in *; try discriminate.
  - inversion H; subst. left. now rewrite Nat.add_0_r.
  - right. replace (s + S k)%nat with (S s + k)%nat by lia. now apply IH.
Qed.

Lemma entries_In key c : forall L s, In (key, c) (entries s L) -> In c L.
Proof.
  induction L as [|m L IH]; intros s H; simpl in *; [contradiction|].
  destruct H as [H|H]; [inversion H; now left|right; eauto].
Qed.

(** A string that starts with a character no placeholder holds does not
    start inside a run of placeholder characters. *)
Lemma occurs_in_skip key c key' u : forall t,
  key = c :: key' -> is_token_char c = false -> forallb is_token_char u = true ->
  occurs_in key (u ++ t) -> occurs_in key t.
Proof.
  induction u as [|x u IH]; intros t Ek Hc Hu H; [exact H|].
  simpl in Hu. apply andb_true_iff in Hu as [Hx Hu].
  destruct H as (b & a & E). destruct b as [|y b].
  - subst key. simpl in E. inversion E; subst. congruence.
  - simpl in E. inversion E; subst. apply (IH t eq_refl Hc Hu). now exists b, a.
Qed.

(** What occurs in the text after a pass, holds no U+0126 and starts with
    a character no placeholder holds, occurs in the text before it. *)
Lemma Replaced_occurs F K key c key' t o :
  key = c :: key' -> is_token_char c = false -> ~ In 294 key ->
  Replaced F K t o -> occurs_in key o -> occurs_in key t.
Proof.
  intros Ek Hc Hk R. induction R as [| x t o Kx R IH | m n t o Fm R IH]; intros H.
  - destruct H as (b & a & E). subst key. destruct b; discriminate.
  - destruct H as (b & a & E). destruct b as [|y b].
    + simpl in E.
      assert (R' : Replaced F K (x :: t) (key ++ a))
        by (rewrite <- E; now constructor).
      apply Replaced_prefix in R' as (t' & Et & _); [|assumption].
      exists [], t'. exact Et.
    + simpl in E. inversion E; subst. apply occurs_in_cons. apply IH. now exists b, a.
  - apply occurs_in_app. apply IH.
    apply (occurs_in_skip key c key' (placeholder_of n)); auto.
    apply placeholder_chars.
Qed.

Lemma entity_head m :
  Matches ENTITIES m -> exists m', m = 38 :: m' /\ is_token_char 38 = false.
Proof. intros M. apply ENTITIES_body in M as (b & -> & _). eauto. Qed.

(** Every fragment of a text occurs in the text. *)
Lemma fragments_occur text : Forall (fun c => occurs_in c text) (fragments text).
Proof.
  unfold fragments. apply Forall_app. split; [|apply Forall_app; split].
  - apply found_occurs, TAGS_never_empty.
  - pose proof (found_occurs ENTITIES ENTITIES_never_empty (fst (after_tags text))) as Ho.
    pose proof (found_Matches ENTITIES ENTITIES_never_empty (fst (after_tags text))) as Hm.
    rewrite Forall_forall in *. intros m Hin.
    destruct (entity_head m (Hm m Hin)) as (m' & Em & Hc).
    eapply (Replaced_occurs _ _ m 38 m' text (fst (after_tags text)) Em Hc).
    + now apply ENTITIES_no_H, Hm.
    + apply scan_Replaced, TAGS_never_empty.
    + now apply Ho.
  - pose proof (found_occurs COLON (Chr_never_empty 58) (fst (after_entities text))) as Ho.
    pose proof (found_Matches COLON (Chr_never_empty 58) (fst (after_entities text))) as Hm.
    rewrite Forall_forall in *. intros m Hin.
    assert (Em : m = [58]) by (specialize (Hm m Hin); now inversion Hm).
    assert (N : ~ In 294 m) by (subst m; simpl; intuition discriminate).
    eapply (Replaced_occurs _ _ m 58 [] text (fst (after_tags text)) Em eq_refl N).
    + apply scan_Replaced, TAGS_never_empty.
    + eapply (Replaced_occurs _ _ m 58 [] (fst (after_tags text))
               (fst (after_entities text)) Em eq_refl N).
      * apply scan_Replaced, ENTITIES_never_empty.
      * now apply Ho.
Qed.

(** *** The global replacement with a callback that looks at the position *)

Section ReplaceAt.
Variable St : Type.
Variable r : regex.
Variable f : jsstring -> nat -> jsstring -> St -> jsstring * St.
Variable whole : jsstring.
Hypothesis never_empty : ~ Matches r [].

Lemma replace_from_nil pos st : replace_from r f whole 0 pos [] st = ([], st).
Proof.
  simpl. destruct (match_at r []) as [[m rest]|] eqn:E; [|reflexivity].
  apply match_at_Some in E as [M E]. symmetry in E.
  apply app_eq_nil in E as [-> _]. contradiction.
Qed.

Lemma replace_from_miss c t pos st :
  match_at r (c :: t) = None ->
  replace_from r f whole 0 pos (c :: t) st
  = (c :: fst (replace_from r f whole 0 (S pos) t st),
     snd (replace_from r f whole 0 (S pos) t st)).
Proof.
  intros E. cbn [replace_from]. rewrite E.
  now destruct (replace_from r f whole 0 (S pos) t st).
Qed.

Lemma replace_from_skipped : forall m' rest pos st,
  replace_from r f whole (length m') pos (m' ++ rest) st
  = replace_from r f whole 0 (pos + length m') rest st.
Proof.
  induction m' as [|c m' IH]; intros rest pos st.
  - simpl. now rewrite Nat.add_0_r.
  - simpl. rewrite IH. f_equal. lia.
Qed.

Lemma replace_from_hit m rest pos st :
  match_at r (m ++ rest) = Some (m, rest) ->
  replace_from r f whole 0 pos (m ++ rest) st
  = (fst (f m pos whole st)
     ++ fst (replace_from r f whole 0 (pos + length m) rest (snd (f m pos whole st))),
     snd (replace_from r f whole 0 (pos + length m) rest (snd (f m pos whole st)))).
Proof.
  intros E. pose proof (match_at_Some _ _ _ _ E) as [M _].
  destruct m as [|c m']; [contradiction|].
  change ((c :: m') ++ rest) with (c :: m' ++ rest) in *.
  cbn [replace_from]. rewrite E.
  destruct (f (c :: m') pos whole st) as [rep st1]. cbn [fst snd].
  rewrite replace_from_skipped.
  replace (S pos + length m')%nat with (pos + length (c :: m'))%nat by (simpl; lia).
  now destruct (replace_from r f whole 0 (pos + length (c :: m')) rest st1).
Qed.

Lemma replace_from_pass v : forall x pos st,
  (forall v1 v2, v = v1 ++ v2 -> v2 <> [] -> match_at r (v2 ++ x) = None) ->
  replace_from r f whole 0 pos (v ++ x) st
  = (v ++ fst (replace_from r f whole 0 (pos + length v) x st),
     snd (replace_from r f whole 0 (pos + length v) x st)).
Proof.
  induction v as [|c v IH]; intros x pos st H.
  - simpl. rewrite Nat.add_0_r. now destruct (replace_from r f whole 0 pos x st).
  - change ((c :: v) ++ x) with (c :: v ++ x). rewrite replace_from_miss.
    + rewrite IH.
      * cbn [fst snd length]. replace (S pos + length v)%nat with (pos + S (length v))%nat
          by lia. reflexivity.
      * intros v1 v2 E Hn. apply (H (c :: v1) v2); [now rewrite E|assumption].
    + apply (H [] (c :: v)); [reflexivity|discriminate].
Qed.

Lemma replace_from_none v pos st :
  (forall v1 v2, v = v1 ++ v2 -> v2 <> [] -> match_at r (v2 ++ []) = None) ->
  replace_from r f whole 0 pos v st = (v, st).
Proof.
  intros H. rewrite <- (app_nil_r v) at 1. rewrite replace_from_pass by exact H.
  rewrite replace_from_nil. cbn [fst snd]. now rewrite app_nil_r.
Qed.

End ReplaceAt.

(** *** The decoder on texts with no token *)

Lemma clean_app a b : clean (a ++ b) = clean a && clean b.
Proof. apply forallb_app. Qed.

(** No token pattern matches at a position of a stretch that holds neither
    spelling of U+0126. *)
Lemma token_not_in_clean j v x :
  clean v = true ->
  forall v1 v2, v = v1 ++ v2 -> v2 <> [] ->
  match_at (lit_i (placeholder_of j)) (v2 ++ x) = None.
Proof.
  intros Hv v1 v2 E Hn. subst v. rewrite clean_app in Hv.
  apply andb_true_iff in Hv as [_ Hv].
  destruct v2 as [|c v2]; [contradiction|]. simpl in Hv.
  apply andb_true_iff in Hv as [Hc _]. apply negb_true_iff in Hc.
  apply no_match_at_plain. intros E. apply Canonicalize_H in E. congruence.
Qed.

Lemma restore_entry_clean t k c :
  clean t = true -> restore_entry t (placeholder_of k, c) = t.
Proof.
  intros Ht. unfold restore_entry. cbn [fst snd]. rewrite RegExp_gi_escape.
  unfold replace_str, replace_fn.
  rewrite replace_from_none; [reflexivity|apply lit_i_placeholder_not_nil|].
  now apply token_not_in_clean.
Qed.

Lemma restore_entries_clean t : forall L s,
  clean t = true -> fold_left restore_entry (entries s L) t = t.
Proof.
  induction L as [|c L IH]; intros s Ht; [reflexivity|].
  cbn [entries fold_left]. rewrite restore_entry_clean by assumption. now apply IH.
Qed.

Lemma restore_clean text t :
  clean t = true ->
  restoreHtmlContent t (snd (preserveHtmlContent text)) = List.map repair_colon t.
Proof.
  intros Ht. unfold restoreHtmlContent. rewrite preserve_record.
  cbn [placeholders record_of]. rewrite restore_entries_clean by assumption.
  apply repair_all.
Qed.

Lemma repaired_no_fullwidth s : ~ In 65306 (List.map repair_colon s).
Proof.
  rewrite in_map_iff. intros (x & E & _). unfold repair_colon in E.
  destruct (x =? 65306) eqn:Ex; [discriminate|].
  apply N.eqb_neq in Ex. congruence.
Qed.

Lemma restored_clean X : wf X -> clean (restored X) = true.
Proof.
  induction X as [|it X IH]; intros H; [reflexivity|].
  apply wf_cons in H as [Hit HX].
  change (restored (it :: X)) with
    ((match it with Plain c => [repair_colon c] | Tok _ c _ => c end) ++ restored X).
  rewrite clean_app, (IH HX), andb_true_r.
  destruct it as [c|k c v]; simpl in Hit.
  - simpl. rewrite andb_true_r. unfold repair_colon.
    destruct (c =? 65306); [reflexivity|exact Hit].
  - apply andb_true_iff in Hit as [_ Hc]. now apply content_ok_parts in Hc as (Hc & _).
Qed.

(** *** The spellings of a token *)

Lemma Canonicalize_token_char p c :
  is_token_char p = true -> (Canonicalize c = p <-> spells p c = true).
Proof.
  unfold is_token_char, spells, small_letter. intros Hp.
  repeat (apply orb_true_iff in Hp as [Hp|Hp]);
    try (apply N.eqb_eq in Hp; subst p; cbn [N.eqb Pos.eqb]).
  - rewrite Canonicalize_H. unfold is_H. reflexivity.
  - split.
    + intros H. revert H. canon;
      repeat match goal with
      | |- context [N.odd ?c] => destruct (N.odd c) eqn:?
      | |- context [N.even ?c] => destruct (N.even c) eqn:?
      end; intros; try lia.
      all: try (assert (c = 272 \/ c = 273) by lia; lia).
    + intros H. classes. destruct H as [-> | ->]; reflexivity.
  - split.
    + intros H. revert H. canon;
      repeat match goal with
      | |- context [N.odd ?c] => destruct (N.odd c) eqn:?
      | |- context [N.even ?c] => destruct (N.even c) eqn:?
      end; intros; try lia.
      all: try (assert (c = 321 \/ c = 322) by lia; lia).
    + intros H. classes. destruct H as [-> | ->]; reflexivity.
  - split.
    + intros H. assert (Hc : c < 128) by (apply Canonicalize_below; rewrite H; lia).
      rewrite Canonicalize_ascii in H by assumption. unfold in_range in H.
      destruct ((97 <=? c) && (c <=? 122)) eqn:E; classes.
    + intros H. classes. destruct H as [-> | ->]; reflexivity.
  - assert (Hs : forall x, (if x =? 294 then 295 else if x =? 272 then 273
                            else if x =? 321 then 322 else if x =? 88 then 120 else x)
                           = x \/ is_digit x = false).
    { intros x. destruct (x =? 294) eqn:E1; [right; classes|].
      destruct (x =? 272) eqn:E2; [right; classes|].
      destruct (x =? 321) eqn:E3; [right; classes|].
      destruct (x =? 88) eqn:E4; [right; classes|]. now left. }
    destruct (Hs p) as [-> | Hn]; [|congruence].
    rewrite orb_diag, N.eqb_eq. split.
    + intros H. now apply Canonicalize_to_digit.
    + intros ->. now apply Canonicalize_digit.
Qed.

Lemma folded_spells : forall P v,
  forallb is_token_char P = true ->
  (List.map Canonicalize v = P <-> Forall2 (fun p c => spells p c = true) P v).
Proof.
  induction P as [|p P IH]; intros v HP.
  - split.
    + intros H. destruct v; [constructor|discriminate].
    + intros H. inversion H. reflexivity.
  - simpl in HP. apply andb_true_iff in HP as [Hp HP]. split.
    + intros H. destruct v as [|c v]; [discriminate|]. simpl in H. injection H as H1 H2.
      constructor.
      * now apply Canonicalize_token_char.
      * now apply IH.
    + intros H. inversion H as [|p' c P' v' Hs Hr]; subst. simpl. f_equal.
      * now apply Canonicalize_token_char.
      * now apply IH.
Qed.

(** *** The width of a token *)

Lemma of_uint_acc_bound : forall d acc,
  (Nat.of_uint_acc d acc < (acc + 1) * 10 ^ length (uint_units d))%nat.
Proof.
  induction d as [|d IHd|d IHd|d IHd|d IHd|d IHd|d IHd|d IHd|d IHd|d IHd|d IHd];
    intros acc; cbn [Nat.of_uint_acc uint_units length];
    rewrite ?Nat.pow_succ_r'.
  1: simpl; lia.
  all: match goal with
       | |- (Nat.of_uint_acc _ ?a < _)%nat => pose proof (IHd a) as H
       end;
       rewrite Nat.tail_mul_spec in *; nia.
Qed.

Lemma toString_short n : (length (toString n) <= 3)%nat -> (n < 1000)%nat.
Proof.
  unfold toString. intros H.
  pose proof (of_uint_acc_bound (Nat.to_uint n) 0) as B.
  fold (Nat.of_uint (Nat.to_uint n)) in B. rewrite DecimalNat.Unsigned.of_to in B.
  assert (10 ^ length (uint_units (Nat.to_uint n)) <= 10 ^ 3)%nat
    by (apply Nat.pow_le_mono_r; lia).
  change (10 ^ 3)%nat with 1000%nat in *. lia.
Qed.

Lemma toString_below_1000 n : (n < 1000)%nat -> (length (toString n) <= 3)%nat.
Proof.
  intros H.
  assert (A : forallb (fun n => (length (toString n) <=? 3)%nat) (seq 0 1000) = true)
    by (vm_compute; reflexivity).
  rewrite forallb_forall in A. apply Nat.leb_le. apply A. apply in_seq. lia.
Qed.

Lemma placeholder_length n :
  length (placeholder_of n) = (10 + Nat.max 3 (length (toString n)))%nat.
Proof.
  unfold placeholder_of, PLACEHOLDER_PREFIX, PLACEHOLDER_SUFFIX, padStart.
  rewrite !length_app, repeat_length. cbn [length].
  generalize (length (toString n)). intros l. lia.
Qed.

(** *** The sanitizer along its scan *)

Lemma sanitize_nil : sanitizeHtmlContent [] = [].
Proof. reflexivity. Qed.

Lemma sanitize_miss c t :
  match_at TAGS (c :: t) = None ->
  sanitizeHtmlContent (c :: t) = c :: sanitizeHtmlContent t.
Proof.
  intros H. rewrite !sanitize_scan. now rewrite scan_miss by assumption.
Qed.

Lemma sanitize_hit m rest :
  match_at TAGS (m ++ rest) = Some (m, rest) ->
  sanitizeHtmlContent (m ++ rest)
  = (if on_allow_list (tag_name m) then m else []) ++ sanitizeHtmlContent rest.
Proof.
  intros H. pose proof (match_at_Some _ _ _ _ H) as [M _].
  rewrite !sanitize_scan. rewrite (scan_hit _ _ _ TAGS_never_empty _ _ _ _ H).
  unfold keep_safe at 1 2 3. rewrite SAFE_TAGS_allow_list by now apply TAGS_shape.
  now destruct (on_allow_list (tag_name m)).
Qed.

Lemma match_at_tag m rest : Matches TAGS m -> match_at TAGS (m ++ rest) = Some (m, rest).
Proof. intros M. now apply match_at_unique; [apply TAGS_prefix_unique | |]. Qed.

Lemma no_tag_at c t : c <> 60 -> match_at TAGS (c :: t) = None.
Proof.
  intros Hc. apply match_at_None. intros m rest E M. apply Hc.
  apply TAGS_shape in M. eapply tag_starts_lt; eauto.
Qed.

Lemma sanitize_pass v : forall x,
  ~ In 60 v -> sanitizeHtmlContent (v ++ x) = v ++ sanitizeHtmlContent x.
Proof.
  induction v as [|c v IH]; intros x H; [reflexivity|].
  simpl. rewrite sanitize_miss.
  - rewrite IH; [reflexivity|]. intros Hin. apply H. now right.
  - apply no_tag_at. intros ->. apply H. now left.
Qed.

(** A name followed by anything but a letter, a digit, white space or ">"
    is not the start of a tag match. *)
Lemma name_not_closed a name x t m rest :
  is_alpha a = true -> forallb is_alnum name = true ->
  is_alnum x = false -> is_space x = false -> x <> 62 ->
  tag_shape m -> 60 :: a :: name ++ x :: t = m ++ rest -> False.
Proof.
  intros Ha Hn Hx Hsp Hgt [slash a' name' attrs Hs Ha' Hn' Hat] E.
  simpl in E. inversion E as [E']. clear E.
  destruct Hs as [-> | ->]; simpl in E'.
  - inversion E' as [[Ea E'']]. subst a'. rewrite <- !app_assoc in E''.
    destruct (run_unique is_alnum name name' (x :: t) (attrs ++ [62] ++ rest))
      as [_ E3]; auto.
    + intros c r Hc. inversion Hc; subst. assumption.
    + intros c r Hc. destruct attrs as [|w attrs'].
      * simpl in Hc. inversion Hc; subst. reflexivity.
      * simpl in Hc, Hat. inversion Hc; subst.
        apply andb_true_iff in Hat as [Hw _]. now apply space_not_alnum.
    + destruct attrs as [|w attrs']; simpl in E3, Hat.
      * inversion E3. congruence.
      * inversion E3; subst. apply andb_true_iff in Hat as [Hw _]. congruence.
  - inversion E'; subst. classes.
Qed.

Lemma subsequence_refl a : subsequence a a.
Proof. induction a as [|c a IH]; constructor; assumption. Qed.

Lemma subsequence_app_keep m : forall a b, subsequence a b -> subsequence (m ++ a) (m ++ b).
Proof. induction m as [|c m IH]; intros a b H; simpl; [assumption|constructor; auto]. Qed.

Lemma subsequence_app_drop m : forall a b, subsequence a b -> subsequence a (m ++ b).
Proof. induction m as [|c m IH]; intros a b H; simpl; [assumption|constructor; auto]. Qed.

Lemma subsequence_length a b : subsequence a b -> (length a <= length b)%nat.
Proof. induction 1; simpl; lia. Qed.

Lemma sanitize_subsequence text : subsequence (sanitizeHtmlContent text) text.
Proof.
  induction text as [| c t Hc IH | m rest Hm Hn IH] using (scan_ind TAGS TAGS_never_empty).
  - rewrite sanitize_nil. constructor.
  - rewrite sanitize_miss by assumption. now constructor.
  - rewrite sanitize_hit by assumption. destruct (on_allow_list (tag_name m)).
    + now apply subsequence_app_keep.
    + now apply subsequence_app_drop.
Qed.

End Further.

(** ** The decoder on texts free of token collisions *)

Module CollisionFree.
Import JS HtmlUtils Spec Engine Patterns Passthrough Encoder Items Decoder Further.

Lemma token_at_false d s :
  token_at d s = false -> match_at (lit_i (placeholder_of d)) s = None.
Proof.
  unfold token_at. rewrite RegExp_gi_escape.
  now destruct (match_at (lit_i (placeholder_of d)) s).
Qed.

Lemma quiet_in_pass d v : forall rest,
  quiet_in d v rest = true ->
  forall v1 v2, v = v1 ++ v2 -> v2 <> [] ->
  match_at (lit_i (placeholder_of d)) (v2 ++ rest) = None.
Proof.
  induction v as [|c v IH]; intros rest H v1 v2 E Hn.
  - symmetry in E. apply app_eq_nil in E as [_ ->]. contradiction.
  - cbn [quiet_in] in H. apply andb_true_iff in H as [H0 H].
    apply negb_true_iff in H0. destruct v1 as [|x v1].
    + simpl in E. subst v2. now apply token_at_false.
    + simpl in E. injection E as _ E. now apply (IH rest H v1 v2).
Qed.

Section Step.
Variable d : nat.
Variable cd : jsstring.

Lemma restore_step_quiet whole : forall X pos u,
  quiet d X = true ->
  (forall c v, In (Tok d c v) X ->
     c = cd /\ same_folded v (placeholder_of d) = true /\ no_dollar_pattern cd = true) ->
  replace_from (lit_i (placeholder_of d)) (template cd) whole 0 pos (render X) u
  = (render (restore_tok d X), tt).
Proof.
  pose proof (lit_i_placeholder_not_nil d) as Hne.
  induction X as [|it X IH]; intros pos u Hq Ht.
  - destruct u. now apply replace_from_nil.
  - assert (Ht' : forall c v, In (Tok d c v) X ->
              c = cd /\ same_folded v (placeholder_of d) = true
              /\ no_dollar_pattern cd = true)
      by (intros c v Hin; apply (Ht c v); now right).
    destruct it as [c|k c v]; cbn [quiet] in Hq; apply andb_true_iff in Hq as [H0 Hq].
    + apply negb_true_iff, token_at_false in H0.
      change (render (Plain c :: X)) with (c :: render X).
      change (restore_tok d (Plain c :: X)) with (Plain c :: restore_tok d X).
      change (render (Plain c :: restore_tok d X)) with (c :: render (restore_tok d X)).
      rewrite replace_from_miss by exact H0. now rewrite (IH _ _ Hq Ht').
    + change (render (Tok k c v :: X)) with (v ++ render X).
      destruct (Nat.eqb k d) eqn:Ek.
      * apply Nat.eqb_eq in Ek. subst k.
        destruct (Ht c v (or_introl eq_refl)) as (Ec & Hv & Hd). subst c.
        apply same_folded_placeholder in Hv.
        rewrite replace_from_hit; [|exact Hne|now apply match_at_token].
        rewrite (IH _ _ Hq Ht'). unfold template.
        rewrite GetSubstitution_plain by exact Hd. cbn [fst snd].
        change (restore_tok d (Tok d cd v :: X))
          with ((if Nat.eqb d d then List.map Plain cd else [Tok d cd v])
                ++ restore_tok d X).
        rewrite Nat.eqb_refl, render_app, render_plain. reflexivity.
      * cbn [orb] in H0.
        rewrite replace_from_pass by exact (quiet_in_pass d v (render X) H0).
        rewrite (IH _ _ Hq Ht'). cbn [fst snd].
        change (restore_tok d (Tok k c v :: X))
          with ((if Nat.eqb k d then List.map Plain c else [Tok k c v])
                ++ restore_tok d X).
        rewrite Ek. reflexivity.
Qed.

Lemma restore_entry_quiet X :
  quiet d X = true ->
  (forall c v, In (Tok d c v) X ->
     c = cd /\ same_folded v (placeholder_of d) = true /\ no_dollar_pattern cd = true) ->
  restore_entry (render X) (placeholder_of d, cd) = render (restore_tok d X).
Proof.
  intros Hq Ht. unfold restore_entry. cbn [fst snd]. rewrite RegExp_gi_escape.
  unfold replace_str, replace_fn.
  change (fun (m : jsstring) (pos : nat) (whole : jsstring) (_ : unit) =>
            (GetSubstitution m (firstn pos whole) (skipn (pos + length m) whole) cd, tt))
    with (template cd).
  now rewrite (restore_step_quiet (render X) X 0 tt Hq Ht).
Qed.

End Step.

Lemma restore_all_quiet : forall L s X,
  tokens_from L s X ->
  (forall i, (i < length L)%nat ->
     quiet (s + i) (fold_left (fun Y j => restore_tok j Y) (seq s i) X) = true) ->
  fold_left restore_entry (entries s L) (render X) = original X.
Proof.
  induction L as [|c0 L IH]; intros s X Ht Hq.
  - cbn [entries fold_left]. apply no_tok_render. intros k c v Hin.
    destruct (Ht k c v Hin) as (_ & E & _). now destruct (k - s)%nat.
  - cbn [entries fold_left]. rewrite restore_entry_quiet.
    + rewrite IH; [apply original_restore| |].
      * intros k c v Hin. apply In_restore in Hin as [Hin Hk].
        destruct (Ht k c v Hin) as (Hs & E & Hv & Hd).
        repeat split; try assumption; try lia.
        replace (k - s)%nat with (S (k - S s)) in E by lia. exact E.
      * intros i Hi. specialize (Hq (S i) ltac:(simpl; lia)).
        cbn [seq fold_left] in Hq. now replace (S s + i)%nat with (s + S i)%nat by lia.
    + specialize (Hq 0%nat ltac:(simpl; lia)). cbn [seq fold_left] in Hq.
      now rewrite Nat.add_0_r in Hq.
    + intros c v Hin. destruct (Ht s c v Hin) as (_ & E & Hv & Hd).
      rewrite Nat.sub_diag in E. cbn in E. injection E as <-. auto.
Qed.

Lemma decode_collision_free L X :
  tokens_from L 0 X ->
  collision_free (length L) X = true ->
  restoreHtmlContent (render X) (record_of L) = List.map repair_colon (original X).
Proof.
  intros Ht Hq. unfold restoreHtmlContent. cbn [placeholders record_of].
  rewrite repair_all. f_equal. apply restore_all_quiet; [exact Ht|].
  intros i Hi. unfold collision_free in Hq. rewrite forallb_forall in Hq.
  apply (Hq i). apply in_seq. lia.
Qed.

(** *** Tokens of the record of a text *)

Lemma reads_as_tokens text X :
  forallb (reads_as (snd (preserveHtmlContent text))) X = true ->
  tokens_from (fragments text) 0 X.
Proof.
  intros H. rewrite forallb_forall in H. intros k c v Hin.
  specialize (H _ Hin). cbn [reads_as] in H.
  apply andb_true_iff in H as [H Hd]. apply andb_true_iff in H as [Hv He].
  rewrite preserve_record in He. cbn [placeholders record_of] in He.
  apply existsb_exists in He as ([key c'] & Hin' & E).
  apply andb_true_iff in E as [E1 E2]. apply jsstring_eqb_eq in E1, E2.
  cbn [fst snd] in E1, E2. subst key c'.
  apply entries_lookup in Hin' as [_ Hn]. repeat split; auto. lia.
Qed.

(** *** The encoded text read against the original *)

Lemma strip_Some p : forall s r, strip p s = Some r -> s = p ++ r.
Proof.
  induction p as [|a p IH]; intros s r H; simpl in H.
  - now injection H as ->.
  - destruct s as [|b s]; [discriminate|]. destruct (a =? b) eqn:E; [|discriminate].
    apply N.eqb_eq in E. subst b. simpl. f_equal. now apply IH.
Qed.

Lemma find_token_entries : forall L k s t it s2 t2,
  find_token (entries k L) k s t = Some (it, s2, t2) ->
  exists j c,
    it = Tok j c (placeholder_of j) /\ (k <= j)%nat /\ nth_error L (j - k) = Some c
    /\ s = placeholder_of j ++ s2 /\ t = c ++ t2.
Proof.
  induction L as [|c0 L IH]; intros k s t it s2 t2 H; [discriminate|].
  cbn [entries find_token] in H.
  assert (G : find_token (entries (S k) L) (S k) s t = Some (it, s2, t2) ->
              exists j c,
                it = Tok j c (placeholder_of j) /\ (k <= j)%nat
                /\ nth_error (c0 :: L) (j - k) = Some c
                /\ s = placeholder_of j ++ s2 /\ t = c ++ t2).
  { intros H'. destruct (IH _ _ _ _ _ _ H') as (j & c & -> & Hj & Hn & Es & Et).
    exists j, c. repeat split; auto; try lia.
    replace (j - k)%nat with (S (j - S k)) by lia. exact Hn. }
  destruct (strip (placeholder_of k) s) as [s'|] eqn:E1; [|now apply G].
  destruct (strip c0 t) as [t'|] eqn:E2; [|now apply G].
  injection H as <- <- <-. exists k, c0. rewrite Nat.sub_diag.
  apply strip_Some in E1, E2. auto.
Qed.

Lemma read_sound L : forall fuel s t X,
  read (entries 0 L) fuel s t = Some X ->
  render X = s /\ original X = t
  /\ forall k c v, In (Tok k c v) X -> v = placeholder_of k /\ nth_error L k = Some c.
Proof.
  induction fuel as [|fuel IH]; intros s t X H; [discriminate|].
  cbn [read] in H. destruct s as [|x s']; destruct t as [|y t']; try discriminate.
  - injection H as <-. split; [reflexivity|split; [reflexivity|]]. intros k c v [].
  - destruct (x =? y) eqn:Exy.
    + apply N.eqb_eq in Exy. subst y.
      destruct (read (entries 0 L) fuel s' t') as [X'|] eqn:R; [|discriminate].
      injection H as <-. destruct (IH _ _ _ R) as (Hr & Ho & Hk).
      cbn [render original flat_map app]. fold (render X') (original X').
      rewrite Hr, Ho. split; [reflexivity|split; [reflexivity|]].
      intros k c v [Hin|Hin]; [discriminate|eauto].
    + destruct (find_token (entries 0 L) 0 (x :: s') (y :: t')) as [[[it s2] t2]|] eqn:F;
        [|discriminate].
      destruct (read (entries 0 L) fuel s2 t2) as [X'|] eqn:R; [|discriminate].
      injection H as <-. destruct (IH _ _ _ R) as (Hr & Ho & Hk).
      apply find_token_entries in F as (j & c & -> & _ & Hn & Es & Et).
      rewrite Nat.sub_0_r in Hn.
      change (render (Tok j c (placeholder_of j) :: X'))
        with (placeholder_of j ++ render X').
      change (original (Tok j c (placeholder_of j) :: X')) with (c ++ original X').
      rewrite Hr, Ho, Es, Et. split; [reflexivity|split; [reflexivity|]].
      intros k c' v [Hin|Hin]; [|eauto]. injection Hin as <- <- <-. auto.
Qed.

Lemma reading_sound text X :
  reading text = Some X ->
  render X = fst (preserveHtmlContent text) /\ original X = text
  /\ forall k c v,
       In (Tok k c v) X -> v = placeholder_of k /\ nth_error (fragments text) k = Some c.
Proof.
  unfold reading. pose proof (preserve_record text) as E.
  destruct (preserveHtmlContent text) as [s rec]. cbn [fst snd] in *. subst rec.
  cbn [placeholders record_of]. apply read_sound.
Qed.

(** *** Texts that come back and texts that do not

    Digits between two fragments are harmless unless they spell the
    ordinal of an entry the decoder comes to while both tokens still
    stand; so are "$" outside a tag and U+0126 where no token can be read. *)

Example texts_that_come_back :
  forallb (fun text => round_trip_ok text && comes_back text)
    [str "<td>100</td><td>2024</td>"; str "<b>2024</b>"; str "<b>001</b>";
     str "<i>001</i>:<b>"; str ":001:"; str "price: $$5 <b>x</b>";
     294 :: str " in prose: <b>x</b>"; [294; 272; 321; 88; 294] ++ str "001<b>:";
     str "<a title='$x'>"; str "plain"; []]
  = true.
Proof. vm_compute. reflexivity. Qed.

Example texts_that_do_not_come_back :
  forallb (fun text => negb (round_trip_ok text) && negb (comes_back text))
    [str ":000<b>"; str "<b></b><i>000</i>"; str "<a title='$&'>";
     str "<a title='$$'>"; placeholder_of 0 ++ str ":";
     [294; 272; 321; 88; 294] ++ str "000:"]
  = true.
Proof. vm_compute. reflexivity. Qed.

End CollisionFree.

(** ** The claims *)

Import JS HtmlUtils Spec Engine Patterns Passthrough Detector SelfClosingTags Encoder
  Items Decoder Sanitizer Further CollisionFree.

(** C2, as stated, fails: with a record of zero entries
    [restoreHtmlContent] still rewrites a full-width colon, so it does not
    return every text unchanged. *)
Lemma restore_empty_record_changes_text :
  restoreHtmlContent [65306] {| placeholders := []; counter := 0 |} <> [65306].
Proof. vm_compute. discriminate. Qed.

(** C2, amended: [preserveHtmlContent] returns the empty text and any text
    that no tag pattern, no entity pattern and no colon occurs in unchanged,
    with an empty record; [restoreHtmlContent] with a record of zero entries
    returns the text with every full-width colon rewritten to the ASCII
    colon, and so a text without full-width colon unchanged. *)
Theorem degenerate_inputs_pass_through :
  preserveHtmlContent [] = ([], {| placeholders := []; counter := 0 |})
  /\ (forall text,
        ~ matches_in TAGS text -> ~ matches_in ENTITIES text -> ~ In 58 text ->
        preserveHtmlContent text = (text, {| placeholders := []; counter := 0 |}))
  /\ (forall text n,
        restoreHtmlContent text {| placeholders := []; counter := n |}
        = List.map repair_colon text)
  /\ (forall text n,
        ~ In 65306 text ->
        restoreHtmlContent text {| placeholders := []; counter := n |} = text).
Proof.
  split; [reflexivity|]. split; [exact preserve_no_fragment|].
  assert (H : forall text n,
             restoreHtmlContent text {| placeholders := []; counter := n |}
             = List.map repair_colon text)
    by (intros text n; unfold restoreHtmlContent; simpl; apply repair_all).
  split; [exact H|]. intros text n Hn. rewrite H. now apply repair_none.
Qed.

Lemma degenerate_inputs_pass_through_witness :
  preserveHtmlContent (str "plain prose")
  = (str "plain prose", {| placeholders := []; counter := 0 |})
  /\ restoreHtmlContent (str "plain prose") {| placeholders := []; counter := 0 |}
     = str "plain prose".
Proof.
  destruct degenerate_inputs_pass_through as (_ & Henc & _ & Hdec). split.
  - apply Henc.
    + apply search_None. reflexivity.
    + apply search_None. reflexivity.
    + vm_compute. intuition discriminate.
  - apply Hdec. vm_compute. intuition discriminate.
Defined.

(** C3: the code breaks the claim.  [containsHtmlContent] calls [test] on
    module-level patterns with the g flag, which keep their [lastIndex]:
    starting from a fresh module, the first call on "<b>" answers true and
    the second call on the same text answers false. *)
Theorem containsHtmlContent_second_call_differs :
  fst (containsHtmlContent (str "<b>") initial) = true
  /\ fst (containsHtmlContent (str "<b>")
            (snd (containsHtmlContent (str "<b>") initial))) = false
  /\ snd (containsHtmlContent (str "<b>") initial)
     = {| TAGS_lastIndex := 3; ENTITIES_lastIndex := 0 |}.
Proof. vm_compute. auto. Qed.

(** C4: the code breaks the claim.  After a call that found an entity, the
    entity pattern resumes at its [lastIndex] 4: the next call, on "&amp;",
    answers false although the entity pattern matches that text (the two
    calls are those of the repository's own test of entity detection). *)
Theorem containsHtmlContent_misses_entity :
  fst (containsHtmlContent (str "&lt;test&gt;") initial) = true
  /\ fst (containsHtmlContent (str "&amp;")
            (snd (containsHtmlContent (str "&lt;test&gt;") initial))) = false
  /\ matches_in ENTITIES (str "&amp;").
Proof.
  split; [reflexivity|]. split; [reflexivity|].
  exists [], (str "&amp;"), []. split; [reflexivity|].
  apply (run_spec ENTITIES (str "&amp;") (str "&amp;") []). vm_compute. now left.
Qed.

(** C6, as stated, fails: the example does not yield three tokens. *)
Lemma example_not_three_tokens :
  length (placeholders (snd (preserveHtmlContent example))) <> 3%nat
  /\ counter (snd (preserveHtmlContent example)) <> 3%nat.
Proof. vm_compute. split; discriminate. Qed.

(** C6, amended: encoding the example substitutes exactly five tokens,
    four for the opening and closing tags and one for the colon, leaves no
    "<" and no ":" in the text, and decoding the unchanged encoded text
    with the record returns the example. *)
Theorem example_end_to_end :
  preserveHtmlContent example
  = (placeholder_of 0 ++ str "A" ++ placeholder_of 1 ++ placeholder_of 4 ++ str " "
       ++ placeholder_of 2 ++ str "B" ++ placeholder_of 3,
     {| placeholders :=
          [(placeholder_of 0, str "<strong>"); (placeholder_of 1, str "</strong>");
           (placeholder_of 2, str "<code>"); (placeholder_of 3, str "</code>");
           (placeholder_of 4, str ":")];
        counter := 5 |})
  /\ ~ In 60 (fst (preserveHtmlContent example))
  /\ ~ In 58 (fst (preserveHtmlContent example))
  /\ restoreHtmlContent (fst (preserveHtmlContent example))
       (snd (preserveHtmlContent example)) = example.
Proof.
  split; [reflexivity|]. split; [|split].
  - vm_compute. intuition discriminate.
  - vm_compute. intuition discriminate.
  - reflexivity.
Qed.

(** C10, as stated, fails: a self-closing tag with no white space before
    the slash that has attributes, "<img src=x/>", is a match of the tag
    pattern, whose attribute part takes the slash; and for "Note: <br/>",
    whose only markup is "<br/>", [preserveHtmlContent] does not return the
    text unchanged, since it replaces the colon. *)
Lemma selfclosing_claim_fails :
  Matches TAGS (str "<img src=x/>")
  /\ fst (preserveHtmlContent (str "Note: <br/>")) <> str "Note: <br/>"
  /\ counter (snd (preserveHtmlContent (str "Note: <br/>"))) = 1%nat.
Proof.
  split; [|split].
  - apply (run_spec TAGS (str "<img src=x/>") (str "<img src=x/>") []).
    vm_compute. now left.
  - vm_compute. discriminate.
  - reflexivity.
Qed.

(** C10, amended: a self-closing tag with no attribute and no white space
    before the slash ("<", a name, "/>", such as "<br/>" or "<script/>")
    holds no match of the tag pattern, and no match starts at it whatever
    follows.  Consequently, for any text in which every "<" that is
    followed by a letter, or by a slash and a letter, opens such a tag,
    the tag pattern matches nowhere and [sanitizeHtmlContent] returns the
    text as it is, also where the name of a tag is not on the allow-list
    ("<script/>"); if the text moreover holds no entity,
    [containsHtmlContent] answers false on it in any pattern state; and if
    it also holds no colon, [preserveHtmlContent] returns it unchanged with
    an empty record. *)
Theorem selfclosing_without_space_is_no_tag :
  (forall a name,
     is_alpha a = true -> forallb is_alnum name = true ->
     ~ matches_in TAGS (60 :: a :: name ++ [47; 62])
     /\ forall rest, match_at TAGS (60 :: a :: name ++ 47 :: 62 :: rest) = None)
  /\ on_allow_list (str "script") = false
  /\ sanitizeHtmlContent (str "<script/>") = str "<script/>"
  /\ forall text,
       only_selfclosing text = true ->
       ~ matches_in TAGS text
       /\ sanitizeHtmlContent text = text
       /\ (~ matches_in ENTITIES text ->
           (forall ps, fst (containsHtmlContent text ps) = false)
           /\ (~ In 58 text ->
               preserveHtmlContent text = (text, {| placeholders := []; counter := 0 |}))).
Proof.
  split; [|split; [reflexivity|split; [reflexivity|]]].
  - intros a name Ha Hn. split.
    + apply only_selfclosing_no_tag. now apply selfclosing_only.
    + intros rest. apply match_at_None. intros m r E M. apply TAGS_shape in M.
      exact (selfclosing_no_tag a name rest m r Ha Hn M E).
  - intros text H. pose proof (only_selfclosing_no_tag text H) as NT.
    split; [exact NT|]. split.
    + rewrite sanitize_scan. now rewrite (scan_no_match _ _ _ TAGS_never_empty).
    + intros NE. split.
      * intros ps. now rewrite containsHtmlContent_no_match.
      * intros NC. now apply preserve_no_fragment.
Qed.

Lemma selfclosing_without_space_is_no_tag_witness :
  let text := str "a < b<br/> AT&T </ 3<script/>" in
  ~ matches_in TAGS text
  /\ sanitizeHtmlContent text = text
  /\ (forall ps, fst (containsHtmlContent text ps) = false)
  /\ preserveHtmlContent text = (text, {| placeholders := []; counter := 0 |}).
Proof.
  destruct selfclosing_without_space_is_no_tag as (_ & _ & _ & G).
  destruct (G (str "a < b<br/> AT&T </ 3<script/>")) as (NT & S & D);
    [reflexivity|].
  destruct D as [D E]; [apply search_None; reflexivity|].
  split; [exact NT|]. split; [exact S|]. split; [exact D|].
  apply E. vm_compute. intuition discriminate.
Defined.

(** C8: [sanitizeHtmlContent] scans for tag matches; a match whose name is
    on the case-insensitive allow-list is kept as it is, attributes
    included, any other match is deleted and nothing else is: the text
    between matches is copied.  On the example of the specification the
    two script tags go and "<strong>y</strong>" stays. *)
Theorem sanitize_allow_list :
  (forall m rest,
     Matches TAGS m ->
     sanitizeHtmlContent (m ++ rest)
     = (if on_allow_list (tag_name m) then m else []) ++ sanitizeHtmlContent rest)
  /\ (forall c t,
        (forall m rest, c :: t = m ++ rest -> ~ Matches TAGS m) ->
        sanitizeHtmlContent (c :: t) = c :: sanitizeHtmlContent t)
  /\ sanitizeHtmlContent [] = []
  /\ sanitizeHtmlContent (str "<script>x</script><strong>y</strong>")
     = str "x<strong>y</strong>".
Proof.
  split; [|split; [|split; reflexivity]].
  - intros m rest M. rewrite !sanitize_scan.
    rewrite (scan_hit _ _ _ TAGS_never_empty (m ++ rest) m rest tt)
      by (now apply match_at_unique; [apply TAGS_prefix_unique | |]).
    unfold keep_safe at 1 2 3. rewrite SAFE_TAGS_allow_list by now apply TAGS_shape.
    now destruct (on_allow_list (tag_name m)).
  - intros c t H. rewrite !sanitize_scan.
    rewrite scan_miss by now apply match_at_None. reflexivity.
Qed.

Lemma sanitize_allow_list_witness :
  sanitizeHtmlContent (str "<B id=1>" ++ str "x</b>")
  = str "<B id=1>" ++ sanitizeHtmlContent (str "x</b>")
  /\ sanitizeHtmlContent (str "<a href=1>" ++ str "x</a>")
     = sanitizeHtmlContent (str "x</a>")
  /\ sanitizeHtmlContent (str "x</b>") = 120 :: sanitizeHtmlContent (str "</b>").
Proof.
  destruct sanitize_allow_list as (Hhit & Hmiss & _). split; [|split].
  - apply (Hhit (str "<B id=1>") (str "x</b>")).
    apply (run_spec TAGS (str "<B id=1>") (str "<B id=1>") []). vm_compute. now left.
  - apply (Hhit (str "<a href=1>") (str "x</a>")).
    apply (run_spec TAGS (str "<a href=1>") (str "<a href=1>") []). vm_compute. now left.
  - apply (Hmiss 120 (str "</b>")). apply match_at_None. reflexivity.
Defined.

(** C5: whatever the text, the text [preserveHtmlContent] returns holds no
    match of the tag pattern, no match of the entity pattern and no ASCII
    colon; so it does when the original had such fragments, and the
    placeholders put in bring no tag, entity or colon with them. *)
Theorem preserve_leaks_no_fragment :
  forall text,
    ~ matches_in TAGS (fst (preserveHtmlContent text))
    /\ ~ matches_in ENTITIES (fst (preserveHtmlContent text))
    /\ ~ In 58 (fst (preserveHtmlContent text)).
Proof. exact preserve_no_leak. Qed.

(** C9: the record [preserveHtmlContent] returns lists, under the keys
    [placeholder_of 0], [placeholder_of 1], ... in this order, the tag
    matches of the text, then the entity matches of the text after the
    first pass, then the colons of the text after the second pass, each
    group in the order of its scan; its keys are pairwise distinct, and
    each of them occurs in the text returned. *)
Theorem record_invariants :
  forall text,
    let tags := found TAGS text in
    let ents := found ENTITIES (fst (after_tags text)) in
    let cols := found COLON (fst (after_entities text)) in
    placeholders (snd (preserveHtmlContent text)) = entries 0 (tags ++ ents ++ cols)
    /\ counter (snd (preserveHtmlContent text)) = length (tags ++ ents ++ cols)
    /\ Forall (Matches TAGS) tags
    /\ Forall (Matches ENTITIES) ents
    /\ Forall (eq [58]) cols
    /\ NoDup (List.map fst (placeholders (snd (preserveHtmlContent text))))
    /\ (forall key,
          In key (List.map fst (placeholders (snd (preserveHtmlContent text)))) ->
          occurs_in key (fst (preserveHtmlContent text))).
Proof.
  intros text tags ents cols. rewrite preserve_passes.
  pose proof (after_colons_record text) as Hrec. fold tags ents cols in Hrec.
  rewrite Hrec. cbn [placeholders counter record_of].
  repeat split.
  - apply found_Matches, TAGS_never_empty.
  - apply found_Matches, ENTITIES_never_empty.
  - pose proof (found_Matches COLON (Chr_never_empty 58) (fst (after_entities text)))
      as H.
    fold cols in H. eapply Forall_impl; [|exact H].
    intros m M. inversion M. reflexivity.
  - apply entries_keys_NoDup.
  - intros key Hin. apply entries_key_index in Hin as (k & Hk & ->).
    apply after_colons_occurs. rewrite Hrec. exact Hk.
Qed.

Lemma record_invariants_witness :
  occurs_in (placeholder_of 4) (fst (preserveHtmlContent example)).
Proof.
  destruct (record_invariants example) as (_ & _ & _ & _ & _ & _ & H).
  apply H. vm_compute. intuition.
Defined.

(** C1, as stated, fails: a full-width colon in the text comes back as an
    ASCII colon. *)
Lemma round_trip_loses_fullwidth_colon :
  restoreHtmlContent (fst (preserveHtmlContent [65306]))
                     (snd (preserveHtmlContent [65306])) <> [65306].
Proof. vm_compute. discriminate. Qed.

(** C1, amended: let no fragment that a token of the encoded text stands
    for hold a "$" followed by "$", "&", a backquote or a quote, and let
    the encoded text be free of token collisions: when the decoder comes to
    an entry of the record, the pattern of the entry's token matches in the
    text only at the tokens that stand for the entry's fragment.  Then
    decoding the text [preserveHtmlContent] returns with the record it
    returns gives the text with its full-width colons rewritten to ASCII
    colons, and so the text exactly when it holds no full-width colon. *)
Theorem preserve_restore_round_trip :
  forall text,
    round_trip_ok text = true ->
    restoreHtmlContent (fst (preserveHtmlContent text))
                       (snd (preserveHtmlContent text))
    = List.map repair_colon text
    /\ (restoreHtmlContent (fst (preserveHtmlContent text))
                           (snd (preserveHtmlContent text)) = text
        <-> ~ In 65306 text).
Proof.
  intros text H.
  assert (G : restoreHtmlContent (fst (preserveHtmlContent text))
                                 (snd (preserveHtmlContent text))
              = List.map repair_colon text).
  { unfold round_trip_ok in H.
    destruct (reading text) as [X|] eqn:R; [|discriminate].
    apply andb_true_iff in H as [Hd Hq].
    apply reading_sound in R as (Hr & Ho & Hk).
    rewrite preserve_record in *. cbn [counter record_of] in Hq.
    rewrite <- Hr. rewrite (decode_collision_free (fragments text) X);
      [now rewrite Ho| |exact Hq].
    intros k c v Hin. destruct (Hk k c v Hin) as [-> Hn].
    rewrite Nat.sub_0_r. repeat split; auto; [lia|apply same_folded_refl|].
    rewrite forallb_forall in Hd. exact (Hd _ Hin). }
  split; [exact G|]. rewrite G. split.
  - intros E. rewrite <- E. apply repaired_no_fullwidth.
  - apply repair_none.
Qed.

Lemma preserve_restore_round_trip_witness :
  let text := str "<b>001</b><td>100</td><td>2024</td> Tom &amp; Jerry: $$5 "
              ++ [294] in
  restoreHtmlContent (fst (preserveHtmlContent text))
                     (snd (preserveHtmlContent text)) = text.
Proof.
  apply preserve_restore_round_trip.
  - vm_compute. reflexivity.
  - vm_compute. intuition discriminate.
Defined.

(** C7, as stated, fails: for the text "<a U+FF1A>", one tag, the small
    spelling of its token is replaced, but not by the fragment: the
    full-width colon of the fragment comes back as an ASCII colon. *)
Lemma restore_casing_repairs_fragment :
  let text := str "<a " ++ [65306] ++ str ">" in
  placeholders (snd (preserveHtmlContent text)) = [(placeholder_of 0, text)]
  /\ List.map Canonicalize small_placeholder_0 = placeholder_of 0
  /\ restoreHtmlContent small_placeholder_0 (snd (preserveHtmlContent text)) <> text.
Proof. vm_compute. repeat split; discriminate. Qed.

(** C7, amended: let a translated text be made of any characters and of
    tokens of the record of a text, each in any letter case, such that the
    fragment a token stands for holds no "$" followed by "$", "&", a
    backquote or a quote, and let the translated text be free of token
    collisions: when the decoder comes to an entry of the record, the
    pattern of the entry's token matches in the text only at the tokens
    that stand for the entry's fragment.  Then [restoreHtmlContent]
    replaces every token by the fragment the record holds for it and
    rewrites the full-width colons of the result, those of the fragments
    included, to ASCII colons. *)
Theorem restore_any_casing :
  forall text X,
    forallb (reads_as (snd (preserveHtmlContent text))) X = true ->
    collision_free (counter (snd (preserveHtmlContent text))) X = true ->
    restoreHtmlContent (render X) (snd (preserveHtmlContent text))
    = List.map repair_colon (original X).
Proof.
  intros text X HX Hq. pose proof (reads_as_tokens text X HX) as Ht.
  rewrite preserve_record in *. cbn [counter record_of] in Hq.
  now apply decode_collision_free.
Qed.

Lemma restore_any_casing_witness :
  restoreHtmlContent
    (small_placeholder_0 ++ str "$$a" ++ [65306; 294] ++ str "100" ++ placeholder_of 4
     ++ placeholder_of 1)
    (snd (preserveHtmlContent example))
  = str "<strong>$$a:" ++ [294] ++ str "100:</strong>".
Proof.
  apply (restore_any_casing example
           [Tok 0 (str "<strong>") small_placeholder_0; Plain 36; Plain 36; Plain 97;
            Plain 65306; Plain 294; Plain 49; Plain 48; Plain 48;
            Tok 4 (str ":") (placeholder_of 4);
            Tok 1 (str "</strong>") (placeholder_of 1)]);
    vm_compute; reflexivity.
Defined.

(** ** Further properties *)

(** X1: on a freshly loaded module, where both patterns have their
    [lastIndex] at 0, [containsHtmlContent] answers true exactly when the
    tag pattern or the entity pattern matches somewhere in the text. *)
Theorem detector_exact_on_fresh_state :
  forall text,
    fst (containsHtmlContent text initial) = true
    <-> matches_in TAGS text \/ matches_in ENTITIES text.
Proof. exact containsHtmlContent_initial. Qed.

(** X2: whatever [lastIndex] the two patterns are left with, a true answer
    of [containsHtmlContent] is right: the text holds a match of the tag
    pattern or of the entity pattern. *)
Theorem detector_true_is_right :
  forall text ps,
    fst (containsHtmlContent text ps) = true ->
    matches_in TAGS text \/ matches_in ENTITIES text.
Proof. exact containsHtmlContent_true. Qed.

Lemma detector_true_is_right_witness :
  matches_in TAGS (str "a<b>c") \/ matches_in ENTITIES (str "a<b>c").
Proof.
  apply (detector_true_is_right (str "a<b>c")
           {| TAGS_lastIndex := 1; ENTITIES_lastIndex := 7 |}).
  reflexivity.
Defined.

(** X3: a false answer of [containsHtmlContent] leaves both patterns with
    [lastIndex] 0, so the call that follows it, on any text, answers true
    exactly when that text holds a tag or an entity; a text that holds one
    is never missed twice in a row. *)
Theorem detector_false_resets :
  forall text ps,
    fst (containsHtmlContent text ps) = false ->
    snd (containsHtmlContent text ps) = initial
    /\ forall next,
         fst (containsHtmlContent next (snd (containsHtmlContent text ps))) = true
         <-> matches_in TAGS next \/ matches_in ENTITIES next.
Proof.
  intros text ps H. apply containsHtmlContent_false in H. split; [exact H|].
  intros next. rewrite H. apply containsHtmlContent_initial.
Qed.

Lemma detector_false_resets_witness :
  let ps := {| TAGS_lastIndex := 3; ENTITIES_lastIndex := 0 |} in
  snd (containsHtmlContent (str "<b>") ps) = initial
  /\ forall next,
       fst (containsHtmlContent next (snd (containsHtmlContent (str "<b>") ps))) = true
       <-> matches_in TAGS next \/ matches_in ENTITIES next.
Proof.
  apply (detector_false_resets (str "<b>")
           {| TAGS_lastIndex := 3; ENTITIES_lastIndex := 0 |}).
  reflexivity.
Defined.

(** X4: [preserveHtmlContent] returns the text as it is exactly when the
    text holds no tag, no entity and no colon; and exactly then the record
    it returns is empty, and exactly then its counter is 0. *)
Theorem preserve_changes_iff_fragment :
  forall text,
    (fst (preserveHtmlContent text) = text <-> no_fragment text)
    /\ (placeholders (snd (preserveHtmlContent text)) = [] <-> no_fragment text)
    /\ (counter (snd (preserveHtmlContent text)) = 0%nat <-> no_fragment text).
Proof.
  intros text.
  assert (B : no_fragment text ->
              preserveHtmlContent text = (text, {| placeholders := []; counter := 0 |}))
    by (intros (NT & NE & NC); now apply preserve_no_fragment).
  split; [|split]; (split; [|intros H; now rewrite (B H)]).
  - intros E. pose proof (preserve_no_leak text) as L. now rewrite E in L.
  - rewrite preserve_record. cbn [placeholders record_of]. intros E.
    apply fragments_none. now apply entries_nil in E.
  - rewrite preserve_record. cbn [counter record_of]. intros E.
    apply fragments_none. now apply length_zero_iff_nil.
Qed.

(** X5: the text [preserveHtmlContent] returns is the original text in
    which some stretches are replaced by tokens: it reads as a sequence of
    characters and tokens, each token spelled as minted, and putting back
    for each token the fragment the record holds under it gives the
    original text. *)
Theorem preserve_substitutes_fragments :
  forall text,
    exists items,
      fst (preserveHtmlContent text) = render items
      /\ original items = text
      /\ forall k c v,
           In (Tok k c v) items ->
           v = placeholder_of k
           /\ In (placeholder_of k, c) (placeholders (snd (preserveHtmlContent text))).
Proof.
  intros text. destruct (encode_items text) as (items & Hr & Ho & Hx & Hk).
  exists items. split; [exact Hr|]. split; [exact Ho|].
  intros k c v Hin. split; [exact (Hx k c v Hin)|].
  rewrite preserve_record. cbn [placeholders record_of].
  apply (entries_nth c (fragments text) 0 k). exact (Hk k c v Hin).
Qed.

(** X6: the text [preserveHtmlContent] returns is inert for the other
    operations: [containsHtmlContent] answers false on it in any pattern
    state, [sanitizeHtmlContent] returns it as it is, and encoding it again
    returns it as it is with an empty record. *)
Theorem preserve_output_is_inert :
  forall text ps,
    containsHtmlContent (fst (preserveHtmlContent text)) ps = (false, initial)
    /\ sanitizeHtmlContent (fst (preserveHtmlContent text)) = fst (preserveHtmlContent text)
    /\ preserveHtmlContent (fst (preserveHtmlContent text))
       = (fst (preserveHtmlContent text), {| placeholders := []; counter := 0 |}).
Proof.
  intros text ps. destruct (preserve_no_leak text) as (NT & NE & NC).
  split; [|split].
  - now apply containsHtmlContent_no_match.
  - rewrite sanitize_scan. now rewrite (scan_no_match _ _ _ TAGS_never_empty).
  - now apply preserve_no_fragment.
Qed.

(** X7: every fragment the record of [preserveHtmlContent] stores occurs
    in the original text: the encoder stores nothing it made up, and no
    fragment that straddles a token of an earlier pass. *)
Theorem stored_fragments_occur_in_text :
  forall text key c,
    In (key, c) (placeholders (snd (preserveHtmlContent text))) ->
    occurs_in c text.
Proof.
  intros text key c. rewrite preserve_record. cbn [placeholders record_of].
  intros H. apply entries_In in H.
  pose proof (fragments_occur text) as F. rewrite Forall_forall in F. now apply F.
Qed.

Lemma stored_fragments_occur_in_text_witness :
  occurs_in (str "&amp;") (str "<i>a &amp; b</i>").
Proof.
  apply (stored_fragments_occur_in_text (str "<i>a &amp; b</i>") (placeholder_of 2)).
  vm_compute. auto.
Defined.

(** X8: whatever the text and the record, the text [restoreHtmlContent]
    returns holds no full-width colon U+FF1A. *)
Theorem restore_leaves_no_fullwidth_colon :
  forall translatedText preserved,
    ~ In 65306 (restoreHtmlContent translatedText preserved).
Proof.
  intros t rec. unfold restoreHtmlContent. rewrite repair_all.
  apply repaired_no_fullwidth.
Qed.

(** X9: when the translated text holds neither U+0126 nor U+0127, so that
    every token is lost, [restoreHtmlContent] with the record of any text
    raises nothing and puts no fragment back: it returns the translated
    text with its full-width colons rewritten to ASCII colons. *)
Theorem restore_without_tokens :
  forall text translatedText,
    clean translatedText = true ->
    restoreHtmlContent translatedText (snd (preserveHtmlContent text))
    = List.map repair_colon translatedText.
Proof. intros text t H. now apply restore_clean. Qed.

Lemma restore_without_tokens_witness :
  restoreHtmlContent (str "Bonjour" ++ [65306] ++ str " le monde")
    (snd (preserveHtmlContent (str "<b>Hello</b>: world")))
  = str "Bonjour: le monde".
Proof.
  apply (restore_without_tokens (str "<b>Hello</b>: world")
           (str "Bonjour" ++ [65306] ++ str " le monde")).
  reflexivity.
Defined.

(** X10: [restoreHtmlContent] passes the stored fragment to [replace] as a
    replacement text, not as a literal: for a record of one entry and a
    translated text that holds the token once, in any letter case, between
    two stretches free of U+0126 and U+0127, the token is replaced by the
    expansion of the fragment, in which [$$] is a dollar sign, [$&] the
    token as spelled, [$`] the text before it and [$'] the text after it;
    the full-width colons of the result are then rewritten. *)
Theorem restore_uses_fragment_as_template :
  forall before after k v c n,
    clean before = true -> clean after = true ->
    same_folded v (placeholder_of k) = true ->
    restoreHtmlContent (before ++ v ++ after)
      {| placeholders := [(placeholder_of k, c)]; counter := n |}
    = List.map repair_colon (before ++ GetSubstitution v before after c ++ after).
Proof.
  intros before after k v c n Hb Ha Hv.
  apply same_folded_placeholder in Hv.
  unfold restoreHtmlContent. cbn [placeholders fold_left]. rewrite repair_all. f_equal.
  unfold restore_entry. cbn [fst snd]. rewrite RegExp_gi_escape.
  unfold replace_str, replace_fn.
  pose proof (lit_i_placeholder_not_nil k) as Hne.
  rewrite replace_from_pass by now apply token_not_in_clean.
  cbn [fst]. f_equal.
  rewrite replace_from_hit; [|exact Hne|now apply match_at_token].
  cbn [fst snd]. rewrite Nat.add_0_l.
  rewrite firstn_app, Nat.sub_diag, firstn_all, firstn_O, app_nil_r.
  rewrite <- length_app, app_assoc, skipn_app, Nat.sub_diag, skipn_all, skipn_O.
  cbn [app]. f_equal.
  rewrite replace_from_none; [reflexivity|exact Hne|].
  now apply token_not_in_clean.
Qed.

Lemma restore_uses_fragment_as_template_witness :
  restoreHtmlContent (str "a " ++ small_placeholder_0 ++ str " b")
    {| placeholders := [(placeholder_of 0, str "<i title='$$ $` $& $''>")]; counter := 1 |}
  = str "a <i title='$ a  " ++ small_placeholder_0 ++ str "  b'> b".
Proof.
  apply (restore_uses_fragment_as_template (str "a ") (str " b") 0 small_placeholder_0
           (str "<i title='$$ $` $& $''>") 1);
    reflexivity.
Defined.

(** X11: under the conditions of the case-insensitive restore (the
    original text holds neither U+0126 nor U+0127, no full-width colon and
    no "$" sequence; the translated text is made of other characters and
    of tokens of the record in any letter case, with no run of three or
    more digits directly between two tokens), decoding the decoded text
    once more with the same record changes nothing. *)
Theorem restore_twice :
  forall text X,
    fragments_ok text = true ->
    forallb (stands_for (snd (preserveHtmlContent text))) X = true ->
    no_bridge X = true ->
    restoreHtmlContent
      (restoreHtmlContent (render X) (snd (preserveHtmlContent text)))
      (snd (preserveHtmlContent text))
    = restoreHtmlContent (render X) (snd (preserveHtmlContent text)).
Proof.
  intros text X Hok HX Hb.
  rewrite (restore_spelled text X Hok HX Hb).
  destruct (stands_for_wf text X Hok HX) as [Hwf _].
  rewrite restore_clean by now apply restored_clean.
  apply repair_none. rewrite <- (repair_restored X Hwf). apply repaired_no_fullwidth.
Qed.

Lemma restore_twice_witness :
  let rec := snd (preserveHtmlContent example) in
  let t := small_placeholder_0 ++ str "a" ++ [65306] ++ str "b" ++ placeholder_of 1 in
  restoreHtmlContent (restoreHtmlContent t rec) rec = restoreHtmlContent t rec.
Proof.
  apply (restore_twice example
           [Tok 0 (str "<strong>") small_placeholder_0; Plain 97; Plain 65306; Plain 98;
            Tok 1 (str "</strong>") (placeholder_of 1)]);
    vm_compute; reflexivity.
Defined.

(** X12: the strings the pattern [restoreHtmlContent] builds for a token
    matches are the spellings of the token, and nothing else: each of the
    letters U+0126, U+0110, U+0141 and X as it is or as its small letter,
    each digit as it is. *)
Theorem token_pattern_matches_spellings :
  forall k v,
    Matches (RegExp_gi (escapeRegExp (placeholder_of k))) v
    <-> Forall2 (fun p c => spells p c = true) (placeholder_of k) v.
Proof.
  intros k v. rewrite RegExp_gi_escape, lit_i_shape, placeholder_canonical.
  rewrite <- (folded_spells (placeholder_of k) v (placeholder_chars k)).
  split; intros H; now rewrite H.
Qed.

(** X13: a token has at least 13 code units, and exactly 13 as long as the
    counter is below 1000: [padStart] pads the counter to three digits and
    never cuts it, so from the thousandth fragment on the tokens are
    longer. *)
Theorem token_width :
  forall n,
    (13 <= length (placeholder_of n))%nat
    /\ (length (placeholder_of n) = 13%nat <-> (n < 1000)%nat).
Proof.
  intros n. rewrite placeholder_length. split; [lia|]. split.
  - intros H. apply toString_short. lia.
  - intros H. apply toString_below_1000 in H. lia.
Qed.

(** X14: [sanitizeHtmlContent] only deletes: the text it returns is the
    text it was given with some code units left out, in the same order. *)
Theorem sanitize_only_deletes :
  forall text, subsequence (sanitizeHtmlContent text) text.
Proof. exact sanitize_subsequence. Qed.

(** X15: [sanitizeHtmlContent] returns a text as it is exactly when every
    tag its scan comes upon has a name on the allow-list. *)
Theorem sanitize_fixed_iff_all_safe :
  forall text,
    sanitizeHtmlContent text = text
    <-> Forall (fun m => on_allow_list (tag_name m) = true) (found TAGS text).
Proof.
  intros text.
  induction text as [| c t Hc IH | m rest Hm Hn IH] using (scan_ind TAGS TAGS_never_empty).
  - rewrite found_nil by apply TAGS_never_empty. split; [constructor|reflexivity].
  - rewrite sanitize_miss, found_miss by assumption. rewrite <- IH.
    split; [intros H; now injection H|intros H; now f_equal].
  - rewrite sanitize_hit, found_hit by (assumption || apply TAGS_never_empty).
    destruct (on_allow_list (tag_name m)) eqn:E.
    + split.
      * intros H. apply app_inv_head in H. constructor; [exact E|now apply IH].
      * intros H. inversion H; subst. f_equal. now apply IH.
    + split.
      * intros H. exfalso.
        pose proof (subsequence_length _ _ (sanitize_subsequence rest)) as L.
        apply (f_equal (@length _)) in H. rewrite !length_app in H.
        destruct m; [contradiction|cbn [length] in H; lia].
      * intros H. inversion H; subst. congruence.
Qed.

(** X16: [sanitizeHtmlContent] makes one pass and does not look at what it
    returns: when a tag that is not on the allow-list stands inside what
    is otherwise a tag name, deleting it joins the two halves, and the text
    returned holds a tag of the joined name, which may be any name at all
    ("<scr<x>ipt>" comes back as "<script>"). *)
Theorem sanitize_joins_what_is_left :
  forall a n1 m n2 rest,
    is_alpha a = true -> forallb is_alnum n1 = true -> forallb is_alnum n2 = true ->
    Matches TAGS m -> on_allow_list (tag_name m) = false ->
    sanitizeHtmlContent (60 :: a :: n1 ++ m ++ n2 ++ 62 :: rest)
    = 60 :: a :: n1 ++ n2 ++ 62 :: sanitizeHtmlContent rest
    /\ Matches TAGS (60 :: a :: n1 ++ n2 ++ [62])
    /\ tag_name (60 :: a :: n1 ++ n2 ++ [62]) = a :: n1 ++ n2.
Proof.
  intros a n1 m n2 rest Ha H1 H2 M Hm.
  assert (H12 : forallb is_alnum (n1 ++ n2) = true)
    by (rewrite forallb_app, H1, H2; reflexivity).
  split; [|split].
  - pose proof M as Mt. apply TAGS_shape in Mt.
    assert (Em : exists m', m = 60 :: m') by (destruct Mt; simpl; eauto).
    destruct Em as (m' & Em).
    rewrite sanitize_miss.
    + f_equal. change (a :: n1 ++ m ++ n2 ++ 62 :: rest)
        with ((a :: n1) ++ m ++ n2 ++ 62 :: rest).
      rewrite sanitize_pass
        by (apply alnum_not_lt; simpl; rewrite H1; unfold is_alnum; now rewrite Ha).
      simpl. f_equal. f_equal.
      rewrite sanitize_hit by now apply match_at_tag.
      rewrite Hm. cbn [app].
      replace (n2 ++ 62 :: rest) with ((n2 ++ [62]) ++ rest)
        by (rewrite <- app_assoc; reflexivity).
      rewrite sanitize_pass.
      * now rewrite <- app_assoc.
      * intros Hin. apply in_app_or in Hin as [Hin|Hin].
        -- now apply alnum_not_lt in Hin.
        -- simpl in Hin. intuition discriminate.
    + apply match_at_None. intros m0 rest0 E M0. apply TAGS_shape in M0.
      rewrite Em in E. change ((60 :: m') ++ n2 ++ 62 :: rest)
        with (60 :: m' ++ n2 ++ 62 :: rest) in E.
      apply (name_not_closed a n1 60 (m' ++ n2 ++ 62 :: rest) m0 rest0); auto.
      discriminate.
  - apply TAGS_shape.
    replace (60 :: a :: n1 ++ n2 ++ [62]) with (60 :: [] ++ a :: (n1 ++ n2) ++ [] ++ [62])
      by (simpl; now rewrite <- app_assoc).
    constructor; auto.
  - replace (60 :: a :: n1 ++ n2 ++ [62]) with (60 :: [] ++ a :: (n1 ++ n2) ++ [] ++ [62])
      by (simpl; now rewrite <- app_assoc).
    now apply tag_name_shape; auto.
Qed.

Lemma sanitize_joins_what_is_left_witness :
  sanitizeHtmlContent (str "<scr<x>ipt>alert(1)</script>") = str "<script>alert(1)"
  /\ Matches TAGS (str "<script>")
  /\ tag_name (str "<script>") = str "script".
Proof.
  apply (sanitize_joins_what_is_left 115 (str "cr") (str "<x>") (str "ipt")
           (str "alert(1)</script>")); try reflexivity.
  apply (run_spec TAGS (str "<x>") (str "<x>") []). vm_compute. now left.
Defined.

(** X18: a tag match the scan reports ends at the first ">" after its
    "<": quotes are not understood, so a ">" inside an attribute value
    ends the tag there and what follows stays in the text. *)
Theorem tag_ends_at_first_gt :
  forall s m rest,
    match_at TAGS s = Some (m, rest) ->
    exists body,
      m = 60 :: body ++ [62] /\ ~ In 62 body /\ s = 60 :: body ++ 62 :: rest.
Proof.
  intros s m rest H. apply match_at_Some in H as [M ->].
  apply TAGS_shape, tag_body in M as (body & -> & Hb & _).
  exists body. split; [reflexivity|]. split.
  - rewrite forallb_forall in Hb. intros Hin. apply Hb in Hin. discriminate.
  - simpl. now rewrite <- app_assoc.
Qed.

Lemma tag_ends_at_first_gt_witness :
  exists body,
    str "<a title='x>" = 60 :: body ++ [62] /\ ~ In 62 body
    /\ str "<a title='x>y'>z" = 60 :: body ++ 62 :: str "y'>z".
Proof.
  apply (tag_ends_at_first_gt (str "<a title='x>y'>z") (str "<a title='x>") (str "y'>z")).
  reflexivity.
Defined.
